(** * rm_csv_dup_app: the tabular model of [src/model.py] and its CSV codec

    A shallow embedding of [Header], [Entry], [Table], [CSV_to_table] and
    [table_to_CSV], followed by the properties of the specification that
    were checked against it.

    Python objects live in a store: an [Entry] is addressed by a reference,
    a [Table] keeps the references of its rows, and [==] on entries is
    object identity because the class defines no [__eq__].  Methods that
    only touch the fields of [self] are written as state transformers on
    those fields and run on a stored object with [call].

    The last part adds properties of the same code that the specification
    does not state, and of the cell edit of [src/gui.py], which calls the
    model. *)

From Stdlib Require Import ZArith Ascii String Lia.
From stdpp Require Import base tactics option list list_numbers strings.

Set Default Proof Using "Type".

(** ** Python runtime: exceptions, outcomes, state *)

Inductive exn : Type :=
  | IndexError      (* sequence index out of range *)
  | ValueError      (* list.remove(x): x not in list *)
  | StopIteration   (* next() on an exhausted iterator *)
  | CsvError        (* _csv.Error *)
  | InvalidRef.     (* model only: a reference that names no stored object *)

Inductive outcome (A : Type) : Type :=
  | Ok (a : A)
  | Raise (e : exn).
Arguments Ok {A} a.
Arguments Raise {A} e.

#[global] Instance exn_eq_dec : EqDecision exn.
Proof. solve_decision. Defined.

#[global] Instance outcome_ret : MRet outcome := λ A a, Ok a.
#[global] Instance outcome_bind : MBind outcome := λ A B f m,
  match m with Ok a => f a | Raise e => Raise e end.
#[global] Instance outcome_fmap : FMap outcome := λ A B f m,
  match m with Ok a => Ok (f a) | Raise e => Raise e end.

(** A computation over a mutable state [S]: the state survives an
    exception, as the Python heap does. *)
Definition M (S A : Type) : Type := S → outcome A * S.

#[global] Instance M_ret {S} : MRet (M S) := λ A a s, (Ok a, s).
#[global] Instance M_bind {S} : MBind (M S) := λ A B f m s,
  match m s with
  | (Ok a, s') => f a s'
  | (Raise e, s') => (Raise e, s')
  end.

(** A method that only reads [self]. *)
Definition reads {S A} (f : S → outcome A) : M S A := λ s, (f s, s).

(** [for x in xs: body(x)] *)
Fixpoint for_each {S A} (xs : list A) (body : A → M S unit) : M S unit :=
  match xs with
  | [] => mret tt
  | x :: xs' => body x ;; for_each xs' body
  end.

(** ** Python sequences *)

Definition len {A} (l : list A) : Z := Z.of_nat (length l).

(** [range(n)] *)
Definition range (n : Z) : list Z := seqZ 0 n.

(** The position named by index [i] in [l]; negative indices count from the
    end.  [None] when the index is out of range. *)
Definition py_index {A} (l : list A) (i : Z) : option nat :=
  let i' := if (i <? 0)%Z then (i + len l)%Z else i in
  if ((0 <=? i') && (i' <? len l))%Z then Some (Z.to_nat i') else None.

(** [l[i]] *)
Definition list_getitem {A} (l : list A) (i : Z) : outcome A :=
  match py_index l i ≫= (l !!.) with
  | Some x => Ok x
  | None => Raise IndexError
  end.

(** [list.insert] and [list.pop] take their index as a machine word
    ([Py_ssize_t], 64 bits): CPython converts the index first and rejects
    one that does not fit with [OverflowError], before it looks at the
    list.  The two definitions below give the methods on the indices that
    fit; what is proved of them assumes [fits_ssize_t] where an index is
    not already bounded by the length of a list. *)
Definition ssize_t_max : Z := 9223372036854775807.

Definition fits_ssize_t (i : Z) : Prop :=
  (- ssize_t_max - 1 ≤ i ≤ ssize_t_max)%Z.

(** [l.insert(i, x)], [i] a machine word: the index is clamped, never
    rejected. *)
Definition list_insert_at {A} (l : list A) (i : Z) (x : A) : list A :=
  let i1 := if (i <? 0)%Z then Z.max 0 (i + len l) else i in
  let i2 := if (len l <? i1)%Z then len l else i1 in
  take (Z.to_nat i2) l ++ x :: drop (Z.to_nat i2) l.

(** [l.pop(i)], [i] a machine word *)
Definition list_pop {A} (l : list A) (i : Z) : outcome (A * list A) :=
  match py_index l i with
  | Some k =>
      match l !! k with
      | Some x => Ok (x, delete k l)
      | None => Raise IndexError
      end
  | None => Raise IndexError
  end.

(** [l.remove(x)]: deletes the first item equal to [x] under [eqb]. *)
Fixpoint list_remove {A} (eqb : A → A → bool) (l : list A) (x : A)
  : outcome (list A) :=
  match l with
  | [] => Raise ValueError
  | y :: l' => if eqb y x then Ok l' else (y ::.) <$> list_remove eqb l' x
  end.

(** ** Dictionaries used as ordered sets

    A cell is a [dict[str, None]]; only its keys matter, in insertion
    order.  The dictionary is the list of its keys. *)

(** [d.update({k: None})] *)
Definition dict_update (d : list string) (k : string) : list string :=
  if decide (k ∈ d) then d else d ++ [k].

(** [d.clear()] *)
Definition dict_clear (d : list string) : list string := [].

(** [sep.join(l)] *)
Definition join (sep : string) (l : list string) : string := String.concat sep l.

(** ** class Header *)

Module Header.
Record t : Type := mk { column_names : list string }.

Definition get_column_names (self : t) : list string := column_names self.
Definition get_column_count (self : t) : Z := len (column_names self).
Definition get_copy (self : t) : t := mk (column_names self).
End Header.

(** ** The object store

    Objects are stored in allocation order; a reference is the position of
    its object.  Nothing is ever freed. *)

Abbreviation ref := nat.

(** A new object gets the next free address. *)
Definition alloc {O} (o : O) : M (list O) ref := λ h, (Ok (length h), h ++ [o]).

(** Run a method of the object stored at [r]. *)
Definition call {O A} (r : ref) (m : M O A) : M (list O) A := λ h,
  match h !! r with
  | Some o => let '(res, o') := m o in (res, <[r := o']> h)
  | None => (Raise InvalidRef, h)
  end.

(** ** class Entry *)

Module Entry.
(** The fields of an [Entry] object. *)
Record t : Type := mk {
  column_count : Z;
  cell_values : list (list string)
}.

(** [__init__(self, *, length=0, values=[])] *)
Definition init (length : Z) (values : option (list string)) : t :=
  let values :=
    match values with
    | None => replicate (Z.to_nat length) ""
    | Some vs => if decide (len vs = 0%Z) then replicate (Z.to_nat length) "" else vs
    end in
  {| column_count := len values;
     cell_values :=
       foldl (λ cells column_value,
                if decide (column_value ≠ "")
                then cells ++ [[column_value]]
                else cells ++ [[]])
             [] values |}.

Definition out_of_bounds (self : t) (column_index : Z) : bool :=
  bool_decide (column_index < 0 ∨ column_index >= column_count self)%Z.

(** [self.__cell_values[column_index]] mutated in place by [f]. *)
Definition with_cell (column_index : Z) (f : list string → list string)
  : M t unit := λ self,
  match py_index (cell_values self) column_index with
  | Some k =>
      match cell_values self !! k with
      | Some d =>
          (Ok tt, {| column_count := column_count self;
                      cell_values := <[k := f d]> (cell_values self) |})
      | None => (Raise IndexError, self)
      end
  | None => (Raise IndexError, self)
  end.

Definition append_value_to_column (column_index : Z) (value : string)
  : M t unit := λ self,
  if out_of_bounds self column_index then (Ok tt, self)
  else if decide (value = "") then (Ok tt, self)
  else with_cell column_index (λ d, dict_update d value) self.

Definition set_value_at_column (column_index : Z) (value : string)
  : M t unit := λ self,
  if out_of_bounds self column_index then (Ok tt, self)
  else if decide (value = "") then (Ok tt, self)
  else (with_cell column_index dict_clear ;;
        with_cell column_index (λ d, dict_update d value)) self.

(** [list(self.__cell_values[column_index].keys())]: no guard, the index
    goes to the list as it is. *)
Definition get_values_from_column (column_index : Z) (self : t)
  : outcome (list string) :=
  list_getitem (cell_values self) column_index.

Definition get_value_str_from_column (column_index : Z) (separator : string)
    (self : t) : outcome string :=
  if out_of_bounds self column_index then Ok ""
  else join separator <$> get_values_from_column column_index self.

Definition get_value_str_from_columns (separator : string) (self : t)
  : outcome (list string) :=
  mapM (λ column_index, get_value_str_from_column column_index separator self)
       (range (column_count self)).

Definition get_column_count (self : t) : Z := column_count self.

(** [Entry(length=..., values=...)]: a fresh object. *)
Definition new (length : Z) (values : option (list string))
  : M (list t) ref :=
  alloc (init length values).

(** The copy is a new object; the values of [self] are appended to it
    column by column. *)
Definition get_deep_copy (self : ref) : M (list t) ref :=
  n ← call self (reads (λ o, Ok (column_count o)));
  deep_copy ← new n (Some []);
  n ← call self (reads (λ o, Ok (column_count o)));
  for_each (range n) (λ column_index,
    column_values ← call self (reads (get_values_from_column column_index));
    for_each column_values (λ value,
      call deep_copy (append_value_to_column column_index value)));;
  mret deep_copy.

(** [entries] may be [None]; any of them may be [self] itself. *)
Definition merge_entries (self : ref) (entries : option (list ref))
  : M (list t) ref :=
  merged_entry ← get_deep_copy self;
  match entries with
  | None => mret merged_entry
  | Some entries =>
      if decide (len entries = 0%Z) then mret merged_entry
      else
        for_each entries (λ entry,
          n_self ← call self (reads (λ o, Ok (column_count o)));
          n_entry ← call entry (reads (λ o, Ok (column_count o)));
          for_each (range (Z.min n_self n_entry)) (λ column_index,
            column_values ←
              call entry (reads (get_values_from_column column_index));
            for_each column_values (λ value,
              call merged_entry
                   (append_value_to_column column_index value))));;
        mret merged_entry
  end.

(** [a == b] on entries: the class defines no [__eq__], so Python
    compares the objects' identities. *)
Definition eq (a b : ref) : bool := bool_decide (a = b).
End Entry.

Abbreviation heap := (list Entry.t).

(** ** class Table *)

Module Table.
(** The fields of a [Table] object; the rows are references. *)
Record t : Type := mk {
  header : Header.t;
  entries : list ref
}.

(** [__init__]: every entry given is deep-copied into the new table. *)
Definition init (header : Header.t) (entries : option (list ref))
  : M heap t :=
  match entries with
  | None => mret (mk header [])
  | Some entries =>
      copies ← mapM Entry.get_deep_copy entries;
      mret (mk header copies)
  end.

Definition get_header (self : t) : Header.t := header self.
Definition get_column_names (self : t) : list string :=
  Header.get_column_names (header self).
Definition get_column_count (self : t) : Z :=
  Header.get_column_count (header self).
Definition get_entries (self : t) : list ref := entries self.
Definition get_entry_count (self : t) : Z := len (entries self).

(** The four methods below hand their arguments to the list of rows:
    [self.__entries[index]], [.insert(index, entry)], [.pop(index)],
    [.remove(entry)]. *)
Definition get_entry (index : Z) (self : t) : outcome ref :=
  list_getitem (entries self) index.

Definition append_entry (entry : ref) : M t unit := λ self,
  (Ok tt, mk (header self) (entries self ++ [entry])).

Definition insert_entry (index : Z) (entry : ref) : M t unit := λ self,
  (Ok tt, mk (header self) (list_insert_at (entries self) index entry)).

Definition pop_entry (index : Z) : M t ref := λ self,
  match list_pop (entries self) index with
  | Ok (entry, rest) => (Ok entry, mk (header self) rest)
  | Raise e => (Raise e, self)
  end.

Definition remove_entry (entry : ref) : M t ref := λ self,
  match list_remove Entry.eq (entries self) entry with
  | Ok rest => (Ok entry, mk (header self) rest)
  | Raise e => (Raise e, self)
  end.

Definition get_deep_copy (self : t) : M heap t :=
  init (header self) (Some (entries self)).
End Table.

(** ** The csv module, excel dialect

    [csv.writer] and [csv.reader] with the default dialect: delimiter [,],
    the double quote as quote character, doubled inside quoted fields,
    minimal quoting, line terminator CR LF, not strict, no escape
    character.  The reader is the state machine of CPython's [_csv]
    module, including its field size limit; a line is a list of
    characters and the reader is fed the lines of the file one by one. *)

Module Csv.
Definition delimiter : ascii := ","%char.
Definition quotechar : ascii := "034"%char.
Definition CR : ascii := "013"%char.
Definition LF : ascii := "010"%char.
Definition lineterminator : string := String CR (String LF EmptyString).
Definition field_limit : Z := 131072.

(** *** Writer *)

(** A character that forces its field to be quoted. *)
Definition special (c : ascii) : bool :=
  bool_decide (c = delimiter ∨ c = quotechar ∨ c = CR ∨ c = LF).

(** The characters of a field as they are written, and whether the field
    has to be quoted. *)
Fixpoint join_append_data (field : string) : string * bool :=
  match field with
  | EmptyString => (EmptyString, false)
  | String c rest =>
      let '(data, quoted) := join_append_data rest in
      if special c then
        (if decide (c = quotechar) then String quotechar (String c data)
         else String c data, true)
      else (String c data, quoted)
  end.

Definition join_append (field : string) : string :=
  let '(data, quoted) := join_append_data field in
  if quoted then String quotechar data +:+ String quotechar EmptyString
  else data.

(** [writer.writerow(fields)]: the text added to the file. *)
Definition writerow (fields : list string) : string :=
  let rec := join (String delimiter EmptyString) (join_append <$> fields) in
  let rec :=
    if decide (0 < length fields ∧ String.length rec = 0)
    then String quotechar (String quotechar EmptyString)
    else rec in
  rec +:+ lineterminator.

(** *** Reader *)

Inductive ParserState : Type :=
  | START_RECORD | START_FIELD | IN_FIELD | IN_QUOTED_FIELD
  | QUOTE_IN_QUOTED_FIELD | EAT_CRNL.

#[global] Instance ParserState_eq_dec : EqDecision ParserState.
Proof. solve_decision. Defined.

Record Reader : Type := mkReader {
  state : ParserState;
  field : string;          (* the field being collected *)
  fields : list string     (* the fields of the record so far *)
}.

Definition set_state (st : ParserState) (self : Reader) : Reader :=
  mkReader st (field self) (fields self).

(** [parse_reset] *)
Definition parse_reset : Reader := mkReader START_RECORD EmptyString [].

Definition parse_add_char (c : ascii) (self : Reader) : outcome Reader :=
  if decide (field_limit <= Z.of_nat (String.length (field self)))%Z
  then Raise CsvError
  else Ok (mkReader (state self)
                    (field self +:+ String c EmptyString) (fields self)).

Definition parse_save_field (self : Reader) : Reader :=
  mkReader (state self) EmptyString (fields self ++ [field self]).

Definition is_newline (c : ascii) : bool := bool_decide (c = LF ∨ c = CR).

(** The state after the end of a field at a line break ([Some c]) or at
    the end of the line ([None]). *)
Definition after_line (c : option ascii) : ParserState :=
  match c with None => START_RECORD | Some _ => EAT_CRNL end.

Definition start_field (c : option ascii) (self : Reader) : outcome Reader :=
  match c with
  | None => Ok (set_state (after_line c) (parse_save_field self))
  | Some ch =>
      if is_newline ch then Ok (set_state (after_line c) (parse_save_field self))
      else if decide (ch = quotechar) then Ok (set_state IN_QUOTED_FIELD self)
      else if decide (ch = delimiter) then Ok (parse_save_field self)
      else set_state IN_FIELD <$> parse_add_char ch self
  end.

(** [parse_process_char]; [None] is the end-of-line marker the reader
    feeds after the last character of each line. *)
Definition parse_process_char (c : option ascii) (self : Reader)
  : outcome Reader :=
  match state self with
  | START_RECORD =>
      match c with
      | None => Ok self
      | Some ch =>
          if is_newline ch then Ok (set_state EAT_CRNL self)
          else start_field c (set_state START_FIELD self)
      end
  | START_FIELD => start_field c self
  | IN_FIELD =>
      match c with
      | None => Ok (set_state (after_line c) (parse_save_field self))
      | Some ch =>
          if is_newline ch then Ok (set_state (after_line c) (parse_save_field self))
          else if decide (ch = delimiter)
               then Ok (set_state START_FIELD (parse_save_field self))
          else parse_add_char ch self
      end
  | IN_QUOTED_FIELD =>
      match c with
      | None => Ok self
      | Some ch =>
          if decide (ch = quotechar) then Ok (set_state QUOTE_IN_QUOTED_FIELD self)
          else parse_add_char ch self
      end
  | QUOTE_IN_QUOTED_FIELD =>
      match c with
      | None => Ok (set_state (after_line c) (parse_save_field self))
      | Some ch =>
          if decide (ch = quotechar)
          then set_state IN_QUOTED_FIELD <$> parse_add_char ch self
          else if decide (ch = delimiter)
               then Ok (set_state START_FIELD (parse_save_field self))
          else if is_newline ch
               then Ok (set_state (after_line c) (parse_save_field self))
          else set_state IN_FIELD <$> parse_add_char ch self
      end
  | EAT_CRNL =>
      match c with
      | None => Ok (set_state START_RECORD self)
      | Some ch => if is_newline ch then Ok self else Raise CsvError
      end
  end.

(** The characters of one line, then the end-of-line marker. *)
Fixpoint process_chars (line : string) (self : Reader) : outcome Reader :=
  match line with
  | EmptyString => Ok self
  | String c rest => parse_process_char (Some c) self ≫= process_chars rest
  end.

Definition process_line (line : string) (self : Reader) : outcome Reader :=
  process_chars line self ≫= parse_process_char None.

(** Input exhausted in the middle of a record. *)
Definition pending (self : Reader) : bool :=
  bool_decide (String.length (field self) ≠ 0 ∨ state self = IN_QUOTED_FIELD).

(** [Reader.__next__]: one record from the remaining lines. *)
Fixpoint iternext_from (self : Reader) (lines : list string)
  : outcome (list string) * list string :=
  match lines with
  | [] =>
      if pending self then (Ok (fields (parse_save_field self)), [])
      else (Raise StopIteration, [])
  | line :: rest =>
      match process_line line self with
      | Raise e => (Raise e, rest)
      | Ok self' =>
          if decide (state self' = START_RECORD) then (Ok (fields self'), rest)
          else iternext_from self' rest
      end
  end.

Definition iternext : M (list string) (list string) :=
  iternext_from parse_reset.

(** Everything the reader yields when iterated to the end: its records,
    and the error that stopped the iteration if one did. *)
Fixpoint records_from (self : Reader) (lines : list string)
  : list (list string) * option exn :=
  match lines with
  | [] =>
      if pending self then ([fields (parse_save_field self)], None)
      else ([], None)
  | line :: rest =>
      match process_line line self with
      | Raise e => ([], Some e)
      | Ok self' =>
          if decide (state self' = START_RECORD)
          then let '(rows, ending) := records_from parse_reset rest in
               (fields self' :: rows, ending)
          else records_from self' rest
      end
  end.

Definition reader (lines : list string) : list (list string) * option exn :=
  records_from parse_reset lines.
End Csv.

(** ** Text files *)

(** Reading in text mode with the default [newline=None]: every CR LF and
    every lone CR arrives as LF. *)
Fixpoint translate_newlines (s : string) : string :=
  match s with
  | EmptyString => EmptyString
  | String c rest =>
      if decide (c = Csv.CR) then
        String Csv.LF
          match rest with
          | String c' rest' =>
              if decide (c' = Csv.LF) then translate_newlines rest'
              else translate_newlines rest
          | EmptyString => EmptyString
          end
      else String c (translate_newlines rest)
  end.

(** Iterating over a text file: its lines, each with its line break. *)
Fixpoint splitlines (s : string) : list string :=
  match s with
  | EmptyString => []
  | String c rest =>
      if decide (c = Csv.LF) then String c EmptyString :: splitlines rest
      else match splitlines rest with
           | [] => [String c EmptyString]
           | line :: lines => String c line :: lines
           end
  end.

(** The lines of the file opened by [open(path, 'r')]. *)
Definition file_lines (text : string) : list string :=
  splitlines (translate_newlines text).

(** ** The codec

    A file is the text it holds; [table_to_CSV] returns the text it writes
    to the file (opened with [newline=''], so nothing is translated) and
    [CSV_to_table] takes the text of the file it opens. *)

Definition raise {S A} (e : exn) : M S A := λ s, (Raise e, s).

Definition CSV_to_table (text : string) : M heap Table.t :=
  match Csv.reader (file_lines text) with
  | ([], None) => raise StopIteration          (* next(csv_reader) *)
  | ([], Some e) => raise e
  | (header_list :: rows, ending) =>
      let header := Header.mk header_list in
      entries ← mapM (λ row, Entry.new 0 (Some row)) rows;
      match ending with
      | Some e => raise e
      | None => Table.init header (Some entries)
      end
  end.

Fixpoint write_entries (entries : list ref) (csv_file : string)
  : M heap string :=
  match entries with
  | [] => mret csv_file
  | entry :: rest =>
      row ← call entry (reads (Entry.get_value_str_from_columns ", "));
      write_entries rest (csv_file +:+ Csv.writerow row)
  end.

Definition table_to_CSV (table : Table.t) : M heap string :=
  write_entries (Table.get_entries table)
                (Csv.writerow (Table.get_column_names table)).

(** ** The table view and the window of [src/gui.py]

    Of the view, the part that talks to the model.  A cell is named by
    the numbers of its row and its column: this is the branch of
    [__get_cell_value] and [__set_cell_value] taken when both positions
    are ints.  The widgets are outside the model; [set_cell_value]
    returns the values it hands to the tree view for the row. *)

(** [l[i] = x] *)
Definition list_setitem {A} (l : list A) (i : Z) (x : A) : outcome (list A) :=
  match py_index l i with
  | Some k => Ok (<[k := x]> l)
  | None => Raise IndexError
  end.

Module GuiTable.
Definition get_cell_value (table_model : Table.t) (row_index column_index : Z)
  : M heap (list string * Z * string) :=
  entry ← reads (λ _, Table.get_entry row_index table_model);
  row_values ← call entry (reads (Entry.get_value_str_from_columns ", "));
  cell_value ←
    call entry (reads (Entry.get_value_str_from_column column_index ", "));
  mret (row_values, column_index, cell_value).

Definition set_cell_value (table_model : Table.t) (row_index column_index : Z)
    (cell_value : string) : M heap (list string) :=
  (* update the data model *)
  entry ← reads (λ _, Table.get_entry row_index table_model);
  call entry (Entry.set_value_at_column column_index cell_value);;
  (* update the GUI table *)
  row_values ← call entry (reads (Entry.get_value_str_from_columns ", "));
  reads (λ _, list_setitem row_values column_index cell_value).
End GuiTable.

Module Window.
Definition get_accel_name (names : list string) : string :=
  foldl (λ accel_name name, accel_name +:+ "+" +:+ name) "Ctrl" names.

Definition get_accel_seq (seqs : list string) : string :=
  let accel_seq :=
    foldl (λ accel_seq seq, accel_seq +:+ "-" +:+ seq) "Control" seqs in
  "<" +:+ accel_seq +:+ ">".
End Window.

(** * Vocabulary of the properties *)

(** ** Invariants of an entry *)

(** The column count is the number of cells. *)
Definition Entry_wf (e : Entry.t) : Prop :=
  Entry.column_count e = len (Entry.cell_values e).

(** A cell holds distinct values, none of them the empty string. *)
Definition cell_ok (d : list string) : Prop := NoDup d ∧ "" ∉ d.

(** The invariant of the class: every entry of every store a program can
    reach satisfies it ([run_ops_inv] below). *)
Definition Entry_inv (e : Entry.t) : Prop :=
  Entry_wf e ∧ Forall cell_ok (Entry.cell_values e).

(** ** A functional reading of the mutators *)

(** What [append_value_to_column] does to the cell it reaches. *)
Definition add_value (d : list string) (v : string) : list string :=
  if decide (v = "") then d else dict_update d v.

Definition add_values (d vs : list string) : list string := foldl add_value d vs.

(** The entry with cell [k] replaced by [f] of it. *)
Definition map_cell (k : nat) (f : list string → list string) (e : Entry.t)
  : Entry.t :=
  Entry.mk (Entry.column_count e) (alter f k (Entry.cell_values e)).

(** The cells a list of initial values seeds. *)
Definition seed_cells (values : list string) : list (list string) :=
  (λ v : string, if decide (v = "") then [] else [v]) <$> values.

(** Entry [e] after the values held by [o] in columns [a .. a+n-1] were
    appended, in order, to its columns of the same index. *)
Definition absorb_range (a n : nat) (o e : Entry.t) : Entry.t :=
  Entry.mk (Entry.column_count e)
    (imap (λ k d, if decide (a ≤ k < a + n)
                  then add_values d (default [] (Entry.cell_values o !! k))
                  else d)
          (Entry.cell_values e)).

(** The state of a deep copy of [o]. *)
Definition copy_of (o : Entry.t) : Entry.t :=
  absorb_range 0 (length (Entry.cell_values o)) o
               (Entry.init (Entry.column_count o) (Some [])).

(** The state of the merge of [o] with the entries [os]. *)
Definition merge_of (o : Entry.t) (os : list Entry.t) : Entry.t :=
  foldl (λ e o',
           absorb_range 0
             (Z.to_nat (Z.min (Entry.column_count o) (Entry.column_count o')))
             o' e)
        (copy_of o) os.

(** ** Properties that no call can break *)

(** A property of the state that a computation cannot break, however it
    ends. *)
Definition preserves {S A} (P : S → Prop) (m : M S A) : Prop :=
  ∀ s, P s → P (m s).2.

(** ** The contract of merge_entries, column by column *)

(** The contract of the specification, read column by column.  Appending a
    value to a column is a no-op for the empty string and for a value the
    column already holds. *)
Definition spec_append_value (column : list string) (v : string)
  : list string :=
  if decide (v = "" ∨ v ∈ column) then column else column ++ [v].

(** Column [c] of the result: the column of [self], to which every other
    entry that reaches this column (index below the minimum of the two
    column counts) contributes its values, in its insertion order. *)
Definition spec_merged_column (self : Entry.t) (others : list Entry.t) (c : nat)
  : list string :=
  foldl (λ column other,
           if decide (Z.of_nat c
                      < Z.min (Entry.column_count self)
                              (Entry.column_count other))%Z
           then foldl spec_append_value column
                      (default [] (Entry.cell_values other !! c))
           else column)
        (default [] (Entry.cell_values self !! c)) others.

(** The result keeps the column count of [self]. *)
Definition spec_mergeWith (self : Entry.t) (others : list Entry.t) : Entry.t :=
  Entry.mk (Entry.column_count self)
           (spec_merged_column self others
              <$> seq 0 (Z.to_nat (Entry.column_count self))).

(** ** Programs: sequences of public operations on entries *)

(** The public operations on entries, as calls on the store. *)
Inductive entry_op : Type :=
  | OpNew (length : Z) (values : option (list string))
  | OpAppend (self : ref) (column_index : Z) (value : string)
  | OpSet (self : ref) (column_index : Z) (value : string)
  | OpDeepCopy (self : ref)
  | OpMerge (self : ref) (entries : option (list ref)).

(** The store after a call, however the call ended. *)
Definition run_op (op : entry_op) (h : heap) : heap :=
  match op with
  | OpNew length values => (Entry.new length values h).2
  | OpAppend self c v => (call self (Entry.append_value_to_column c v) h).2
  | OpSet self c v => (call self (Entry.set_value_at_column c v) h).2
  | OpDeepCopy self => (Entry.get_deep_copy self h).2
  | OpMerge self entries => (Entry.merge_entries self entries h).2
  end.

(** The store a program reaches from the empty store by a sequence of
    calls. *)
Definition run_ops (ops : list entry_op) : heap := foldl (λ h op, run_op op h) [] ops.

(** ** Plain text and written records *)

(** Every character of [s] satisfies [P]. *)
Fixpoint string_forall (P : ascii → Prop) (s : string) : Prop :=
  match s with
  | EmptyString => True
  | String c s' => P c ∧ string_forall P s'
  end.

(** A character that is neither the quote character nor a line break. *)
Definition plain_char (c : ascii) : Prop :=
  c ≠ Csv.quotechar ∧ c ≠ Csv.CR ∧ c ≠ Csv.LF.

(** A text without quote characters and without line breaks that the
    reader's field size limit admits. *)
Definition plain_field (s : string) : Prop :=
  string_forall plain_char s ∧
  (Z.of_nat (String.length s) ≤ Csv.field_limit)%Z.

Fixpoint has_delimiter (s : string) : bool :=
  match s with
  | EmptyString => false
  | String c s' => bool_decide (c = Csv.delimiter) || has_delimiter s'
  end.

(** The state in which the reader finishes the characters of a written
    field. *)
Definition field_state (f : string) : Csv.ParserState :=
  if has_delimiter f then Csv.QUOTE_IN_QUOTED_FIELD
  else match f with
       | EmptyString => Csv.START_FIELD
       | String _ _ => Csv.IN_FIELD
       end.

(** The text of a record as [writerow] writes it, line terminator apart. *)
Definition record_text (fields : list string) : string :=
  let rec := join (String Csv.delimiter EmptyString)
                  (Csv.join_append <$> fields) in
  if decide (0 < length fields ∧ String.length rec = 0)
  then String Csv.quotechar (String Csv.quotechar EmptyString)
  else rec.

(** The text that [writerow] adds to the file for each record in turn. *)
Definition written (rows : list (list string)) : string :=
  foldr (λ fields text, Csv.writerow fields +:+ text) "" rows.

(** ** The value of a table *)

(** What a table is worth: its column names and, row by row, the fields of
    the entry each row refers to. *)
Definition table_value (h : heap) (t : Table.t)
  : list string * list (option Entry.t) :=
  (Table.get_column_names t, (h !!.) <$> Table.get_entries t).

(** Every cell holds at most one value. *)
Definition single_valued (e : Entry.t) : Prop :=
  Forall (λ d : list string, length d ≤ 1) (Entry.cell_values e).

(** Every value is free of quotes and line breaks and within the reader's
    field size limit. *)
Definition plain_entry (e : Entry.t) : Prop :=
  Forall (Forall plain_field) (Entry.cell_values e).

(** One display string per column. *)
Definition display (e : Entry.t) : list string :=
  join ", " <$> Entry.cell_values e.

(** ** Specifications of computations *)

(** Started in a state satisfying [P], the computation either returns a
    result and a state that satisfy [Q], or raises in a state satisfying
    [E]. *)
Definition hoare {S A} (P : S → Prop) (m : M S A)
    (Q : A → S → Prop) (E : S → Prop) : Prop :=
  ∀ s, P s → match m s with
             | (Ok a, s') => Q a s'
             | (Raise _, s') => E s'
             end.

(** The store [h] still holds the entries of the earlier store [h0],
    untouched. *)
Definition keeps (h0 h : heap) : Prop :=
  length h0 ≤ length h ∧ ∀ r, r < length h0 → h !! r = h0 !! r.

(** The store [h] still holds an entry at every reference of the earlier
    store [h0], with the column count it had. *)
Definition grows (h0 h : heap) : Prop :=
  length h0 ≤ length h ∧
  ∀ r e, h0 !! r = Some e →
    ∃ e', h !! r = Some e' ∧ Entry.column_count e' = Entry.column_count e.

(** ** Written fields in general *)

(** A text without carriage return that the reader's field size limit
    admits; it may hold quote characters, delimiters and line feeds. *)
Definition savable_field (s : string) : Prop :=
  string_forall (λ c, c ≠ Csv.CR) s ∧
  (Z.of_nat (String.length s) ≤ Csv.field_limit)%Z.

(** Every value of the entry is such a text. *)
Definition savable_entry (e : Entry.t) : Prop :=
  Forall (Forall savable_field) (Entry.cell_values e).

(** Whether the writer puts the field between quotes. *)
Fixpoint has_special (s : string) : bool :=
  match s with
  | EmptyString => false
  | String c s' => Csv.special c || has_special s'
  end.

(** The field with every quote character doubled. *)
Fixpoint escaped (s : string) : string :=
  match s with
  | EmptyString => EmptyString
  | String c s' =>
      if decide (c = Csv.quotechar) then String c (String c (escaped s'))
      else String c (escaped s')
  end.

(** The state in which the reader finishes the characters of a written
    field. *)
Definition written_field_state (f : string) : Csv.ParserState :=
  if has_special f then Csv.QUOTE_IN_QUOTED_FIELD
  else match f with
       | EmptyString => Csv.START_FIELD
       | String _ _ => Csv.IN_FIELD
       end.

(** The text of written records as a file opened for reading delivers
    it: every line terminator has become a line feed. *)
Definition delivered (rows : list (list string)) : string :=
  foldr (λ fields text, record_text fields +:+ String Csv.LF text) "" rows.

(** * Properties *)

(** ** Sequence indexing *)

Section indexing.
Context {A : Type}.
Implicit Types (l : list A) (i : Z) (k : nat).

Lemma py_index_nonneg l i :
  (0 ≤ i < len l)%Z → py_index l i = Some (Z.to_nat i).
Proof.
  intros Hi. unfold py_index.
  destruct (Z.ltb_spec i 0); [lia|].
  destruct (Z.leb_spec 0 i), (Z.ltb_spec i (len l)); simpl; try lia; done.
Qed.

Lemma py_index_neg l i :
  (- len l ≤ i < 0)%Z → py_index l i = Some (Z.to_nat (len l + i)).
Proof.
  intros Hi. unfold py_index.
  destruct (Z.ltb_spec i 0); [|lia].
  destruct (Z.leb_spec 0 (i + len l)), (Z.ltb_spec (i + len l) (len l));
    simpl; try lia.
  by rewrite Z.add_comm.
Qed.

Lemma py_index_None l i :
  py_index l i = None ↔ (i < - len l ∨ len l ≤ i)%Z.
Proof.
  unfold py_index.
  destruct (Z.ltb_spec i 0).
  - destruct (Z.leb_spec 0 (i + len l)), (Z.ltb_spec (i + len l) (len l));
      simpl; split; intros; try done; lia.
  - destruct (Z.leb_spec 0 i), (Z.ltb_spec i (len l));
      simpl; split; intros; try done; lia.
Qed.

Lemma py_index_Some l i k :
  py_index l i = Some k →
  k < length l ∧
  ((0 ≤ i < len l)%Z ∧ k = Z.to_nat i ∨
   (- len l ≤ i < 0)%Z ∧ k = Z.to_nat (len l + i)).
Proof.
  unfold len. intros H.
  destruct (decide (0 ≤ i < len l)%Z) as [Hi|Hi].
  { rewrite py_index_nonneg in H by done. unfold len in *.
    simplify_eq. split; [lia|]. left. split; [lia|done]. }
  destruct (decide (- len l ≤ i < 0)%Z) as [Hj|Hj].
  { rewrite py_index_neg in H by done. unfold len in *.
    simplify_eq. split; [lia|]. right. split; [lia|done]. }
  assert (py_index l i = None) as Hn.
  { apply py_index_None. unfold len in *. lia. }
  congruence.
Qed.

Lemma py_index_is_Some l i k :
  py_index l i = Some k → is_Some (l !! k).
Proof. intros [? _]%py_index_Some. by apply lookup_lt_is_Some. Qed.

Lemma list_getitem_nonneg l i :
  (0 ≤ i < len l)%Z → ∃ x, l !! Z.to_nat i = Some x ∧ list_getitem l i = Ok x.
Proof.
  intros Hi. unfold list_getitem. rewrite py_index_nonneg by done. simpl.
  destruct (lookup_lt_is_Some_2 l (Z.to_nat i)) as [x Hx].
  { unfold len in Hi. lia. }
  exists x. by rewrite Hx.
Qed.

Lemma list_getitem_neg l i :
  (- len l ≤ i < 0)%Z →
  ∃ x, l !! Z.to_nat (len l + i) = Some x ∧ list_getitem l i = Ok x.
Proof.
  intros Hi. unfold list_getitem. rewrite py_index_neg by done. simpl.
  destruct (lookup_lt_is_Some_2 l (Z.to_nat (len l + i))) as [x Hx].
  { unfold len in *. lia. }
  exists x. by rewrite Hx.
Qed.

Lemma list_getitem_IndexError l i :
  list_getitem l i = Raise IndexError ↔ (i < - len l ∨ len l ≤ i)%Z.
Proof.
  rewrite <-py_index_None. unfold list_getitem.
  destruct (py_index l i) as [k|] eqn:Hk; simpl; [|done].
  destruct (py_index_is_Some _ _ _ Hk) as [x ->]. done.
Qed.

Lemma list_getitem_raises l i e :
  list_getitem l i = Raise e → e = IndexError.
Proof.
  unfold list_getitem. destruct (_ ≫= _); intros; by simplify_eq.
Qed.
End indexing.

(** ** In-place updates of a list *)

Section updates.
Context {A : Type}.
Implicit Types (l : list A) (k : nat).

Lemma insert_as_alter l k (f : A → A) x :
  l !! k = Some x → <[k := f x]> l = alter f k l.
Proof.
  revert k. induction l as [|y l IH]; intros [|k] H; simplify_eq/=; [done|].
  f_equal. by apply IH.
Qed.

Lemma alter_twice l k (f g : A → A) :
  alter f k (alter g k l) = alter (f ∘ g) k l.
Proof.
  revert k. induction l as [|y l IH]; intros [|k]; simpl; [done..|].
  f_equal. apply IH.
Qed.
End updates.

(** ** Entries: well-formedness and the cell invariant *)

Section entry_facts.
Implicit Types (e : Entry.t) (d : list string) (v : string) (c : Z).

Lemma dict_update_ok d v : v ≠ "" → cell_ok d → cell_ok (dict_update d v).
Proof.
  intros Hv [Hnd Hne]. unfold dict_update. case_decide; [done|].
  split.
  - apply NoDup_app. split_and!; [done| |apply NoDup_singleton].
    intros x Hx ->%list_elem_of_singleton. done.
  - rewrite elem_of_app, list_elem_of_singleton. intros [?|?]; [done|].
    by apply Hv.
Qed.

Lemma dict_update_idemp d v : dict_update (dict_update d v) v = dict_update d v.
Proof.
  unfold dict_update at 1. case_decide as H; [done|].
  exfalso. apply H. unfold dict_update. case_decide; [done|].
  apply elem_of_app. right. by apply list_elem_of_singleton.
Qed.

Lemma add_value_ok d v : cell_ok d → cell_ok (add_value d v).
Proof. unfold add_value. case_decide; [done|]. by apply dict_update_ok. Qed.

Lemma add_values_ok d vs : cell_ok d → cell_ok (add_values d vs).
Proof.
  unfold add_values. revert d.
  induction vs as [|v vs IH]; simpl; intros d Hd; [done|].
  apply IH. by apply add_value_ok.
Qed.

Lemma cell_ok_nil : cell_ok [].
Proof. split; [apply NoDup_nil_2|apply not_elem_of_nil]. Qed.

Lemma cell_ok_singleton v : v ≠ "" → cell_ok [v].
Proof.
  intros Hv. split; [apply NoDup_singleton|].
  intros H%list_elem_of_singleton. by apply Hv.
Qed.

(** Values already stored in order are absorbed unchanged. *)
Lemma add_values_app d vs :
  NoDup (d ++ vs) → "" ∉ vs → add_values d vs = d ++ vs.
Proof.
  unfold add_values. revert d.
  induction vs as [|v vs IH]; simpl; intros d Hnd Hne.
  { by rewrite app_nil_r. }
  apply not_elem_of_cons in Hne as [Hv Hne].
  unfold add_value at 2. rewrite decide_False by done.
  unfold dict_update. rewrite decide_False.
  - rewrite IH; [by rewrite <-app_assoc| by rewrite <-app_assoc |done].
  - apply NoDup_app in Hnd as (_ & Hd & _). intros Hin.
    apply (Hd _ Hin). by left.
Qed.

Lemma add_values_self d : cell_ok d → add_values [] d = d.
Proof. intros [??]. by apply add_values_app. Qed.

Lemma init_values_cells (values : list string) acc :
  foldl (λ cells column_value,
           if decide (column_value ≠ "")
           then cells ++ [[column_value]]
           else cells ++ [[]]) acc values
  = acc ++ ((λ v : string, if decide (v = "") then [] else [v]) <$> values).
Proof.
  revert acc. induction values as [|v vs IH]; simpl; intros acc.
  { by rewrite app_nil_r. }
  rewrite IH. destruct (decide (v = "")) as [->|Hv].
  - rewrite decide_False by (intros H; by apply H). by rewrite <-app_assoc.
  - rewrite decide_True by done. by rewrite <-app_assoc.
Qed.

Lemma init_Some_values (n : Z) (values : list string) :
  values ≠ [] →
  Entry.init n (Some values) = Entry.mk (len values) (seed_cells values).
Proof.
  intros Hne. unfold Entry.init.
  rewrite decide_False.
  - by rewrite init_values_cells.
  - unfold len. destruct values; [done|]. simpl. lia.
Qed.

Lemma seed_cells_replicate k :
  seed_cells (replicate k "") = replicate k [].
Proof.
  unfold seed_cells. by rewrite fmap_replicate.
Qed.

Lemma init_length (n : Z) (values : option (list string)) :
  values = None ∨ values = Some [] →
  Entry.init n values
  = Entry.mk (Z.max 0 n) (replicate (Z.to_nat n) []).
Proof.
  intros Hv. unfold Entry.init.
  assert (match values with
          | None => replicate (Z.to_nat n) ""
          | Some vs => if decide (len vs = 0%Z)
                       then replicate (Z.to_nat n) "" else vs
          end = replicate (Z.to_nat n) "") as ->.
  { by destruct Hv as [-> | ->]. }
  rewrite init_values_cells. simpl.
  fold (seed_cells (replicate (Z.to_nat n) "")).
  rewrite seed_cells_replicate. f_equal.
  unfold len. rewrite length_replicate. lia.
Qed.

Lemma seed_cells_ok values : Forall cell_ok (seed_cells values).
Proof.
  unfold seed_cells. apply Forall_fmap, Forall_true. intros v. simpl.
  case_decide; [apply cell_ok_nil|by apply cell_ok_singleton].
Qed.

Lemma init_inv n values : Entry_inv (Entry.init n values).
Proof.
  assert (Entry_inv (Entry.mk (Z.max 0 n) (replicate (Z.to_nat n) []))) as Hr.
  { split.
    - unfold Entry_wf, len. simpl. rewrite length_replicate. lia.
    - apply Forall_replicate, cell_ok_nil. }
  destruct values as [[|v vs]|].
  - by rewrite init_length by auto.
  - rewrite init_Some_values by done. split.
    + unfold Entry_wf, seed_cells, len. simpl. by rewrite length_fmap.
    + apply seed_cells_ok.
  - by rewrite init_length by auto.
Qed.

(** [with_cell] on an index in range rewrites exactly that cell. *)
Lemma with_cell_nonneg c f e :
  (0 ≤ c < len (Entry.cell_values e))%Z →
  Entry.with_cell c f e = (Ok tt, map_cell (Z.to_nat c) f e).
Proof.
  intros Hc. unfold Entry.with_cell, map_cell.
  rewrite py_index_nonneg by done.
  destruct (lookup_lt_is_Some_2 (Entry.cell_values e) (Z.to_nat c)) as [d Hd].
  { unfold len in Hc. lia. }
  rewrite Hd. do 2 f_equal. by apply insert_as_alter.
Qed.

Lemma with_cell_inv c f e :
  (∀ d, cell_ok d → cell_ok (f d)) →
  Entry_inv e → Entry_inv (Entry.with_cell c f e).2.
Proof.
  intros Hf [Hwf Hok]. unfold Entry.with_cell.
  destruct (py_index _ _) as [k|]; [|done].
  destruct (Entry.cell_values e !! k) as [d|] eqn:Hd; [|done].
  simpl. split.
  - unfold Entry_wf, len in *. simpl. by rewrite length_insert.
  - apply Forall_insert; [done|]. apply Hf.
    by eapply Forall_lookup_1.
Qed.

Lemma out_of_bounds_false e c :
  Entry.out_of_bounds e c = false ↔ (0 ≤ c < Entry.column_count e)%Z.
Proof.
  unfold Entry.out_of_bounds. rewrite bool_decide_eq_false. lia.
Qed.

Lemma out_of_bounds_true e c :
  Entry.out_of_bounds e c = true ↔ (c < 0 ∨ Entry.column_count e ≤ c)%Z.
Proof.
  unfold Entry.out_of_bounds. rewrite bool_decide_eq_true. lia.
Qed.

(** The effect of the two mutators on a stored entry, in one equation. *)
Lemma append_value_to_column_spec c v e :
  Entry_wf e → (0 ≤ c < Entry.column_count e)%Z →
  Entry.append_value_to_column c v e
  = (Ok tt, map_cell (Z.to_nat c) (λ d, add_value d v) e).
Proof.
  intros Hwf Hc. unfold Entry.append_value_to_column.
  rewrite (proj2 (out_of_bounds_false e c)) by done.
  unfold add_value. case_decide.
  - unfold map_cell. rewrite list_alter_id by done. by destruct e.
  - apply with_cell_nonneg. by rewrite <-Hwf.
Qed.

Lemma append_value_to_column_skip c v e :
  (c < 0 ∨ Entry.column_count e ≤ c)%Z ∨ v = "" →
  Entry.append_value_to_column c v e = (Ok tt, e).
Proof.
  intros H. unfold Entry.append_value_to_column.
  destruct (Entry.out_of_bounds e c) eqn:Hb; [done|].
  apply out_of_bounds_false in Hb.
  destruct H as [?| ->]; [lia|]. by rewrite decide_True.
Qed.

Lemma set_value_at_column_spec c v e :
  Entry_wf e → (0 ≤ c < Entry.column_count e)%Z → v ≠ "" →
  Entry.set_value_at_column c v e
  = (Ok tt, map_cell (Z.to_nat c) (λ _, [v]) e).
Proof.
  intros Hwf Hc Hv. unfold Entry.set_value_at_column.
  rewrite (proj2 (out_of_bounds_false e c)) by done.
  rewrite decide_False by done.
  unfold mbind, M_bind.
  rewrite with_cell_nonneg by (by rewrite <-Hwf).
  rewrite with_cell_nonneg.
  2:{ unfold map_cell, len. simpl. rewrite length_alter.
      unfold Entry_wf, len in Hwf. lia. }
  f_equal. unfold map_cell. simpl. f_equal.
  by rewrite alter_twice.
Qed.

Lemma set_value_at_column_skip c v e :
  (c < 0 ∨ Entry.column_count e ≤ c)%Z ∨ v = "" →
  Entry.set_value_at_column c v e = (Ok tt, e).
Proof.
  intros H. unfold Entry.set_value_at_column.
  destruct (Entry.out_of_bounds e c) eqn:Hb; [done|].
  apply out_of_bounds_false in Hb.
  destruct H as [?| ->]; [lia|]. by rewrite decide_True.
Qed.

Lemma append_value_to_column_inv c v e :
  Entry_inv e → Entry_inv (Entry.append_value_to_column c v e).2.
Proof.
  intros He. unfold Entry.append_value_to_column.
  destruct (Entry.out_of_bounds e c); [done|].
  case_decide; [done|].
  apply with_cell_inv; [|done]. intros d. by apply dict_update_ok.
Qed.

Lemma set_value_at_column_inv c v e :
  Entry_inv e → Entry_inv (Entry.set_value_at_column c v e).2.
Proof.
  intros He. unfold Entry.set_value_at_column.
  destruct (Entry.out_of_bounds e c); [done|].
  case_decide; [done|].
  unfold mbind, M_bind.
  pose proof (with_cell_inv c dict_clear e (λ _ _, cell_ok_nil) He) as H1.
  destruct (Entry.with_cell c dict_clear e) as [[[]|x] e1]; [|done].
  apply with_cell_inv; [|done]. intros d. by apply dict_update_ok.
Qed.

Lemma map_cell_wf k f e : Entry_wf e → Entry_wf (map_cell k f e).
Proof. unfold Entry_wf, map_cell, len. simpl. by rewrite length_alter. Qed.

Lemma get_values_from_column_nonneg c e d :
  (0 ≤ c)%Z → Entry.cell_values e !! Z.to_nat c = Some d →
  Entry.get_values_from_column c e = Ok d.
Proof.
  intros Hc Hd. unfold Entry.get_values_from_column.
  destruct (list_getitem_nonneg (Entry.cell_values e) c) as (x & Hx & ->).
  - apply lookup_lt_Some in Hd. unfold len. lia.
  - congruence.
Qed.
End entry_facts.

(** ** Tables: index-based and identity-based operations *)

Section table_facts.
Implicit Types (t : Table.t) (l : list ref) (index : Z) (entry : ref).

Lemma list_remove_elem l entry :
  entry ∈ l →
  ∃ before after,
    l = before ++ entry :: after ∧ (entry ∉ before) ∧
    list_remove Entry.eq l entry = Ok (before ++ after).
Proof.
  induction l as [|y l IH]; intros Hin.
  { by apply elem_of_nil in Hin. }
  simpl. unfold Entry.eq at 1. case_bool_decide as Hy.
  - subst y. exists [], l. split_and!; [done|apply not_elem_of_nil|done].
  - apply elem_of_cons in Hin as [?|Hin]; [congruence|].
    destruct (IH Hin) as (before & after & -> & Hnot & ->).
    exists (y :: before), after. split_and!; [done| |done].
    apply not_elem_of_cons. split; [congruence|done].
Qed.

Lemma list_remove_not_elem l entry :
  entry ∉ l → list_remove Entry.eq l entry = Raise ValueError.
Proof.
  induction l as [|y l IH]; intros Hnot; [done|].
  apply not_elem_of_cons in Hnot as [Hne Hnot].
  simpl. unfold Entry.eq at 1. rewrite bool_decide_eq_false_2 by congruence.
  by rewrite IH.
Qed.

Lemma list_insert_at_end {A} (l : list A) (i : Z) (x : A) :
  (len l ≤ i)%Z → list_insert_at l i x = l ++ [x].
Proof.
  intros Hi. unfold list_insert_at.
  destruct (Z.ltb_spec i 0); [unfold len in *; lia|].
  assert ((if (len l <? i)%Z then len l else i) = len l) as ->.
  { destruct (Z.ltb_spec (len l) i); lia. }
  unfold len. rewrite Nat2Z.id, firstn_all, drop_all. done.
Qed.

Lemma list_insert_at_nonneg {A} (l : list A) (i : Z) (x : A) :
  (0 ≤ i ≤ len l)%Z →
  list_insert_at l i x = take (Z.to_nat i) l ++ x :: drop (Z.to_nat i) l.
Proof.
  intros Hi. unfold list_insert_at.
  destruct (Z.ltb_spec i 0); [lia|].
  destruct (Z.ltb_spec (len l) i); [lia|done].
Qed.

Lemma list_insert_at_neg {A} (l : list A) (i : Z) (x : A) :
  (i < 0)%Z →
  list_insert_at l i x = list_insert_at l (Z.max 0 (len l + i)) x.
Proof.
  intros Hi. unfold list_insert_at.
  destruct (Z.ltb_spec i 0); [|lia].
  destruct (Z.ltb_spec (Z.max 0 (len l + i)) 0); [lia|].
  by rewrite (Z.add_comm i).
Qed.

Lemma list_pop_IndexError {A} (l : list A) (i : Z) :
  list_pop l i = Raise IndexError ↔ (i < - len l ∨ len l ≤ i)%Z.
Proof.
  rewrite <-py_index_None. unfold list_pop.
  destruct (py_index l i) as [k|] eqn:Hk; [|done].
  destruct (py_index_is_Some _ _ _ Hk) as [x ->]. done.
Qed.
End table_facts.

(** ** Entry.set_value_at_column, append_value_to_column and the bounds of
       column access *)

(** C6: on an entry, for a column index in range, [set_value_at_column]
    with a non-empty value makes [get_values_from_column] return exactly
    that value; with the empty string the entry, hence the column, is left
    as it was. *)
Theorem set_value_at_column_postcondition (e : Entry.t) (c : Z) (v : string) :
  Entry_wf e → (0 ≤ c < Entry.column_count e)%Z →
  (v ≠ "" →
   ∃ e', Entry.set_value_at_column c v e = (Ok tt, e') ∧
         Entry.get_values_from_column c e' = Ok [v]) ∧
  (v = "" → Entry.set_value_at_column c v e = (Ok tt, e)).
Proof.
  intros Hwf Hc. split.
  - intros Hv. eexists. split; [by apply set_value_at_column_spec|].
    apply get_values_from_column_nonneg; [lia|]. unfold map_cell. simpl.
    rewrite list_lookup_alter_eq.
    destruct (lookup_lt_is_Some_2 (Entry.cell_values e) (Z.to_nat c)) as [d ->].
    + unfold Entry_wf, len in Hwf. lia.
    + done.
  - intros Hv. apply set_value_at_column_skip. by right.
Qed.

Lemma set_value_at_column_postcondition_witness :
  let e := Entry.init 0 (Some ["a"; "b"]) in
  ∃ e', Entry.set_value_at_column 1 "z" e = (Ok tt, e') ∧
        Entry.get_values_from_column 1 e' = Ok ["z"].
Proof.
  apply (set_value_at_column_postcondition
           (Entry.init 0 (Some ["a"; "b"])) 1 "z");
    [reflexivity | by vm_compute | discriminate].
Defined.

(** C7: appending a non-empty value to a column in range twice leaves the
    entry exactly as appending it once does, order of values included. *)
Theorem append_value_to_column_idempotent (e : Entry.t) (c : Z) (v : string) :
  Entry_wf e → (0 ≤ c < Entry.column_count e)%Z → v ≠ "" →
  ∃ e1, Entry.append_value_to_column c v e = (Ok tt, e1) ∧
        Entry.append_value_to_column c v e1 = (Ok tt, e1) ∧
        ∃ d, Entry.get_values_from_column c e1 = Ok d ∧ v ∈ d.
Proof.
  intros Hwf Hc Hv.
  destruct (lookup_lt_is_Some_2 (Entry.cell_values e) (Z.to_nat c)) as [d Hd].
  { unfold Entry_wf, len in Hwf. lia. }
  eexists. split; [by apply append_value_to_column_spec|]. split.
  - rewrite append_value_to_column_spec; [|by apply map_cell_wf|done].
    f_equal. unfold map_cell. simpl. f_equal. rewrite alter_twice.
    apply list_alter_ext; [|done]. intros x _. simpl.
    unfold add_value. rewrite !decide_False by done. apply dict_update_idemp.
  - exists (add_value d v). split.
    + apply get_values_from_column_nonneg; [lia|]. unfold map_cell. simpl.
      by rewrite list_lookup_alter_eq, Hd.
    + unfold add_value, dict_update. rewrite decide_False by done.
      case_decide; [done|]. apply elem_of_app. right.
      by apply list_elem_of_singleton.
Qed.

Lemma append_value_to_column_idempotent_witness :
  let e := Entry.init 0 (Some ["a"; "b"]) in
  ∃ e1, Entry.append_value_to_column 0 "z" e = (Ok tt, e1) ∧
        Entry.append_value_to_column 0 "z" e1 = (Ok tt, e1) ∧
        ∃ d, Entry.get_values_from_column 0 e1 = Ok d ∧ "z" ∈ d.
Proof.
  apply (append_value_to_column_idempotent
           (Entry.init 0 (Some ["a"; "b"])) 0 "z");
    [reflexivity | by vm_compute | discriminate].
Defined.

(** C9: [get_values_from_column] has no guard of its own: with [n] columns
    an index in [-n, 0) reads column [n + i], and the call fails, with an
    index error, exactly when [i >= n] or [i < -n].  The guarded methods
    treat every negative index as out of range: the two mutators leave the
    entry as it is and [get_value_str_from_column] returns the empty
    string. *)
Theorem column_access_bounds_asymmetry (e : Entry.t) (i : Z) :
  Entry_wf e →
  let n := Entry.column_count e in
  ((- n ≤ i < 0)%Z →
   ∃ d, Entry.cell_values e !! Z.to_nat (n + i) = Some d ∧
        Entry.get_values_from_column i e = Ok d) ∧
  ((∃ err, Entry.get_values_from_column i e = Raise err) ↔ (n ≤ i ∨ i < - n)%Z) ∧
  (∀ err, Entry.get_values_from_column i e = Raise err → err = IndexError) ∧
  ((i < 0)%Z →
   ∀ v sep,
     Entry.append_value_to_column i v e = (Ok tt, e) ∧
     Entry.set_value_at_column i v e = (Ok tt, e) ∧
     Entry.get_value_str_from_column i sep e = Ok "").
Proof.
  intros Hwf n. subst n. unfold Entry.get_values_from_column.
  rewrite Hwf. split_and!.
  - intros Hi. by apply list_getitem_neg.
  - split.
    + intros [err Herr]. pose proof (list_getitem_raises _ _ _ Herr) as ->.
      apply list_getitem_IndexError in Herr. lia.
    + intros Hi. exists IndexError. apply list_getitem_IndexError. lia.
  - intros err. apply list_getitem_raises.
  - intros Hi v sep. split_and!.
    + apply append_value_to_column_skip. left. lia.
    + apply set_value_at_column_skip. left. lia.
    + unfold Entry.get_value_str_from_column.
      rewrite (proj2 (out_of_bounds_true e i)) by lia. done.
Qed.

Lemma column_access_bounds_asymmetry_witness :
  let e := Entry.init 0 (Some ["a"; "b"; "c"]) in
  Entry.get_values_from_column (-1) e = Ok ["c"] ∧
  Entry.get_values_from_column (-4) e = Raise IndexError ∧
  Entry.get_values_from_column 3 e = Raise IndexError ∧
  Entry.append_value_to_column (-1) "z" e = (Ok tt, e) ∧
  Entry.set_value_at_column (-1) "z" e = (Ok tt, e) ∧
  Entry.get_value_str_from_column (-1) ", " e = Ok "".
Proof.
  pose proof (column_access_bounds_asymmetry
                (Entry.init 0 (Some ["a"; "b"; "c"])) (-1) eq_refl)
    as (H1 & _ & _ & H4).
  destruct (H4 ltac:(lia) "z" ", ") as (Ha & Hs & Hg).
  destruct (H1 ltac:(by vm_compute)) as (d & Hd & Hget).
  simpl in Hd. injection Hd as <-.
  split_and!; [exact Hget|reflexivity|reflexivity|exact Ha|exact Hs|exact Hg].
Defined.

(** ** Table.get_entry, pop_entry, insert_entry and remove_entry *)

(** C5, as stated, fails: on a table of one row, index [-1] is outside
    [0, 1) and yet [get_entry] and [pop_entry] return the row; and
    [insert_entry] accepts index [5], far past the end. *)
Lemma table_strict_bounds_counterexample :
  let t := Table.mk (Header.mk ["Name"]) [0] in
  ¬ (0 ≤ -1 < Table.get_entry_count t)%Z ∧
  Table.get_entry (-1) t = Ok 0 ∧
  Table.pop_entry (-1) t = (Ok 0, Table.mk (Header.mk ["Name"]) []) ∧
  ¬ (0 ≤ 5 ≤ Table.get_entry_count t)%Z ∧
  Table.insert_entry 5 7 t = (Ok tt, Table.mk (Header.mk ["Name"]) [0; 7]).
Proof. vm_compute. split_and!; (reflexivity || intros [? ?]; done). Qed.

(** C5, amended: with [n] rows, [get_entry] fails, with an index error,
    exactly when [index < -n] or [index >= n], and an index in [-n, 0)
    names row [n + index].  For an index that fits the machine word of
    [list.pop] and [list.insert], the same holds of [pop_entry], and a
    failing [pop_entry] leaves the table as it was; [insert_entry] does
    not fail: an index in [0, n] inserts at that position, any index from
    [n] on appends, and a negative index counts from the end, stopping at
    the first position. *)
Theorem table_index_bounds (t : Table.t) (index : Z) (entry : ref) :
  let n := Table.get_entry_count t in
  (Table.get_entry index t = Raise IndexError ↔ (index < - n ∨ n ≤ index)%Z) ∧
  ((0 ≤ index < n)%Z →
   ∃ r, Table.entries t !! Z.to_nat index = Some r ∧
        Table.get_entry index t = Ok r) ∧
  ((- n ≤ index < 0)%Z →
   Table.get_entry index t = Table.get_entry (n + index) t) ∧
  (fits_ssize_t index →
   ((Table.pop_entry index t).1 = Raise IndexError
    ↔ (index < - n ∨ n ≤ index)%Z) ∧
   ((index < - n ∨ n ≤ index)%Z →
    Table.pop_entry index t = (Raise IndexError, t)) ∧
   ((0 ≤ index < n)%Z →
    ∃ r, Table.get_entry index t = Ok r ∧
         Table.pop_entry index t
         = (Ok r, Table.mk (Table.header t)
                           (delete (Z.to_nat index) (Table.entries t)))) ∧
   ((- n ≤ index < 0)%Z →
    Table.pop_entry index t = Table.pop_entry (n + index) t) ∧
   (Table.insert_entry index entry t).1 = Ok tt ∧
   ((0 ≤ index ≤ n)%Z →
    Table.insert_entry index entry t
    = (Ok tt, Table.mk (Table.header t)
                       (take (Z.to_nat index) (Table.entries t)
                        ++ entry :: drop (Z.to_nat index) (Table.entries t)))) ∧
   ((n ≤ index)%Z →
    Table.insert_entry index entry t = Table.append_entry entry t) ∧
   ((index < 0)%Z →
    Table.insert_entry index entry t
    = Table.insert_entry (Z.max 0 (n + index)) entry t)).
Proof.
  intros n. subst n. unfold Table.get_entry_count, Table.get_entry,
    Table.pop_entry, Table.insert_entry, Table.append_entry.
  set (l := Table.entries t).
  assert (∀ i k, py_index l i = Some k →
            ∃ r, l !! k = Some r ∧ list_getitem l i = Ok r ∧
                 list_pop l i = Ok (r, delete k l)) as Hidx.
  { intros i k Hk. destruct (py_index_is_Some _ _ _ Hk) as [r Hr].
    exists r. unfold list_getitem, list_pop. rewrite Hk. simpl.
    by rewrite Hr. }
  assert ((- len l ≤ index < 0)%Z →
          list_getitem l index = list_getitem l (len l + index) ∧
          list_pop l index = list_pop l (len l + index)) as Hneg.
  { intros Hi.
    pose proof (py_index_neg l index Hi) as H1.
    assert (0 ≤ len l + index < len l)%Z as Hj by lia.
    pose proof (py_index_nonneg l _ Hj) as H2.
    destruct (Hidx _ _ H1) as (r & Hr & -> & ->).
    destruct (Hidx _ _ H2) as (r' & Hr' & -> & ->).
    simplify_eq. done. }
  split_and!.
  - apply list_getitem_IndexError.
  - intros Hi.
    destruct (Hidx index _ (py_index_nonneg l index Hi)) as (r & Hr & -> & _).
    eauto.
  - intros Hi. by destruct (Hneg Hi) as [-> _].
  - intros _. split_and!.
    + rewrite <-list_pop_IndexError.
      destruct (list_pop l index) as [[r rest]|err]; simpl; [done|].
      split; congruence.
    + intros Hi%list_pop_IndexError. by rewrite Hi.
    + intros Hi.
      destruct (Hidx index _ (py_index_nonneg l index Hi))
        as (r & Hr & -> & ->).
      eauto.
    + intros Hi. by destruct (Hneg Hi) as [_ ->].
    + done.
    + intros Hi. by rewrite list_insert_at_nonneg.
    + intros Hi. by rewrite list_insert_at_end.
    + intros Hi. by rewrite list_insert_at_neg.
Qed.

Lemma table_index_bounds_witness :
  let t := Table.mk (Header.mk ["Name"]) [4; 5; 6] in
  Table.get_entry 3 t = Raise IndexError ∧
  Table.get_entry (-3) t = Table.get_entry 0 t ∧
  Table.pop_entry (-1) t = Table.pop_entry 2 t ∧
  Table.insert_entry 3 9 t = Table.append_entry 9 t ∧
  Table.insert_entry (-7) 9 t = Table.insert_entry 0 9 t.
Proof.
  pose proof (table_index_bounds (Table.mk (Header.mk ["Name"]) [4; 5; 6])) as H.
  split_and!.
  - destruct (H 3%Z 0) as (Hget & _). apply Hget. right. by vm_compute.
  - destruct (H (-3)%Z 0) as (_ & _ & Hneg & _).
    apply (Hneg ltac:(by vm_compute)).
  - destruct (H (-1)%Z 0) as (_ & _ & _ & Hfits).
    destruct (Hfits ltac:(by vm_compute)) as (_ & _ & _ & Hneg & _).
    apply (Hneg ltac:(by vm_compute)).
  - destruct (H 3%Z 9) as (_ & _ & _ & Hfits).
    destruct (Hfits ltac:(by vm_compute))
      as (_ & _ & _ & _ & _ & _ & Happ & _).
    apply Happ. by vm_compute.
  - destruct (H (-7)%Z 9) as (_ & _ & _ & Hfits).
    destruct (Hfits ltac:(by vm_compute))
      as (_ & _ & _ & _ & _ & _ & _ & Hins).
    apply (Hins ltac:(by vm_compute)).
Defined.

(** C4, as stated, fails: two entries built from the same values are equal
    by value, the table holds the first, and [remove_entry] called with the
    second finds nothing to remove. *)
Lemma remove_entry_by_value_counterexample :
  let '(_, h) := (Entry.new 0 (Some ["Alice"]) ;;
                  Entry.new 0 (Some ["Alice"])) ([] : heap) in
  let t := Table.mk (Header.mk ["Name"]) [0] in
  h !! 0 = h !! 1 ∧ is_Some (h !! 1) ∧
  Table.remove_entry 1 t = (Raise ValueError, t).
Proof. vm_compute. split_and!; [reflexivity|by eexists|reflexivity]. Qed.

(** C4, amended: [remove_entry] removes the first occurrence of the very
    object it is given, rows being compared by identity, and returns it;
    when that object is not a row of the table it fails with the not-found
    error and the table, hence its entry count, is unchanged. *)
Theorem remove_entry_by_identity (t : Table.t) (entry : ref) :
  (entry ∈ Table.entries t →
   ∃ before after,
     Table.entries t = before ++ entry :: after ∧ (entry ∉ before) ∧
     Table.remove_entry entry t
     = (Ok entry, Table.mk (Table.header t) (before ++ after))) ∧
  (entry ∉ Table.entries t →
   Table.remove_entry entry t = (Raise ValueError, t)).
Proof.
  unfold Table.remove_entry. split.
  - intros Hin.
    destruct (list_remove_elem _ _ Hin) as (before & after & Hl & Hnot & ->).
    by exists before, after.
  - intros Hnot. by rewrite list_remove_not_elem.
Qed.

Lemma remove_entry_by_identity_witness :
  let t := Table.mk (Header.mk ["Name"]) [3; 1; 2; 1] in
  (∃ before after,
     Table.entries t = before ++ 1 :: after ∧ (1 ∉ before) ∧
     Table.remove_entry 1 t
     = (Ok 1, Table.mk (Table.header t) (before ++ after))) ∧
  Table.remove_entry 7 t = (Raise ValueError, t) ∧
  Table.get_entry_count (Table.remove_entry 7 t).2 = Table.get_entry_count t.
Proof.
  pose proof (remove_entry_by_identity
                (Table.mk (Header.mk ["Name"]) [3; 1; 2; 1])) as H.
  split_and!.
  - apply (H 1). simpl. apply elem_of_cons. right. by left.
  - apply (H 7). simpl. intros Hin. repeat (apply elem_of_cons in Hin as [Hin|Hin]; [discriminate|]). by apply elem_of_nil in Hin.
  - reflexivity.
Defined.

(** ** Computations on the store *)

Section monad_facts.
Context {S : Type}.

Lemma bind_Ok {A B} (m : M S A) (f : A → M S B) s a s' :
  m s = (Ok a, s') → (m ≫= f) s = f a s'.
Proof. unfold mbind, M_bind. by intros ->. Qed.

Lemma bind_Raise {A B} (m : M S A) (f : A → M S B) s e s' :
  m s = (Raise e, s') → (m ≫= f) s = (Raise e, s').
Proof. unfold mbind, M_bind. by intros ->. Qed.

Lemma for_each_fmap {A B} (g : A → B) (xs : list A) (body : B → M S unit) :
  for_each (g <$> xs) body = for_each xs (body ∘ g).
Proof. induction xs as [|x xs IH]; csimpl; [done|]. by rewrite IH. Qed.

Lemma for_each_ext {A} (xs : list A) (body body' : A → M S unit) s :
  (∀ x s', x ∈ xs → body x s' = body' x s') →
  for_each xs body s = for_each xs body' s.
Proof.
  revert s. induction xs as [|x xs IH]; intros s H; simpl; [done|].
  unfold mbind, M_bind. rewrite H by (by left).
  destruct (body' x s) as [[[]|err] s1]; [|done].
  apply IH. intros y s' Hy. apply H. by right.
Qed.

Lemma preserves_ret {A} (P : S → Prop) (a : A) : preserves P (mret a).
Proof. by intros s. Qed.

Lemma preserves_raise {A} (P : S → Prop) e : preserves P (raise (A:=A) e).
Proof. by intros s. Qed.

Lemma preserves_reads {A} (P : S → Prop) (f : S → outcome A) :
  preserves P (reads f).
Proof. by intros s. Qed.

Lemma preserves_bind {A B} (P : S → Prop) (m : M S A) (f : A → M S B) :
  preserves P m → (∀ a, preserves P (f a)) → preserves P (m ≫= f).
Proof.
  intros Hm Hf s Hs. unfold mbind, M_bind. specialize (Hm s Hs).
  destruct (m s) as [[a|err] s1]; simpl in *; [by apply Hf|done].
Qed.

Lemma preserves_for_each {A} (P : S → Prop) (xs : list A) body :
  (∀ x, preserves P (body x)) → preserves P (for_each xs body).
Proof.
  intros Hb. induction xs as [|x xs IH]; simpl.
  - apply preserves_ret.
  - apply preserves_bind; [apply Hb|]. intros _. apply IH.
Qed.

Lemma preserves_mapM {A B} (P : S → Prop) (f : A → M S B) (xs : list A) :
  (∀ x, preserves P (f x)) → preserves P (mapM f xs).
Proof.
  intros Hf. induction xs as [|x xs IH]; simpl.
  - apply preserves_ret.
  - apply preserves_bind; [apply Hf|]. intros y.
    apply preserves_bind; [apply IH|]. intros ys. apply preserves_ret.
Qed.
End monad_facts.

Section store_facts.
Context {O : Type}.
Implicit Types (h : list O) (r : ref) (o : O).

Lemma call_run {A} h r o (m : M O A) :
  h !! r = Some o → call r m h = ((m o).1, <[r := (m o).2]> h).
Proof. unfold call. intros ->. by destruct (m o). Qed.

Lemma call_reads {A} h r o (f : O → outcome A) :
  h !! r = Some o → call r (reads f) h = (f o, h).
Proof.
  intros Hr. rewrite (call_run _ _ _ _ Hr). unfold reads. simpl.
  by rewrite list_insert_id.
Qed.

Lemma call_invalid {A} h r (m : M O A) :
  h !! r = None → call r m h = (Raise InvalidRef, h).
Proof. unfold call. by intros ->. Qed.

Lemma preserves_call {A} (P : O → Prop) r (m : M O A) :
  preserves P m → preserves (Forall P) (call r m).
Proof.
  intros Hm h Hh. unfold call.
  destruct (h !! r) as [o|] eqn:Hr; [|done].
  specialize (Hm o (Forall_lookup_1 _ _ _ _ Hh Hr)).
  destruct (m o) as [res o']. simpl in *. by apply Forall_insert.
Qed.

Lemma preserves_alloc (P : O → Prop) o :
  P o → preserves (Forall P) (alloc o).
Proof.
  intros Ho h Hh. unfold alloc. simpl. apply Forall_app. split; [done|].
  by apply Forall_singleton.
Qed.
End store_facts.

(** ** Copying and merging entries in the store *)

Section copy_facts.
Implicit Types (h : heap) (r src : ref) (e o : Entry.t).

Lemma map_cell_map_cell k f g e :
  map_cell k f (map_cell k g e) = map_cell k (f ∘ g) e.
Proof. unfold map_cell. simpl. by rewrite alter_twice. Qed.

Lemma map_cell_id k f e : (∀ d, f d = d) → map_cell k f e = e.
Proof.
  intros Hf. unfold map_cell. rewrite list_alter_id by done. by destruct e.
Qed.

Lemma absorb_range_wf a n o e : Entry_wf e → Entry_wf (absorb_range a n o e).
Proof. unfold Entry_wf, absorb_range, len. simpl. by rewrite length_imap. Qed.

Lemma absorb_range_length a n o e :
  length (Entry.cell_values (absorb_range a n o e))
  = length (Entry.cell_values e).
Proof. unfold absorb_range. simpl. by rewrite length_imap. Qed.

Lemma absorb_range_0 a o e : absorb_range a 0 o e = e.
Proof.
  unfold absorb_range. destruct e as [n cells]. simpl. f_equal.
  apply list_eq. intros i. rewrite list_lookup_imap.
  destruct (cells !! i); simpl; [|done].
  by rewrite decide_False by lia.
Qed.

Lemma absorb_range_step a n o e :
  absorb_range (S a) n o
    (map_cell a (λ d, add_values d (default [] (Entry.cell_values o !! a))) e)
  = absorb_range a (S n) o e.
Proof.
  unfold absorb_range, map_cell. simpl. f_equal.
  apply list_eq. intros i. rewrite !list_lookup_imap, list_lookup_alter.
  destruct (decide (a = i)) as [<-|Hne].
  - destruct (Entry.cell_values e !! a); simpl; [|done].
    repeat case_decide; try done; lia.
  - destruct (Entry.cell_values e !! i); simpl; [|done].
    repeat case_decide; try done; lia.
Qed.

(** The innermost loop: every value of a column appended to one column of
    the object at [r]. *)
Lemma append_values_loop h r e (k : nat) vs :
  h !! r = Some e → Entry_wf e → k < length (Entry.cell_values e) →
  for_each vs (λ value,
    call r (Entry.append_value_to_column (Z.of_nat k) value)) h
  = (Ok tt, <[r := map_cell k (λ d, add_values d vs) e]> h).
Proof.
  revert h e. induction vs as [|v vs IH]; intros h e Hr Hwf Hk; simpl.
  - rewrite map_cell_id by done. by rewrite list_insert_id.
  - assert (0 ≤ Z.of_nat k < Entry.column_count e)%Z as Hc.
    { rewrite Hwf. unfold len. lia. }
    erewrite bind_Ok; last first.
    { rewrite (call_run _ _ _ _ Hr).
      rewrite append_value_to_column_spec by done. simpl. done. }
    rewrite Nat2Z.id.
    rewrite (IH _ (map_cell k (λ d, add_value d v) e)).
    + rewrite list_insert_insert_eq, map_cell_map_cell. done.
    + apply list_lookup_insert_eq. by eapply lookup_lt_Some.
    + by apply map_cell_wf.
    + unfold map_cell. simpl. by rewrite length_alter.
Qed.

(** The loop over columns: the object at [r] absorbs the columns of the
    object at [src], which is another object. *)
Lemma column_loop h src r o e (a n : nat) :
  src ≠ r → h !! src = Some o → h !! r = Some e → Entry_wf e →
  a + n ≤ length (Entry.cell_values o) →
  a + n ≤ length (Entry.cell_values e) →
  for_each (Z.of_nat <$> seq a n) (λ column_index,
    column_values ←
      call src (reads (Entry.get_values_from_column column_index));
    for_each column_values (λ value,
      call r (Entry.append_value_to_column column_index value))) h
  = (Ok tt, <[r := absorb_range a n o e]> h).
Proof.
  intros Hne. revert a h e.
  induction n as [|n IH]; intros a h e Hsrc Hr Hwf Ho He; csimpl.
  - rewrite absorb_range_0. by rewrite list_insert_id.
  - destruct (lookup_lt_is_Some_2 (Entry.cell_values o) a) as [d Hd]; [lia|].
    erewrite bind_Ok; last first.
    { erewrite bind_Ok; last first.
      { rewrite (call_reads _ _ _ _ Hsrc).
        erewrite get_values_from_column_nonneg; [done|lia|].
        by rewrite Nat2Z.id. }
      apply (append_values_loop h r e a d Hr Hwf). lia. }
    rewrite (IH (S a) _ (map_cell a (λ d', add_values d' d) e)).
    + rewrite list_insert_insert_eq. do 2 f_equal.
      rewrite <-absorb_range_step. by rewrite Hd.
    + by rewrite list_lookup_insert_ne.
    + apply list_lookup_insert_eq. by eapply lookup_lt_Some.
    + by apply map_cell_wf.
    + lia.
    + unfold map_cell. simpl. rewrite length_alter. lia.
Qed.

Lemma range_seq (n : Z) : range n = Z.of_nat <$> seq 0 (Z.to_nat n).
Proof.
  unfold range, seqZ. apply list_fmap_ext. intros _ i _. lia.
Qed.

Lemma get_deep_copy_run h self o :
  h !! self = Some o → Entry_wf o →
  Entry.get_deep_copy self h = (Ok (length h), h ++ [copy_of o]).
Proof.
  intros Hself Hwf. unfold Entry.get_deep_copy.
  erewrite bind_Ok; last by rewrite (call_reads _ _ _ _ Hself).
  erewrite bind_Ok; last done.
  erewrite bind_Ok; last first.
  { rewrite (call_reads _ _ o); [done|]. by apply lookup_app_l_Some. }
  assert (Entry_wf (Entry.init (Entry.column_count o) (Some []))) as Hwf0
    by apply init_inv.
  assert (length (Entry.cell_values
                    (Entry.init (Entry.column_count o) (Some [])))
          = length (Entry.cell_values o)) as Hlen.
  { rewrite init_length by auto. simpl. rewrite length_replicate, Hwf.
    unfold len. lia. }
  erewrite bind_Ok; last first.
  { rewrite range_seq.
    apply column_loop
      with (o := o) (e := Entry.init (Entry.column_count o) (Some [])).
    - apply lookup_lt_Some in Hself. lia.
    - by apply lookup_app_l_Some.
    - by rewrite lookup_app_r, Nat.sub_diag by done.
    - done.
    - rewrite Hwf. unfold len. lia.
    - rewrite Hlen, Hwf. unfold len. lia. }
  unfold mret, M_ret. f_equal.
  rewrite Hwf. unfold len. rewrite Nat2Z.id.
  rewrite insert_app_r_alt, Nat.sub_diag by done. simpl.
  unfold copy_of. by rewrite Hwf.
Qed.

Lemma copy_of_inv o : Entry_inv o → copy_of o = o.
Proof.
  intros [Hwf Hok]. unfold copy_of. rewrite init_length by auto.
  unfold absorb_range. destruct o as [n cells]. simpl in *.
  unfold Entry_wf in Hwf. simpl in Hwf. subst n. f_equal.
  { unfold len. lia. }
  apply list_eq. intros i. rewrite list_lookup_imap.
  unfold len. rewrite Nat2Z.id.
  destruct (cells !! i) as [d|] eqn:Hd.
  - rewrite lookup_replicate_2 by (by eapply lookup_lt_Some). simpl.
    rewrite decide_True by (apply lookup_lt_Some in Hd; lia).
    rewrite add_values_self; [done|]. by eapply Forall_lookup_1.
  - rewrite (proj1 (lookup_replicate_None _ _ _)); [done|].
    by apply lookup_ge_None.
Qed.

Lemma merge_of_wf o os : Entry_wf o → Entry_wf (merge_of o os).
Proof.
  intros Hwf. unfold merge_of.
  assert (Entry_wf (copy_of o)) as He.
  { unfold copy_of. apply absorb_range_wf, init_inv. }
  revert He. generalize (copy_of o).
  induction os as [|o' os IH]; intros e He; simpl; [done|].
  apply IH. by apply absorb_range_wf.
Qed.

Lemma copy_of_length o :
  Entry_wf o →
  length (Entry.cell_values (copy_of o)) = length (Entry.cell_values o).
Proof.
  intros Hwf. unfold copy_of. rewrite absorb_range_length.
  rewrite init_length by auto. simpl. rewrite length_replicate, Hwf.
  unfold len. lia.
Qed.

(** The loop of [merge_entries] over the other entries. *)
Lemma merge_loop h self merged o e others os :
  self ≠ merged → h !! self = Some o → h !! merged = Some e → Entry_wf e →
  length (Entry.cell_values e) = length (Entry.cell_values o) → Entry_wf o →
  Forall2 (λ r o', r ≠ merged ∧ h !! r = Some o' ∧ Entry_wf o') others os →
  for_each others (λ entry,
    n_self ← call self (reads (λ o, Ok (Entry.column_count o)));
    n_entry ← call entry (reads (λ o, Ok (Entry.column_count o)));
    for_each (range (Z.min n_self n_entry)) (λ column_index,
      column_values ←
        call entry (reads (Entry.get_values_from_column column_index));
      for_each column_values (λ value,
        call merged (Entry.append_value_to_column column_index value)))) h
  = (Ok tt,
     <[merged :=
         foldl (λ e o',
                  absorb_range 0
                    (Z.to_nat (Z.min (Entry.column_count o)
                                     (Entry.column_count o')))
                    o' e) e os]> h).
Proof.
  intros Hne Hself Hmerged Hwf Hlen Hwfo Hothers.
  revert os h e Hself Hmerged Hwf Hlen Hothers.
  induction others as [|entry others IH];
    intros os h e Hself Hmerged Hwf Hlen Hothers.
  { apply Forall2_nil_inv_l in Hothers as ->. simpl.
    by rewrite list_insert_id. }
  apply Forall2_cons_inv_l in Hothers
    as (o' & os' & (Hr & Hentry & Hwf') & Hrest & ->).
  simpl.
  erewrite bind_Ok; last first.
  { erewrite bind_Ok; last by rewrite (call_reads _ _ _ _ Hself).
    erewrite bind_Ok; last by rewrite (call_reads _ _ _ _ Hentry).
    rewrite range_seq. apply column_loop with (o := o') (e := e); try done.
    - rewrite Hwf'. unfold len. lia.
    - rewrite Hlen, Hwfo. unfold len. lia. }
  set (e1 := absorb_range 0 _ o' e).
  rewrite (IH os' (<[merged := e1]> h) e1).
  - by rewrite list_insert_insert_eq.
  - by rewrite list_lookup_insert_ne.
  - apply list_lookup_insert_eq. by eapply lookup_lt_Some.
  - by apply absorb_range_wf.
  - unfold e1. by rewrite absorb_range_length.
  - eapply Forall2_impl; [done|]. intros r o'' (? & ? & ?).
    split_and!; [done| |done]. by rewrite list_lookup_insert_ne.
Qed.

Lemma merge_entries_run h self o others os :
  h !! self = Some o → Entry_wf o →
  Forall2 (λ r o', h !! r = Some o' ∧ Entry_wf o') others os →
  Entry.merge_entries self (Some others) h
  = (Ok (length h), h ++ [merge_of o os]).
Proof.
  intros Hself Hwf Hothers. unfold Entry.merge_entries.
  erewrite bind_Ok; last by apply get_deep_copy_run.
  destruct (decide (len others = 0%Z)) as [Hz|Hnz].
  { destruct others; [|done]. apply Forall2_nil_inv_l in Hothers as ->.
    done. }
  erewrite bind_Ok; last first.
  { apply merge_loop with (o := o) (e := copy_of o) (os := os).
    - apply lookup_lt_Some in Hself. lia.
    - by apply lookup_app_l_Some.
    - by rewrite lookup_app_r, Nat.sub_diag by done.
    - unfold copy_of. apply absorb_range_wf, init_inv.
    - by apply copy_of_length.
    - done.
    - eapply Forall2_impl; [done|]. intros r o' [Hr ?].
      split_and!; [|by apply lookup_app_l_Some|done].
      apply lookup_lt_Some in Hr. lia. }
  unfold mret, M_ret. f_equal.
  by rewrite insert_app_r_alt, Nat.sub_diag by done.
Qed.
End copy_facts.

(** ** Entry.merge_entries against its contract *)

Lemma bind_mret {S A} (m : M S A) (s : S) : (m ≫= mret) s = m s.
Proof. unfold mbind, M_bind. by destruct (m s) as [[a|err] s']. Qed.

Section merge_facts.
Implicit Types (e o : Entry.t) (os : list Entry.t).

Lemma spec_append_value_add d v : spec_append_value d v = add_value d v.
Proof.
  unfold spec_append_value, add_value, dict_update.
  destruct (decide (v = "")), (decide (v ∈ d)).
  all: (rewrite decide_True by tauto) || (rewrite decide_False by tauto).
  all: done.
Qed.

Lemma spec_append_values_add d vs :
  foldl spec_append_value d vs = add_values d vs.
Proof.
  unfold add_values. revert d. induction vs as [|v vs IH]; intros d; simpl.
  - done.
  - by rewrite spec_append_value_add, IH.
Qed.

Lemma absorbed_cells_lookup o e os (i : nat) :
  Entry.cell_values
    (foldl (λ e o',
              absorb_range 0
                (Z.to_nat (Z.min (Entry.column_count o)
                                 (Entry.column_count o')))
                o' e) e os) !! i
  = (λ d, foldl (λ column other,
                   if decide (Z.of_nat i
                              < Z.min (Entry.column_count o)
                                      (Entry.column_count other))%Z
                   then foldl spec_append_value column
                              (default [] (Entry.cell_values other !! i))
                   else column) d os) <$> Entry.cell_values e !! i.
Proof.
  revert e. induction os as [|o' os IH]; intros e; simpl.
  { by destruct (_ !! i). }
  rewrite IH. unfold absorb_range at 1. simpl. rewrite list_lookup_imap.
  destruct (Entry.cell_values e !! i) as [d|]; simpl; [|done].
  f_equal. rewrite spec_append_values_add.
  repeat case_decide; try done; lia.
Qed.

Lemma absorbed_column_count o e os :
  Entry.column_count
    (foldl (λ e o',
              absorb_range 0
                (Z.to_nat (Z.min (Entry.column_count o)
                                 (Entry.column_count o')))
                o' e) e os)
  = Entry.column_count e.
Proof. revert e. induction os as [|o' os IH]; intros e; simpl; [done|]. by rewrite IH. Qed.

Lemma merge_of_spec o os : Entry_inv o → merge_of o os = spec_mergeWith o os.
Proof.
  intros Hinv. pose proof Hinv as [Hwf _].
  unfold merge_of. rewrite copy_of_inv by done.
  set (m := foldl _ o os).
  assert (Entry.column_count m = Entry.column_count o) as Hcc
    by apply absorbed_column_count.
  assert (Entry.cell_values m
          = spec_merged_column o os
              <$> seq 0 (Z.to_nat (Entry.column_count o))) as Hcells.
  { apply list_eq. intros i. unfold m. rewrite absorbed_cells_lookup.
    rewrite list_lookup_fmap.
    replace (Z.to_nat (Entry.column_count o))
      with (length (Entry.cell_values o)) by (rewrite Hwf; unfold len; lia).
    destruct (Entry.cell_values o !! i) as [d|] eqn:Hd; simpl.
    - rewrite lookup_seq_lt by (by eapply lookup_lt_Some). simpl.
      unfold spec_merged_column. by rewrite Hd.
    - rewrite lookup_seq_ge; [done|]. by apply lookup_ge_None. }
  unfold spec_mergeWith. rewrite <-Hcells, <-Hcc. by destruct m.
Qed.

Lemma spec_merged_column_untouched o os (c : nat) :
  Forall (λ o', Entry.column_count o' ≤ Z.of_nat c)%Z os →
  spec_merged_column o os c = default [] (Entry.cell_values o !! c).
Proof.
  intros Hos. unfold spec_merged_column.
  generalize (default [] (Entry.cell_values o !! c)).
  induction Hos as [|o' os Ho' _ IH]; intros d; simpl; [done|].
  rewrite decide_False by lia. apply IH.
Qed.
End merge_facts.

(** C2: [merge_entries] returns a new entry, leaving every stored entry as
    it was.  The new entry is the one the contract describes: it has the
    column count of [self], and its column [c] is the column of [self] to
    which each other entry wide enough to have a column [c] has appended
    its values in order; a column no other entry reaches is the column of
    [self].  With no other entries the result is the deep copy of
    [self]. *)
Theorem merge_entries_contract
    (h : heap) (self : ref) (others : list ref)
    (o : Entry.t) (os : list Entry.t) :
  h !! self = Some o → Entry_inv o →
  Forall2 (λ r o', h !! r = Some o' ∧ Entry_wf o') others os →
  let merged := spec_mergeWith o os in
  Entry.merge_entries self (Some others) h = (Ok (length h), h ++ [merged]) ∧
  Entry.column_count merged = Entry.column_count o ∧
  (∀ c : Z, (0 ≤ c < Entry.column_count o)%Z →
     Entry.get_values_from_column c merged
     = Ok (spec_merged_column o os (Z.to_nat c))) ∧
  (∀ c : Z, (0 ≤ c < Entry.column_count o)%Z →
     Forall (λ o', Entry.column_count o' ≤ c)%Z os →
     Entry.get_values_from_column c merged
     = Entry.get_values_from_column c o) ∧
  (others = [] →
     merged = o ∧
     Entry.merge_entries self (Some others) h = Entry.get_deep_copy self h) ∧
  Entry.merge_entries self None h = Entry.get_deep_copy self h.
Proof.
  intros Hself Hinv Hothers merged. pose proof Hinv as [Hwf _].
  assert (∀ c : Z, (0 ≤ c < Entry.column_count o)%Z →
            Entry.get_values_from_column c merged
            = Ok (spec_merged_column o os (Z.to_nat c))) as Hcol.
  { intros c Hc. apply get_values_from_column_nonneg; [lia|].
    unfold merged, spec_mergeWith. simpl.
    rewrite list_lookup_fmap, lookup_seq_lt by lia. done. }
  split_and!.
  - rewrite (merge_entries_run h self o others os Hself Hwf Hothers).
    by rewrite merge_of_spec.
  - done.
  - done.
  - intros c Hc Hos. rewrite Hcol by done.
    rewrite spec_merged_column_untouched.
    + destruct (lookup_lt_is_Some_2 (Entry.cell_values o) (Z.to_nat c))
        as [d Hd].
      { unfold Entry_wf, len in Hwf. lia. }
      rewrite Hd. simpl. symmetry.
      apply get_values_from_column_nonneg; [lia|done].
    + eapply Forall_impl; [done|]. simpl. intros. lia.
  - intros ->. apply Forall2_nil_inv_l in Hothers as ->. split.
    + unfold merged. rewrite <-merge_of_spec by done.
      unfold merge_of. simpl. by apply copy_of_inv.
    + apply bind_mret.
  - apply bind_mret.
Qed.

Lemma merge_entries_contract_witness :
  let a := Entry.init 0 (Some ["ann"; ""; "c"]) in
  let b := Entry.init 0 (Some ["bob"; "b"]) in
  let h : heap := [a; b] in
  Entry.merge_entries 0 (Some [1]) h
  = (Ok 2, h ++ [Entry.mk 3 [["ann"; "bob"]; ["b"]; ["c"]]]) ∧
  Entry.get_values_from_column 2 (spec_mergeWith a [b])
  = Entry.get_values_from_column 2 a.
Proof.
  intros a b h.
  destruct (merge_entries_contract h 0 [1] a [b])
    as (Hrun & _ & _ & Hkeep & _).
  - reflexivity.
  - unfold Entry_inv, Entry_wf, cell_ok. compute_done.
  - repeat constructor.
  - split; [exact Hrun|]. apply Hkeep; [by vm_compute|].
    constructor; [by vm_compute|constructor].
Defined.

(** ** The cell-set invariant *)

Section invariant_facts.
Implicit Types (h : heap) (r : ref).

Lemma append_preserves c v :
  preserves Entry_inv (Entry.append_value_to_column c v).
Proof. intros e. apply append_value_to_column_inv. Qed.

Lemma set_preserves c v :
  preserves Entry_inv (Entry.set_value_at_column c v).
Proof. intros e. apply set_value_at_column_inv. Qed.

Lemma new_preserves length values :
  preserves (Forall Entry_inv) (Entry.new length values).
Proof. apply preserves_alloc, init_inv. Qed.

Lemma copy_columns_preserve src r (columns : list Z) :
  preserves (Forall Entry_inv)
    (for_each columns (λ column_index,
       column_values ←
         call src (reads (Entry.get_values_from_column column_index));
       for_each column_values (λ value,
         call r (Entry.append_value_to_column column_index value)))).
Proof.
  apply preserves_for_each. intros c.
  apply preserves_bind; [apply preserves_call, preserves_reads|].
  intros vs. apply preserves_for_each. intros v.
  apply preserves_call, append_preserves.
Qed.

Lemma get_deep_copy_preserves self :
  preserves (Forall Entry_inv) (Entry.get_deep_copy self).
Proof.
  unfold Entry.get_deep_copy.
  apply preserves_bind; [apply preserves_call, preserves_reads|]. intros n.
  apply preserves_bind; [apply new_preserves|]. intros deep_copy.
  apply preserves_bind; [apply preserves_call, preserves_reads|]. intros n'.
  apply preserves_bind; [apply copy_columns_preserve|]. intros _.
  apply preserves_ret.
Qed.

Lemma merge_entries_preserves self entries :
  preserves (Forall Entry_inv) (Entry.merge_entries self entries).
Proof.
  unfold Entry.merge_entries.
  apply preserves_bind; [apply get_deep_copy_preserves|]. intros merged.
  destruct entries as [entries|]; [|apply preserves_ret].
  case_decide; [apply preserves_ret|].
  apply preserves_bind; [|intros _; apply preserves_ret].
  apply preserves_for_each. intros entry.
  apply preserves_bind; [apply preserves_call, preserves_reads|]. intros n1.
  apply preserves_bind; [apply preserves_call, preserves_reads|]. intros n2.
  apply copy_columns_preserve.
Qed.

Lemma run_op_preserves op h :
  Forall Entry_inv h → Forall Entry_inv (run_op op h).
Proof.
  destruct op; simpl.
  - apply new_preserves.
  - apply preserves_call, append_preserves.
  - apply preserves_call, set_preserves.
  - apply get_deep_copy_preserves.
  - apply merge_entries_preserves.
Qed.

Lemma run_ops_inv ops : Forall Entry_inv (run_ops ops).
Proof.
  unfold run_ops. generalize (Forall_nil_2 Entry_inv).
  generalize (@nil Entry.t).
  induction ops as [|op ops IH]; intros h Hh; simpl; [done|].
  apply IH. by apply run_op_preserves.
Qed.
End invariant_facts.

(** C3: whatever sequence of public operations a program runs from the
    empty store, with whatever arguments and however each call ends, every
    entry in the store has, in each of its columns, pairwise distinct
    values, none of them the empty string; its column count is the number
    of its columns. *)
Theorem cell_set_invariant
    (ops : list entry_op) (r : ref) (e : Entry.t) (c : nat) (d : list string) :
  run_ops ops !! r = Some e → Entry.cell_values e !! c = Some d →
  ("" ∉ d) ∧ NoDup d ∧ Entry.column_count e = len (Entry.cell_values e).
Proof.
  intros Hr Hc.
  pose proof (Forall_lookup_1 _ _ _ _ (run_ops_inv ops) Hr) as [Hwf Hok].
  pose proof (Forall_lookup_1 _ _ _ _ Hok Hc) as [Hnd Hne].
  done.
Qed.

Lemma cell_set_invariant_witness :
  let ops := [OpNew 0 (Some ["a"; ""]); OpAppend 0 0 "b"; OpAppend 0 0 "a";
              OpAppend 0 1 ""; OpNew 2 None; OpSet 1 1 "z";
              OpMerge 0 (Some [1; 0]); OpDeepCopy 2; OpSet 2 0 "";
              OpAppend 9 0 "x"] in
  run_ops ops !! 2 = Some (Entry.mk 2 [["a"; "b"]; ["z"]]) ∧
  ("" ∉ ["a"; "b"]) ∧ NoDup ["a"; "b"].
Proof.
  intros ops. split; [reflexivity|].
  destruct (cell_set_invariant ops 2 (Entry.mk 2 [["a"; "b"]; ["z"]])
              0 ["a"; "b"]) as (H1 & H2 & _).
  - reflexivity.
  - reflexivity.
  - split; [exact H1|exact H2].
Defined.

(** ** Building the rows of a table in the store *)

Section table_building.
Implicit Types (h : heap) (r : ref) (rows : list (list string)).

Lemma new_entries_run h rows :
  mapM (λ row, Entry.new 0 (Some row)) rows h
  = (Ok (seq (length h) (length rows)),
     h ++ ((λ row, Entry.init 0 (Some row)) <$> rows)).
Proof.
  revert h. induction rows as [|row rows IH]; intros h; csimpl.
  { by rewrite app_nil_r. }
  erewrite bind_Ok; last done.
  erewrite bind_Ok; last apply IH.
  unfold mret, M_ret. rewrite length_app. simpl.
  rewrite Nat.add_1_r, <-app_assoc. done.
Qed.

Lemma deep_copies_run h refs os :
  Forall2 (λ r o, h !! r = Some o ∧ Entry_wf o) refs os →
  mapM Entry.get_deep_copy refs h
  = (Ok (seq (length h) (length refs)), h ++ (copy_of <$> os)).
Proof.
  revert os h. induction refs as [|r refs IH]; intros os h Hrefs.
  { apply Forall2_nil_inv_l in Hrefs as ->. csimpl. by rewrite app_nil_r. }
  apply Forall2_cons_inv_l in Hrefs as (o & os' & [Hr Hwf] & Hrest & ->).
  csimpl.
  erewrite bind_Ok; last by apply get_deep_copy_run.
  erewrite bind_Ok; last first.
  { apply IH. eapply Forall2_impl; [done|]. intros r' o' [? ?].
    split; [by apply lookup_app_l_Some|done]. }
  unfold mret, M_ret. rewrite length_app. simpl.
  rewrite Nat.add_1_r, <-app_assoc. done.
Qed.

Lemma Table_init_run h header refs os :
  Forall2 (λ r o, h !! r = Some o ∧ Entry_inv o) refs os →
  Table.init header (Some refs) h
  = (Ok (Table.mk header (seq (length h) (length refs))), h ++ os).
Proof.
  intros Hrefs. unfold Table.init.
  erewrite bind_Ok; last first.
  { apply deep_copies_run with (os := os).
    eapply Forall2_impl; [done|]. by intros r o [? [? ?]]. }
  unfold mret, M_ret. do 2 f_equal.
  assert (Forall Entry_inv os) as Hos.
  { clear -Hrefs. induction Hrefs as [|r o refs os [_ ?]]; by constructor. }
  rewrite <-(list_fmap_id os) at 2. apply Forall_fmap_ext.
  eapply Forall_impl; [done|]. intros o Ho. by apply copy_of_inv.
Qed.

(** What [CSV_to_table] does with the records its reader yields. *)
Lemma CSV_to_table_run text h header_list rows :
  Csv.reader (file_lines text) = (header_list :: rows, None) →
  CSV_to_table text h
  = (Ok (Table.mk (Header.mk header_list)
                  (seq (length h + length rows) (length rows))),
     h ++ ((λ row, Entry.init 0 (Some row)) <$> rows)
       ++ ((λ row, Entry.init 0 (Some row)) <$> rows)).
Proof.
  intros Hrd. unfold CSV_to_table. rewrite Hrd.
  erewrite bind_Ok; last apply new_entries_run.
  set (es := (λ row, Entry.init 0 (Some row)) <$> rows).
  rewrite (Table_init_run _ _ _ es).
  - rewrite length_app. unfold es. rewrite length_fmap, length_seq.
    by rewrite <-app_assoc.
  - apply Forall2_same_length_lookup. split.
    { unfold es. by rewrite length_seq, length_fmap. }
    intros i r e Hi He. apply lookup_seq in Hi as [-> Hlt].
    split.
    + by rewrite lookup_app_r, Nat.add_comm, Nat.add_sub by lia.
    + unfold es in He. apply list_lookup_fmap_Some in He as (row & -> & _).
      apply init_inv.
Qed.
End table_building.

(** ** The reader as an iterator *)

Section iterator_facts.
Implicit Types (rd : Csv.Reader) (lines : list string).

Lemma parse_add_char_raises c rd e :
  Csv.parse_add_char c rd = Raise e → e = CsvError.
Proof. unfold Csv.parse_add_char. case_decide; intros; by simplify_eq. Qed.

Lemma parse_process_char_raises (c : option ascii) rd e :
  Csv.parse_process_char c rd = Raise e → e = CsvError.
Proof.
  unfold Csv.parse_process_char, Csv.start_field.
  destruct (Csv.state rd), c as [ch|];
    repeat (case_decide ||
            match goal with
            | |- context [Csv.is_newline ?x] => destruct (Csv.is_newline x)
            end);
    try (intros; by simplify_eq).
  all: destruct (Csv.parse_add_char ch _) eqn:Hadd; simpl;
    intros; simplify_eq; by eapply parse_add_char_raises.
Qed.

Lemma process_chars_raises line rd e :
  Csv.process_chars line rd = Raise e → e = CsvError.
Proof.
  revert rd. induction line as [|c line IH]; intros rd; simpl; [done|].
  destruct (Csv.parse_process_char (Some c) rd) eqn:Hc; simpl.
  - apply IH.
  - intros. simplify_eq. by eapply parse_process_char_raises.
Qed.

Lemma process_line_raises line rd e :
  Csv.process_line line rd = Raise e → e = CsvError.
Proof.
  unfold Csv.process_line.
  destruct (Csv.process_chars line rd) eqn:Hl; simpl.
  - apply parse_process_char_raises.
  - intros. simplify_eq. by eapply process_chars_raises.
Qed.

(** [records_from] is what calling [__next__] again and again yields:
    each record in turn, until [StopIteration] ends the iteration or an
    error interrupts it. *)
Lemma records_from_iternext rd lines :
  Csv.records_from rd lines
  = match Csv.iternext_from rd lines with
    | (Ok row, rest) =>
        let '(rows, ending) := Csv.records_from Csv.parse_reset rest in
        (row :: rows, ending)
    | (Raise StopIteration, _) => ([], None)
    | (Raise e, _) => ([], Some e)
    end.
Proof.
  revert rd. induction lines as [|line lines IH]; intros rd; simpl.
  { unfold Csv.pending. by case_bool_decide. }
  destruct (Csv.process_line line rd) as [rd'|e] eqn:Hline.
  - case_decide; [done|]. apply IH.
  - by rewrite (process_line_raises _ _ _ Hline).
Qed.

(** The reader raises nothing but csv errors. *)
Lemma records_from_ending rd lines rows e :
  Csv.records_from rd lines = (rows, Some e) → e = CsvError.
Proof.
  revert rd rows. induction lines as [|line lines IH]; intros rd rows; simpl.
  { by case_match. }
  destruct (Csv.process_line line rd) as [rd'|e'] eqn:Hline.
  - case_decide; [|apply IH].
    destruct (Csv.records_from Csv.parse_reset lines) as [rows' ending] eqn:Hr.
    intros. simplify_eq. by eapply IH.
  - intros. simplify_eq. by eapply process_line_raises.
Qed.
End iterator_facts.

(** ** Parsing: rows of any width, and the empty input *)

Section parsing_facts.
Implicit Types (h : heap) (rows : list (list string)) (text : string).

Lemma init_from_row (row : list string) :
  Entry.init 0 (Some row) = Entry.mk (len row) (seed_cells row).
Proof.
  destruct row as [|f row].
  - by rewrite init_length by auto.
  - by rewrite init_Some_values.
Qed.

Lemma seed_cells_lookup (row : list string) (j : nat) (field : string) :
  row !! j = Some field →
  seed_cells row !! j = Some (if decide (field = "") then [] else [field]).
Proof. intros Hj. unfold seed_cells. by rewrite list_lookup_fmap, Hj. Qed.

(** What [CSV_to_table] leaves in the store, however the reader ended. *)
Lemma CSV_to_table_store text h header_list rows ending :
  Csv.reader (file_lines text) = (header_list :: rows, ending) →
  ∃ copies,
    (CSV_to_table text h).2
    = h ++ ((λ row, Entry.init 0 (Some row)) <$> rows) ++ copies.
Proof.
  intros Hrd. destruct ending as [err|].
  - exists []. unfold CSV_to_table. rewrite Hrd.
    erewrite bind_Ok; last apply new_entries_run.
    by rewrite app_nil_r.
  - eexists. by rewrite (CSV_to_table_run _ _ _ _ Hrd).
Qed.

Lemma feed_end_of_line (rd rd' : Csv.Reader) :
  Csv.parse_process_char None rd = Ok rd' →
  Csv.state rd' = Csv.START_RECORD ∨ Csv.state rd' = Csv.IN_QUOTED_FIELD.
Proof.
  unfold Csv.parse_process_char. destruct rd as [[] fld flds]; simpl;
    intros; simplify_eq; auto.
Qed.

Lemma process_line_state line (rd rd' : Csv.Reader) :
  Csv.process_line line rd = Ok rd' →
  Csv.state rd' = Csv.START_RECORD ∨ Csv.state rd' = Csv.IN_QUOTED_FIELD.
Proof.
  unfold Csv.process_line.
  destruct (Csv.process_chars line rd) as [rd1|err]; simpl; [|done].
  apply feed_end_of_line.
Qed.

(** A reader that yields nothing and ends normally has read no line. *)
Lemma records_from_nil (rd : Csv.Reader) (lines : list string) :
  Csv.records_from rd lines = ([], None) → lines = [].
Proof.
  revert rd. induction lines as [|line lines IH]; intros rd; [done|].
  simpl. destruct (Csv.process_line line rd) as [rd'|err] eqn:Hline; [|done].
  case_decide as Hst.
  { by destruct (Csv.records_from Csv.parse_reset lines). }
  intros Hrest. pose proof (IH _ Hrest) as ->. simpl in Hrest.
  destruct (process_line_state _ _ _ Hline) as [?|Hq]; [done|].
  unfold Csv.pending in Hrest.
  rewrite bool_decide_eq_true_2 in Hrest by auto. done.
Qed.

Lemma splitlines_nil text : splitlines text = [] → text = "".
Proof.
  destruct text as [|c s]; [done|]. simpl.
  case_decide; [done|]. by destruct (splitlines s).
Qed.

Lemma translate_newlines_nil text : translate_newlines text = "" → text = "".
Proof. destruct text as [|c s]; [done|]. simpl. by case_decide. Qed.

Lemma file_lines_nil text : file_lines text = [] ↔ text = "".
Proof.
  split; [|by intros ->].
  intros H%splitlines_nil. by apply translate_newlines_nil.
Qed.
End parsing_facts.

(** C8: whatever the input, the record at position [i] after the header
    becomes an entry with exactly as many columns as the record has
    fields, each non-empty field the single value of its column and each
    empty field an empty column.  When the input is read to its end, the
    table is returned, row [i] of the table holds these columns, and for
    a record shorter than the header the row is narrower than the table:
    nothing pads it to the header's width. *)
Theorem short_row_parsing
    (text : string) (h : heap) (header_list : list string)
    (rows : list (list string)) (ending : option exn)
    (i : nat) (row : list string) :
  Csv.reader (file_lines text) = (header_list :: rows, ending) →
  rows !! i = Some row → (len row < len header_list)%Z →
  let h' := (CSV_to_table text h).2 in
  ∃ e,
    h' !! (length h + i) = Some e ∧
    Entry.column_count e = len row ∧
    len (Entry.cell_values e) = len row ∧
    (∀ (j : nat) (field : string), row !! j = Some field →
       Entry.get_values_from_column (Z.of_nat j) e
       = Ok (if decide (field = "") then [] else [field])) ∧
    (ending = None →
     ∃ table r,
       (CSV_to_table text h).1 = Ok table ∧
       Table.get_column_names table = header_list ∧
       Table.get_entry_count table = len rows ∧
       Table.get_entry (Z.of_nat i) table = Ok r ∧
       h' !! r = Some e ∧
       (Entry.column_count e < Table.get_column_count table)%Z).
Proof.
  intros Hrd Hrow Hshort h'.
  exists (Entry.init 0 (Some row)).
  pose proof (lookup_lt_Some _ _ _ Hrow) as Hi.
  split_and!.
  - destruct (CSV_to_table_store text h _ _ _ Hrd) as [copies Hstore].
    unfold h'. rewrite Hstore.
    rewrite lookup_app_r, Nat.add_comm, Nat.add_sub by lia.
    rewrite lookup_app_l by (by rewrite length_fmap).
    by rewrite list_lookup_fmap, Hrow.
  - by rewrite init_from_row.
  - rewrite init_from_row. unfold seed_cells, len. simpl.
    by rewrite length_fmap.
  - intros j field Hj. rewrite init_from_row.
    apply get_values_from_column_nonneg; [lia|]. simpl.
    rewrite Nat2Z.id. by apply seed_cells_lookup.
  - intros ->. unfold h'. rewrite (CSV_to_table_run _ _ _ _ Hrd).
    cbn [fst snd].
    eexists _, (length h + length rows + i). split_and!; [done|done| | | |].
    + unfold Table.get_entry_count, len. simpl. by rewrite length_seq.
    + unfold Table.get_entry. simpl.
      destruct (list_getitem_nonneg
                  (seq (length h + length rows) (length rows)) (Z.of_nat i))
        as (r & Hr & ->).
      { unfold len. rewrite length_seq. lia. }
      rewrite Nat2Z.id in Hr. apply lookup_seq in Hr as [-> _]. done.
    + rewrite app_assoc.
      rewrite lookup_app_r by (rewrite length_app, length_fmap; lia).
      rewrite length_app, length_fmap.
      replace (length h + length rows + i - (length h + length rows))
        with i by lia.
      by rewrite list_lookup_fmap, Hrow.
    + rewrite init_from_row. done.
Qed.

Lemma short_row_parsing_witness :
  let nl := String Csv.LF EmptyString in
  let text := "Name,Email,Phone" +:+ nl +:+ "Alice,a@x.com,1" +:+ nl
              +:+ "Bob," +:+ nl in
  ∃ e, (CSV_to_table text []).2 !! 1 = Some e ∧
       Entry.column_count e = 2%Z ∧
       Entry.get_values_from_column 0 e = Ok ["Bob"] ∧
       Entry.get_values_from_column 1 e = Ok [].
Proof.
  intros nl text.
  destruct (short_row_parsing text [] ["Name"; "Email"; "Phone"]
              [["Alice"; "a@x.com"; "1"]; ["Bob"; ""]] None 1 ["Bob"; ""])
    as (e & He & Hcc & _ & Hcols & _).
  - by vm_compute.
  - reflexivity.
  - by vm_compute.
  - exists e. split_and!; [exact He|exact Hcc| |].
    + apply (Hcols 0 "Bob"). reflexivity.
    + apply (Hcols 1 ""). reflexivity.
Defined.

(** C10: an input from which the reader yields no record at all is the
    empty text, and on it [CSV_to_table] ends with the [StopIteration] of
    the first [next(csv_reader)]: no table is returned, no csv error is
    raised, and the store is left as it was. *)
Theorem empty_input_StopIteration (text : string) (h : heap) :
  Csv.reader (file_lines text) = ([], None) →
  text = "" ∧ CSV_to_table text h = (Raise StopIteration, h).
Proof.
  intros Hrd. split.
  - apply file_lines_nil. by eapply records_from_nil.
  - unfold CSV_to_table. by rewrite Hrd.
Qed.

Lemma empty_input_StopIteration_witness :
  CSV_to_table "" [] = (Raise StopIteration, []).
Proof. apply (empty_input_StopIteration "" []). reflexivity. Defined.

(** ** Text: append, length, and properties of every character *)

Section text_facts.
Implicit Types (s t u : string) (c : ascii).

Lemma sapp_cons c s t : String c s +:+ t = String c (s +:+ t).
Proof. reflexivity. Qed.

Lemma sapp_nil_l s : "" +:+ s = s.
Proof. reflexivity. Qed.

Lemma sapp_nil_r s : s +:+ "" = s.
Proof. induction s as [|c s IH]; [done|]. by rewrite sapp_cons, IH. Qed.

Lemma sapp_assoc s t u : (s +:+ t) +:+ u = s +:+ (t +:+ u).
Proof. induction s as [|c s IH]; [done|]. by rewrite !sapp_cons, IH. Qed.

Lemma slength_app s t :
  String.length (s +:+ t) = String.length s + String.length t.
Proof. induction s as [|c s IH]; [done|]. rewrite sapp_cons. simpl. by rewrite IH. Qed.

Lemma string_forall_app P s t :
  string_forall P (s +:+ t) ↔ string_forall P s ∧ string_forall P t.
Proof.
  induction s as [|c s IH]; [simpl; rewrite sapp_nil_l; tauto|].
  rewrite sapp_cons. simpl. rewrite IH. tauto.
Qed.

Lemma string_forall_impl (P Q : ascii → Prop) s :
  (∀ c, P c → Q c) → string_forall P s → string_forall Q s.
Proof. intros HPQ. induction s as [|c s IH]; simpl; [done|]. intros [??]. auto. Qed.
End text_facts.

(** ** The csv writer and reader on fields without quotes or line breaks *)

Section codec_facts.
Implicit Types (s t f p : string) (c : ascii) (fs : list string).

Lemma writerow_record_text (fields : list string) :
  Csv.writerow fields = record_text fields +:+ Csv.lineterminator.
Proof. reflexivity. Qed.

Lemma join_append_data_plain f :
  string_forall plain_char f → Csv.join_append_data f = (f, has_delimiter f).
Proof.
  induction f as [|c f IH]; simpl; [done|]. intros [(Hq & Hcr & Hlf) Hf].
  rewrite IH by done. unfold Csv.special.
  destruct (decide (c = Csv.delimiter)) as [->|Hd].
  - done.
  - rewrite bool_decide_eq_false_2 by (by intros [?|[?|[?|?]]]).
    by rewrite (bool_decide_eq_false_2 (c = Csv.delimiter)).
Qed.

Lemma join_append_plain f :
  string_forall plain_char f →
  Csv.join_append f
  = if has_delimiter f
    then String Csv.quotechar (f +:+ String Csv.quotechar EmptyString)
    else f.
Proof.
  intros Hf. unfold Csv.join_append. by rewrite join_append_data_plain.
Qed.

Lemma process_chars_app s t (rd : Csv.Reader) :
  Csv.process_chars (s +:+ t) rd
  = Csv.process_chars s rd ≫= Csv.process_chars t.
Proof.
  revert rd. induction s as [|c s IH]; intros rd; [done|].
  rewrite sapp_cons. simpl.
  destruct (Csv.parse_process_char (Some c) rd) as [rd'|err]; simpl; [|done].
  apply IH.
Qed.

Lemma process_chars_cons c s (rd : Csv.Reader) :
  Csv.process_chars (String c s) rd
  = Csv.parse_process_char (Some c) rd ≫= Csv.process_chars s.
Proof. reflexivity. Qed.

Lemma outcome_bind_Ok {A B} (a : A) (k : A → outcome B) : Ok a ≫= k = k a.
Proof. reflexivity. Qed.

Lemma parse_add_char_fits c st p fs :
  (Z.of_nat (String.length p) < Csv.field_limit)%Z →
  Csv.parse_add_char c (Csv.mkReader st p fs)
  = Ok (Csv.mkReader st (p +:+ String c EmptyString) fs).
Proof.
  intros Hp. unfold Csv.parse_add_char. simpl. by rewrite decide_False by lia.
Qed.

(** One ordinary character inside an unquoted field. *)
Lemma in_field_char c p fs :
  plain_char c → c ≠ Csv.delimiter →
  (Z.of_nat (String.length p) < Csv.field_limit)%Z →
  Csv.parse_process_char (Some c) (Csv.mkReader Csv.IN_FIELD p fs)
  = Ok (Csv.mkReader Csv.IN_FIELD (p +:+ String c EmptyString) fs).
Proof.
  intros (Hq & Hcr & Hlf) Hd Hp.
  unfold Csv.parse_process_char, Csv.is_newline. cbn [Csv.state].
  rewrite bool_decide_eq_false_2 by (by intros [?|?]).
  rewrite decide_False by done. by apply parse_add_char_fits.
Qed.

(** The first character of an unquoted field. *)
Lemma start_field_char c fs :
  plain_char c → c ≠ Csv.delimiter →
  Csv.parse_process_char (Some c) (Csv.mkReader Csv.START_FIELD "" fs)
  = Ok (Csv.mkReader Csv.IN_FIELD (String c EmptyString) fs).
Proof.
  intros (Hq & Hcr & Hlf) Hd.
  unfold Csv.parse_process_char, Csv.start_field, Csv.is_newline.
  cbn [Csv.state].
  rewrite bool_decide_eq_false_2 by (by intros [?|?]).
  rewrite !decide_False by done.
  by rewrite parse_add_char_fits.
Qed.

(** One character other than the quote inside a quoted field. *)
Lemma in_quoted_char c p fs :
  c ≠ Csv.quotechar →
  (Z.of_nat (String.length p) < Csv.field_limit)%Z →
  Csv.parse_process_char (Some c) (Csv.mkReader Csv.IN_QUOTED_FIELD p fs)
  = Ok (Csv.mkReader Csv.IN_QUOTED_FIELD (p +:+ String c EmptyString) fs).
Proof.
  intros Hq Hp. unfold Csv.parse_process_char. cbn [Csv.state].
  rewrite decide_False by done. by apply parse_add_char_fits.
Qed.

Lemma open_quote fs :
  Csv.parse_process_char (Some Csv.quotechar)
                         (Csv.mkReader Csv.START_FIELD "" fs)
  = Ok (Csv.mkReader Csv.IN_QUOTED_FIELD "" fs).
Proof. reflexivity. Qed.

Lemma close_quote p fs :
  Csv.parse_process_char (Some Csv.quotechar)
                         (Csv.mkReader Csv.IN_QUOTED_FIELD p fs)
  = Ok (Csv.mkReader Csv.QUOTE_IN_QUOTED_FIELD p fs).
Proof. reflexivity. Qed.

(** Inside an unquoted field. *)
Lemma in_field_run s p fs :
  string_forall (λ c, plain_char c ∧ c ≠ Csv.delimiter) s →
  (Z.of_nat (String.length (p +:+ s)) ≤ Csv.field_limit)%Z →
  Csv.process_chars s (Csv.mkReader Csv.IN_FIELD p fs)
  = Ok (Csv.mkReader Csv.IN_FIELD (p +:+ s) fs).
Proof.
  revert p. induction s as [|c s IH]; intros p Hs Hfit.
  { by rewrite sapp_nil_r. }
  destruct Hs as [[Hc Hd] Hs].
  rewrite slength_app in Hfit. cbn [String.length] in Hfit.
  rewrite process_chars_cons, in_field_char, outcome_bind_Ok by (done || lia).
  rewrite IH; [|done|].
  - by rewrite sapp_assoc.
  - rewrite sapp_assoc, sapp_cons, sapp_nil_l, slength_app.
    cbn [String.length]. lia.
Qed.

(** Inside a quoted field. *)
Lemma in_quoted_run s p fs :
  string_forall (λ c, c ≠ Csv.quotechar) s →
  (Z.of_nat (String.length (p +:+ s)) ≤ Csv.field_limit)%Z →
  Csv.process_chars s (Csv.mkReader Csv.IN_QUOTED_FIELD p fs)
  = Ok (Csv.mkReader Csv.IN_QUOTED_FIELD (p +:+ s) fs).
Proof.
  revert p. induction s as [|c s IH]; intros p Hs Hfit.
  { by rewrite sapp_nil_r. }
  destruct Hs as [Hq Hs].
  rewrite slength_app in Hfit. cbn [String.length] in Hfit.
  rewrite process_chars_cons, in_quoted_char, outcome_bind_Ok by (done || lia).
  rewrite IH; [|done|].
  - by rewrite sapp_assoc.
  - rewrite sapp_assoc, sapp_cons, sapp_nil_l, slength_app.
    cbn [String.length]. lia.
Qed.

Lemma no_delimiter_chars f :
  string_forall plain_char f → has_delimiter f = false →
  string_forall (λ c, plain_char c ∧ c ≠ Csv.delimiter) f.
Proof.
  induction f as [|c f IH]; simpl; [done|]. intros [Hc Hf] Hd.
  apply orb_false_iff in Hd as [Hd%bool_decide_eq_false Hd']. auto.
Qed.

(** The characters of a written field bring the reader, at the start of a
    field, to the end of that field. *)
Lemma read_field f fs :
  plain_field f →
  Csv.process_chars (Csv.join_append f) (Csv.mkReader Csv.START_FIELD "" fs)
  = Ok (Csv.mkReader (field_state f) f fs).
Proof.
  intros [Hplain Hfit]. rewrite join_append_plain by done.
  unfold field_state. destruct (has_delimiter f) eqn:Hd.
  - rewrite process_chars_cons, open_quote, outcome_bind_Ok.
    rewrite process_chars_app, in_quoted_run, outcome_bind_Ok.
    + by rewrite process_chars_cons, close_quote.
    + eapply string_forall_impl; [|done]. by intros c (? & _).
    + done.
  - destruct f as [|c f]; [done|].
    pose proof (no_delimiter_chars _ Hplain Hd) as [[Hc Hdc] Hf].
    rewrite process_chars_cons, start_field_char, outcome_bind_Ok by done.
    by rewrite in_field_run.
Qed.

Lemma end_field_delimiter f fs :
  Csv.parse_process_char (Some Csv.delimiter)
                         (Csv.mkReader (field_state f) f fs)
  = Ok (Csv.mkReader Csv.START_FIELD "" (fs ++ [f])).
Proof. unfold field_state. by destruct (has_delimiter f), f. Qed.

Lemma end_field_newline f fs :
  Csv.parse_process_char (Some Csv.LF) (Csv.mkReader (field_state f) f fs)
  = Ok (Csv.mkReader Csv.EAT_CRNL "" (fs ++ [f])).
Proof. unfold field_state. by destruct (has_delimiter f), f. Qed.

(** The fields of a written record, then the line break. *)
Lemma read_fields f rest fs :
  Forall plain_field (f :: rest) →
  Csv.process_chars
    (join (String Csv.delimiter EmptyString) (Csv.join_append <$> f :: rest)
     +:+ String Csv.LF EmptyString)
    (Csv.mkReader Csv.START_FIELD "" fs)
  = Ok (Csv.mkReader Csv.EAT_CRNL "" (fs ++ f :: rest)).
Proof.
  revert f fs. induction rest as [|g rest IH]; intros f fs Hok.
  - apply Forall_cons in Hok as [Hf _]. csimpl.
    rewrite process_chars_app, read_field, outcome_bind_Ok by done.
    by rewrite process_chars_cons, end_field_newline.
  - apply Forall_cons in Hok as [Hf Hok].
    change (join (String Csv.delimiter "") (Csv.join_append <$> f :: g :: rest))
      with (Csv.join_append f
            +:+ String Csv.delimiter ""
            +:+ join (String Csv.delimiter "")
                     (Csv.join_append <$> g :: rest)).
    rewrite !sapp_assoc, process_chars_app, read_field, outcome_bind_Ok
      by done.
    rewrite sapp_cons, process_chars_cons, end_field_delimiter, outcome_bind_Ok.
    rewrite sapp_nil_l, IH by done. by rewrite <-app_assoc.
Qed.
End codec_facts.

(** ** Written records, line by line *)

Section line_facts.
Implicit Types (s t f : string) (c : ascii) (fields : list string).

Lemma join_cons_cons sep s t (l : list string) :
  join sep (s :: t :: l) = s +:+ sep +:+ join sep (t :: l).
Proof. reflexivity. Qed.

Lemma join_forall (P : ascii → Prop) sep (l : list string) :
  string_forall P sep → Forall (string_forall P) l →
  string_forall P (join sep l).
Proof.
  intros Hsep. induction 1 as [|s l Hs Hl IH]; [done|].
  destruct l as [|t l]; [done|].
  rewrite join_cons_cons, !string_forall_app. auto.
Qed.

Lemma join_append_chars f :
  string_forall plain_char f →
  string_forall (λ c, c ≠ Csv.CR ∧ c ≠ Csv.LF) (Csv.join_append f).
Proof.
  intros Hf. rewrite join_append_plain by done.
  assert (string_forall (λ c, c ≠ Csv.CR ∧ c ≠ Csv.LF) f) as Hf'.
  { eapply string_forall_impl; [|done]. by intros c (_ & ? & ?). }
  destruct (has_delimiter f); [|done].
  split; [done|]. apply string_forall_app. by split.
Qed.

Lemma record_text_chars fields :
  Forall (string_forall plain_char) fields →
  string_forall (λ c, c ≠ Csv.CR ∧ c ≠ Csv.LF) (record_text fields).
Proof.
  intros Hok. unfold record_text. case_decide; [done|].
  apply join_forall; [done|].
  apply Forall_fmap. eapply Forall_impl; [done|].
  intros f. apply join_append_chars.
Qed.

Lemma join_append_empty f :
  string_forall plain_char f → String.length (Csv.join_append f) = 0 → f = "".
Proof.
  intros Hf. rewrite join_append_plain by done.
  destruct (has_delimiter f); [done|]. by destruct f.
Qed.

Lemma start_record_char c :
  c ≠ Csv.CR → c ≠ Csv.LF →
  Csv.parse_process_char (Some c) Csv.parse_reset
  = Csv.parse_process_char (Some c) (Csv.mkReader Csv.START_FIELD "" []).
Proof.
  intros Hcr Hlf. unfold Csv.parse_process_char, Csv.is_newline.
  cbn [Csv.state Csv.parse_reset].
  by rewrite bool_decide_eq_false_2 by (by intros [?|?]).
Qed.

(** The line of a written record gives the reader back its fields. *)
Lemma process_line_record fields :
  Forall plain_field fields →
  Csv.process_line (record_text fields +:+ String Csv.LF EmptyString)
                   Csv.parse_reset
  = Ok (Csv.mkReader Csv.START_RECORD "" fields).
Proof.
  intros Hok.
  assert (Forall (string_forall plain_char) fields) as Hplain.
  { eapply Forall_impl; [done|]. by intros f [? _]. }
  pose proof (record_text_chars _ Hplain) as Hchars.
  destruct fields as [|f rest]; [done|].
  unfold record_text in *.
  remember (join (String Csv.delimiter "") (Csv.join_append <$> f :: rest))
    as rec eqn:Hrec.
  case_decide as Hz.
  - destruct Hz as [_ Hlen].
    assert (f = "" ∧ rest = []) as [-> ->]; [|done].
    destruct rest as [|g rest].
    + split; [|done]. subst rec. apply join_append_empty; [|done].
      by apply Forall_cons in Hplain as [? _].
    + subst rec. rewrite fmap_cons, fmap_cons, join_cons_cons in Hlen.
      rewrite !slength_app in Hlen. simpl in Hlen. lia.
  - destruct rec as [|c s].
    { exfalso. apply Hz. simpl. split; [lia|done]. }
    destruct Hchars as [[Hcr Hlf] _].
    unfold Csv.process_line.
    rewrite sapp_cons, process_chars_cons, start_record_char by done.
    rewrite <-process_chars_cons, <-sapp_cons, Hrec.
    by rewrite read_fields.
Qed.

(** Reading the lines of written records yields the records. *)
Lemma reader_records (rows : list (list string)) :
  Forall (Forall plain_field) rows →
  Csv.reader ((λ fields, record_text fields +:+ String Csv.LF EmptyString)
                <$> rows)
  = (rows, None).
Proof.
  unfold Csv.reader. induction 1 as [|fields rows Hf Hrows IH]; [done|].
  csimpl. rewrite process_line_record by done. cbn [Csv.state].
  rewrite decide_True by done. by rewrite IH.
Qed.
End line_facts.

(** ** Written records, in the file *)

Section file_facts.
Implicit Types (s t : string) (c : ascii).

Lemma translate_newlines_record s t :
  string_forall (λ c, c ≠ Csv.CR) s →
  translate_newlines (s +:+ Csv.lineterminator +:+ t)
  = s +:+ String Csv.LF (translate_newlines t).
Proof.
  induction s as [|c s IH]; intros Hs.
  { done. }
  destruct Hs as [Hc Hs]. rewrite !sapp_cons.
  cbn [translate_newlines]. rewrite decide_False by done.
  by rewrite IH.
Qed.

Lemma splitlines_record s t :
  string_forall (λ c, c ≠ Csv.LF) s →
  splitlines (s +:+ String Csv.LF t)
  = (s +:+ String Csv.LF EmptyString) :: splitlines t.
Proof.
  induction s as [|c s IH]; intros Hs.
  { done. }
  destruct Hs as [Hc Hs]. rewrite !sapp_cons.
  cbn [splitlines]. rewrite decide_False by done.
  by rewrite IH.
Qed.

Lemma file_lines_written (rows : list (list string)) :
  Forall (Forall (string_forall plain_char)) rows →
  file_lines (written rows)
  = (λ fields, record_text fields +:+ String Csv.LF EmptyString) <$> rows.
Proof.
  unfold file_lines. induction 1 as [|fields rows Hf Hrows IH]; [done|].
  pose proof (record_text_chars _ Hf) as Hchars.
  cbn [written foldr]. fold (written rows).
  rewrite writerow_record_text, sapp_assoc.
  rewrite translate_newlines_record.
  2:{ eapply string_forall_impl; [|done]. by intros c [? _]. }
  rewrite splitlines_record.
  2:{ eapply string_forall_impl; [|done]. by intros c [_ ?]. }
  by rewrite IH.
Qed.

(** Writing then reading records of plain fields gives them back. *)
Lemma reader_written (rows : list (list string)) :
  Forall (Forall plain_field) rows →
  Csv.reader (file_lines (written rows)) = (rows, None).
Proof.
  intros Hrows. rewrite file_lines_written.
  - by apply reader_records.
  - eapply Forall_impl; [done|]. intros fields Hf.
    eapply Forall_impl; [done|]. by intros f [? _].
Qed.
End file_facts.

(** ** The round trip through a CSV file *)

Section round_trip_facts.
Implicit Types (h : heap) (e o : Entry.t) (t : Table.t).

Lemma mapM_Ok {A B} (f : A → outcome B) (g : A → B) (xs : list A) :
  Forall (λ x, f x = Ok (g x)) xs → mapM f xs = Ok (g <$> xs).
Proof.
  induction 1 as [|x xs Hx _ IH]; [done|].
  change (mapM f (x :: xs)) with (y ← f x; k ← mapM f xs; mret (y :: k)).
  by rewrite Hx, IH.
Qed.

Lemma get_value_str_from_columns_run sep e :
  Entry_wf e → Entry.get_value_str_from_columns sep e = Ok (join sep <$> Entry.cell_values e).
Proof.
  intros Hwf. unfold Entry.get_value_str_from_columns.
  rewrite (mapM_Ok _ (λ c, join sep (default []
                             (Entry.cell_values e !! Z.to_nat c)))).
  - f_equal. rewrite range_seq, Hwf. unfold len. rewrite Nat2Z.id.
    apply list_eq. intros i. rewrite !list_lookup_fmap.
    destruct (Entry.cell_values e !! i) as [d|] eqn:Hd; simpl.
    + rewrite lookup_seq_lt by (by eapply lookup_lt_Some). simpl.
      by rewrite Nat2Z.id, Hd.
    + rewrite lookup_seq_ge; [done|]. by apply lookup_ge_None.
  - apply Forall_forall. intros c Hc. unfold range in Hc.
    apply elem_of_seqZ in Hc.
    unfold Entry.get_value_str_from_column.
    rewrite (proj2 (out_of_bounds_false e c)) by lia.
    destruct (lookup_lt_is_Some_2 (Entry.cell_values e) (Z.to_nat c)) as [d Hd].
    { unfold Entry_wf, len in Hwf. lia. }
    rewrite (get_values_from_column_nonneg c e d) by (done || lia).
    by rewrite Hd.
Qed.

Lemma seed_cells_display e :
  Forall cell_ok (Entry.cell_values e) → single_valued e →
  seed_cells (display e) = Entry.cell_values e.
Proof.
  unfold single_valued, display, seed_cells.
  induction 1 as [|d cells [_ Hne] _ IH]; intros Hs; [done|].
  apply Forall_cons in Hs as [Hd Hs]. csimpl. rewrite IH by done. f_equal.
  destruct d as [|v [|w d]]; [done| |simpl in Hd; lia].
  simpl. rewrite decide_False; [done|]. intros ->. apply Hne. by left.
Qed.

Lemma init_display e :
  Entry_inv e → single_valued e → Entry.init 0 (Some (display e)) = e.
Proof.
  intros [Hwf Hok] Hs. rewrite init_from_row, seed_cells_display by done.
  unfold display, len. rewrite length_fmap. fold (len (Entry.cell_values e)).
  rewrite <-Hwf. by destruct e.
Qed.

Lemma display_plain e :
  plain_entry e → single_valued e → Forall plain_field (display e).
Proof.
  unfold plain_entry, single_valued, display.
  induction 1 as [|d cells Hd _ IH]; intros Hs; [by constructor|].
  apply Forall_cons in Hs as [Hlen Hs]. csimpl. constructor; [|by apply IH].
  destruct d as [|v [|w d]]; [|by apply Forall_cons in Hd as [? _]
                              |simpl in Hlen; lia].
  split; [done|]. by vm_compute.
Qed.

(** The loop of [table_to_CSV] over the rows. *)
Lemma write_entries_run h (entries : list ref) (os : list Entry.t) csv_file :
  Forall2 (λ r o, h !! r = Some o ∧ Entry_wf o) entries os →
  write_entries entries csv_file h
  = (Ok (csv_file +:+ written (display <$> os)), h).
Proof.
  intros Hrows. revert csv_file.
  induction Hrows as [|r o entries os [Hr Hwf] _ IH]; intros csv_file.
  { simpl. by rewrite sapp_nil_r. }
  cbn [write_entries].
  erewrite bind_Ok; last first.
  { rewrite (call_reads _ _ _ _ Hr).
    by rewrite get_value_str_from_columns_run. }
  rewrite IH. csimpl. by rewrite sapp_assoc.
Qed.

Lemma table_to_CSV_run h t (os : list Entry.t) :
  Forall2 (λ r o, h !! r = Some o ∧ Entry_wf o) (Table.entries t) os →
  table_to_CSV t h
  = (Ok (written (Table.get_column_names t :: (display <$> os))), h).
Proof. intros Hrows. unfold table_to_CSV. by erewrite write_entries_run. Qed.

Lemma lookup_fresh_rows h (os : list Entry.t) :
  (((h ++ os ++ os) !!.) <$> seq (length h + length os) (length os))
  = Some <$> os.
Proof.
  apply list_eq. intros i. rewrite !list_lookup_fmap.
  destruct (os !! i) as [o|] eqn:Ho; simpl.
  - rewrite lookup_seq_lt by (by eapply lookup_lt_Some). simpl.
    rewrite app_assoc, lookup_app_r by (rewrite length_app; lia).
    rewrite length_app.
    replace (length h + length os + i - (length h + length os)) with i by lia.
    by rewrite Ho.
  - rewrite lookup_seq_ge; [done|]. by apply lookup_ge_None.
Qed.
End round_trip_facts.

(** C1, as stated, fails: a cell holding the two values [a] and [b], with
    no quote and no line break anywhere, is written as the one field
    [a, b] and read back as a cell holding the single value [a, b]. *)
Lemma csv_round_trip_counterexample :
  let h : heap :=
    (call 0 (Entry.append_value_to_column 0 "b")
       (Entry.new 0 (Some ["a"]) []).2).2 in
  let t := Table.mk (Header.mk ["Tag"]) [0] in
  let text := "Tag" +:+ Csv.lineterminator
              +:+ String Csv.quotechar "a, b"
              +:+ String Csv.quotechar Csv.lineterminator in
  let e' := Entry.mk 1 [["a, b"]] in
  h = [Entry.mk 1 [["a"; "b"]]] ∧
  table_to_CSV t h = (Ok text, h) ∧
  CSV_to_table text h
  = (Ok (Table.mk (Header.mk ["Tag"]) [2]), h ++ [e'; e']) ∧
  table_value (h ++ [e'; e']) (Table.mk (Header.mk ["Tag"]) [2])
  ≠ table_value h t.
Proof. vm_compute. split_and!; (reflexivity || discriminate). Qed.

(** C1, amended: take a table, its rows being entries under the class
    invariant, whose column names and cell values contain no quote
    character and no line break and are no longer than the reader's field
    size limit, and whose cells hold at most one value each.  Writing it with [table_to_CSV] succeeds and leaves the store as
    it was, and [CSV_to_table] on the text written returns a table of new
    entries with the same column names and, row by row, the same column
    count and cell values; the entries already stored are untouched. *)
Theorem csv_round_trip (h : heap) (t : Table.t) :
  Forall plain_field (Table.get_column_names t) →
  Forall (λ r, ∃ e, h !! r = Some e ∧ Entry_inv e ∧
                    single_valued e ∧ plain_entry e) (Table.entries t) →
  ∃ text t' h',
    table_to_CSV t h = (Ok text, h) ∧
    CSV_to_table text h = (Ok t', h') ∧
    table_value h' t' = table_value h t ∧
    (∀ r, r < length h → h' !! r = h !! r) ∧
    Forall (λ r', length h ≤ r') (Table.entries t').
Proof.
  intros Hnames Hrows.
  assert (∃ os, Forall2 (λ r o, h !! r = Some o ∧ Entry_inv o ∧
                                single_valued o ∧ plain_entry o)
                        (Table.entries t) os) as [os Hos].
  { clear -Hrows. induction Hrows as [|r rs (e & He) _ [os IH]].
    - by exists [].
    - exists (e :: os). by constructor. }
  assert ((λ row, Entry.init 0 (Some row)) <$> (display <$> os) = os) as Hinit.
  { rewrite <-list_fmap_compose.
    transitivity (id <$> os); [|apply list_fmap_id].
    apply Forall_fmap_ext.
    clear -Hos. induction Hos as [|r o rs os (_ & Hinv & Hs & _) _ IH];
      constructor; [|done].
    simpl. by apply init_display. }
  assert (Csv.reader (file_lines
            (written (Table.get_column_names t :: (display <$> os))))
          = (Table.get_column_names t :: (display <$> os), None)) as Hread.
  { apply reader_written. constructor; [done|].
    apply Forall_fmap.
    clear -Hos. induction Hos as [|r o rs os (_ & _ & Hs & Hp) _ IH];
      constructor; [|done].
    simpl. by apply display_plain. }
  eexists _, _, _. split_and!.
  - apply table_to_CSV_run with (os := os).
    eapply Forall2_impl; [done|]. by intros r o (? & [? _] & _).
  - by apply CSV_to_table_run.
  - unfold table_value, Table.get_entries, Table.get_column_names,
      Header.get_column_names.
    cbn [Table.header Table.entries Header.column_names].
    f_equal. rewrite Hinit, length_fmap, lookup_fresh_rows.
    apply list_eq. intros i. rewrite !list_lookup_fmap.
    destruct (Table.entries t !! i) as [r|] eqn:Hr; simpl.
    + destruct (Forall2_lookup_l _ _ _ _ _ Hos Hr) as (o & -> & Ho & _).
      simpl. congruence.
    + apply Forall2_length in Hos.
      rewrite (proj2 (lookup_ge_None os i)); [done|].
      rewrite <-Hos. by apply lookup_ge_None.
  - intros r Hr. by rewrite lookup_app_l.
  - cbn [Table.entries]. apply Forall_forall. intros r' Hr'.
    apply elem_of_seq in Hr'. lia.
Qed.

Lemma csv_round_trip_witness :
  let h : heap := [Entry.init 0 (Some ["Alice, A."; ""; "a@x.com"])] in
  let t := Table.mk (Header.mk ["Name"; "Note"; "Email"]) [0] in
  ∃ text t' h',
    table_to_CSV t h = (Ok text, h) ∧
    CSV_to_table text h = (Ok t', h') ∧
    table_value h' t' = table_value h t.
Proof.
  intros h t.
  destruct (csv_round_trip h t) as (text & t' & h' & Hw & Hr & Heq & _).
  - repeat constructor; by vm_compute.
  - constructor; [|constructor].
    exists (Entry.init 0 (Some ["Alice, A."; ""; "a@x.com"])).
    split_and!.
    + reflexivity.
    + unfold Entry_inv, Entry_wf, cell_ok. compute_done.
    + repeat constructor.
    + repeat constructor; by vm_compute.
  - by exists text, t', h'.
Defined.

(** * Further properties of the code *)

(** ** Specifications of computations: rules *)

Section hoare_rules.
Context {S : Type}.
Implicit Types (P I E : S → Prop).

Lemma hoare_ret {A} P (a : A) (Q : A → S → Prop) E :
  (∀ s, P s → Q a s) → hoare P (mret a) Q E.
Proof. intros H s Hs. by apply H. Qed.

Lemma hoare_bind {A B} P (m : M S A) (k : A → M S B)
    (Q' : A → S → Prop) (Q : B → S → Prop) E :
  hoare P m Q' E → (∀ a, hoare (Q' a) (k a) Q E) → hoare P (m ≫= k) Q E.
Proof.
  intros Hm Hk s Hs. unfold mbind, M_bind. specialize (Hm s Hs).
  destruct (m s) as [[a|err] s1]; [by apply Hk|done].
Qed.

Lemma hoare_pure {A} (φ : Prop) P (m : M S A) (Q : A → S → Prop) E :
  (φ → hoare P m Q E) → hoare (λ s, φ ∧ P s) m Q E.
Proof. intros H s [Hφ Hs]. by apply H. Qed.

Lemma hoare_for_each {A} I E (xs : list A) (body : A → M S unit) :
  (∀ x, x ∈ xs → hoare I (body x) (λ _, I) E) →
  hoare I (for_each xs body) (λ _, I) E.
Proof.
  induction xs as [|x xs IH]; intros Hb; simpl.
  - by apply hoare_ret.
  - eapply hoare_bind; [apply Hb; by left|]. intros [].
    apply IH. intros y Hy. apply Hb. by right.
Qed.

End hoare_rules.

(** ** What copying and merging can do to a store *)

Section store_invariants.
Local Set Default Proof Using "All".
(** [I] is a property of the store that allocation keeps and that the two
    mutators keep on the objects [good] singles out, fresh ones
    included. *)
Variable I : heap → Prop.
Variable good : ref → Prop.
Hypothesis I_alloc : ∀ o h, I h → I (h ++ [o]) ∧ good (length h).
Hypothesis I_append : ∀ r c v h,
  good r → I h → I (call r (Entry.append_value_to_column c v) h).2.

Lemma call_reads_state {A} (h : heap) r (f : Entry.t → outcome A) :
  (call r (reads f) h).2 = h.
Proof.
  unfold call. destruct (h !! r) as [o|] eqn:Hr; [|done].
  unfold reads. simpl. by apply list_insert_id.
Qed.

Lemma hoare_call_reads {A} r (f : Entry.t → outcome A) :
  hoare I (call r (reads f)) (λ _, I) I.
Proof.
  intros h Hh. pose proof (call_reads_state h r f) as Hst.
  destruct (call r (reads f) h) as [[a|err] h']; simpl in Hst;
    by rewrite Hst.
Qed.

Lemma hoare_call_append r c v :
  good r → hoare I (call r (Entry.append_value_to_column c v)) (λ _, I) I.
Proof.
  intros Hr h Hh. pose proof (I_append r c v h Hr Hh) as Hst.
  by destruct (call r _ h) as [[a|err] h'].
Qed.

Lemma hoare_copy_columns src r (columns : list Z) :
  good r →
  hoare I
    (for_each columns (λ column_index,
       column_values ←
         call src (reads (Entry.get_values_from_column column_index));
       for_each column_values (λ value,
         call r (Entry.append_value_to_column column_index value))))
    (λ _, I) I.
Proof.
  intros Hr. apply hoare_for_each. intros c _.
  eapply hoare_bind; [apply hoare_call_reads|]. intros vs.
  apply hoare_for_each. intros v _. by apply hoare_call_append.
Qed.

Lemma hoare_new length values :
  hoare I (Entry.new length values) (λ r h, good r ∧ I h) I.
Proof.
  intros h Hh. unfold Entry.new, alloc.
  by destruct (I_alloc (Entry.init length values) h Hh).
Qed.

Lemma hoare_get_deep_copy self :
  hoare I (Entry.get_deep_copy self) (λ r h, good r ∧ I h) I.
Proof.
  unfold Entry.get_deep_copy.
  eapply hoare_bind; [apply hoare_call_reads|]. intros n.
  eapply hoare_bind; [apply hoare_new|]. intros deep_copy. cbn beta.
  apply hoare_pure. intros Hgood.
  eapply hoare_bind; [apply hoare_call_reads|]. intros n'.
  eapply hoare_bind; [by apply hoare_copy_columns|]. intros [].
  by apply hoare_ret.
Qed.

Lemma hoare_merge_entries self entries :
  hoare I (Entry.merge_entries self entries) (λ r h, good r ∧ I h) I.
Proof.
  unfold Entry.merge_entries.
  eapply hoare_bind; [apply hoare_get_deep_copy|]. intros merged. cbn beta.
  apply hoare_pure. intros Hgood.
  destruct entries as [entries|]; [|by apply hoare_ret].
  case_decide; [by apply hoare_ret|].
  eapply hoare_bind with (Q' := λ _, I); [|intros []; by apply hoare_ret].
  apply hoare_for_each. intros entry _.
  eapply hoare_bind; [apply hoare_call_reads|]. intros n1.
  eapply hoare_bind; [apply hoare_call_reads|]. intros n2.
  by apply hoare_copy_columns.
Qed.

End store_invariants.

(** ** Stores only grow *)

Section growth_facts.
Implicit Types (h : heap) (r : ref) (e : Entry.t).

Lemma keeps_refl h : keeps h h.
Proof. by split. Qed.

Lemma keeps_alloc (h0 : heap) (o : Entry.t) h :
  keeps h0 h → keeps h0 (h ++ [o]) ∧ length h0 ≤ length h.
Proof.
  intros [Hlen Hsame]. split; [|done]. split.
  - rewrite length_app. lia.
  - intros r Hr. rewrite lookup_app_l by lia. by apply Hsame.
Qed.

Lemma keeps_call {A} (h0 : heap) h r (m : M Entry.t A) :
  length h0 ≤ r → keeps h0 h → keeps h0 (call r m h).2.
Proof.
  intros Hr [Hlen Hsame]. unfold call.
  destruct (h !! r) as [o|]; [|done]. destruct (m o) as [res o']. simpl.
  split.
  - by rewrite length_insert.
  - intros r' Hr'. rewrite list_lookup_insert_ne by lia. by apply Hsame.
Qed.

Lemma with_cell_column_count c f e :
  Entry.column_count (Entry.with_cell c f e).2 = Entry.column_count e.
Proof.
  unfold Entry.with_cell. destruct (py_index _ c) as [k|]; [|done].
  by destruct (Entry.cell_values e !! k).
Qed.

Lemma append_column_count c v e :
  Entry.column_count (Entry.append_value_to_column c v e).2
  = Entry.column_count e.
Proof.
  unfold Entry.append_value_to_column.
  destruct (Entry.out_of_bounds e c); [done|]. case_decide; [done|].
  apply with_cell_column_count.
Qed.

Lemma set_column_count c v e :
  Entry.column_count (Entry.set_value_at_column c v e).2
  = Entry.column_count e.
Proof.
  unfold Entry.set_value_at_column.
  destruct (Entry.out_of_bounds e c); [done|]. case_decide; [done|].
  unfold mbind, M_bind.
  pose proof (with_cell_column_count c dict_clear e) as H1.
  destruct (Entry.with_cell c dict_clear e) as [[[]|err] e1]; [|done].
  simpl in H1. rewrite <-H1. apply with_cell_column_count.
Qed.

Lemma grows_refl h : grows h h.
Proof. split; [done|]. eauto. Qed.

Lemma grows_trans (h0 h1 h2 : heap) : grows h0 h1 → grows h1 h2 → grows h0 h2.
Proof.
  intros [Hl1 H1] [Hl2 H2]. split; [lia|]. intros r e Hr.
  destruct (H1 r e Hr) as (e1 & Hr1 & Hc1).
  destruct (H2 r e1 Hr1) as (e2 & Hr2 & Hc2).
  exists e2. split; [done|congruence].
Qed.

Lemma grows_alloc (h0 : heap) (o : Entry.t) h : grows h0 h → grows h0 (h ++ [o]) ∧ True.
Proof.
  intros [Hlen Hsame]. split; [|done]. split.
  - rewrite length_app. lia.
  - intros r e Hr. destruct (Hsame r e Hr) as (e' & Hr' & Hc).
    exists e'. split; [by apply lookup_app_l_Some|done].
Qed.

Lemma grows_call {A} (h0 : heap) h r (m : M Entry.t A) :
  (∀ e, Entry.column_count (m e).2 = Entry.column_count e) →
  grows h0 h → grows h0 (call r m h).2.
Proof.
  intros Hm [Hlen Hsame]. unfold call.
  destruct (h !! r) as [o|] eqn:Ho; [|done].
  specialize (Hm o). destruct (m o) as [res o']. simpl in *.
  split.
  - by rewrite length_insert.
  - intros r' e Hr'. destruct (Hsame r' e Hr') as (e' & Hr'' & Hc).
    destruct (decide (r = r')) as [<-|Hne].
    + exists o'. split.
      * apply list_lookup_insert_eq. by eapply lookup_lt_Some.
      * simplify_eq. congruence.
    + exists e'. by rewrite list_lookup_insert_ne.
Qed.

Lemma run_op_grows op h : grows h (run_op op h).
Proof.
  pose proof (grows_refl h) as Hh.
  assert (∀ r c v h', True → grows h h' →
            grows h (call r (Entry.append_value_to_column c v) h').2) as Happ.
  { intros r c v h' _. apply grows_call. intros e. apply append_column_count. }
  destruct op as [n vs|r c v|r c v|r|r rs]; simpl.
  - by apply grows_alloc.
  - apply grows_call; [|done]. intros e. apply append_column_count.
  - apply grows_call; [|done]. intros e. apply set_column_count.
  - pose proof (hoare_get_deep_copy (grows h) (λ _, True)
                  (grows_alloc h) Happ r h Hh) as H.
    destruct (Entry.get_deep_copy r h) as [[c|err] h']; [by destruct H|done].
  - pose proof (hoare_merge_entries (grows h) (λ _, True)
                  (grows_alloc h) Happ r rs h Hh) as H.
    destruct (Entry.merge_entries r rs h) as [[c|err] h']; [by destruct H|done].
Qed.

Lemma run_ops_app ops ops' :
  run_ops (ops ++ ops') = foldl (λ h op, run_op op h) (run_ops ops) ops'.
Proof. unfold run_ops. apply foldl_app. Qed.
End growth_facts.

(** X1: whatever a program goes on to do with the public operations of
    [Entry], an entry it has built never disappears from the store and
    never changes its number of columns. *)
Theorem column_count_is_fixed
    (ops ops' : list entry_op) (r : ref) (e : Entry.t) :
  run_ops ops !! r = Some e →
  ∃ e', run_ops (ops ++ ops') !! r = Some e' ∧
        Entry.column_count e' = Entry.column_count e ∧
        len (Entry.cell_values e') = len (Entry.cell_values e).
Proof.
  intros Hr.
  assert (grows (run_ops ops) (run_ops (ops ++ ops'))) as [_ Hg].
  { rewrite run_ops_app. generalize (run_ops ops). clear.
    induction ops' as [|op ops' IH]; intros h; simpl.
    - apply grows_refl.
    - eapply grows_trans; [apply run_op_grows|apply IH]. }
  destruct (Hg r e Hr) as (e' & Hr' & Hc). exists e'.
  split_and!; [done..|].
  pose proof (Forall_lookup_1 _ _ _ _ (run_ops_inv ops) Hr) as [Hwf _].
  pose proof (Forall_lookup_1 _ _ _ _ (run_ops_inv (ops ++ ops')) Hr')
    as [Hwf' _].
  unfold Entry_wf in *. congruence.
Qed.

Lemma column_count_is_fixed_witness :
  let ops := [OpNew 0 (Some ["a"; "b"; "c"])] in
  let ops' := [OpAppend 0 1 "x"; OpSet 0 7 "y"; OpMerge 0 (Some [0; 5]);
               OpNew 9 None; OpSet 0 2 "z"] in
  ∃ e', run_ops (ops ++ ops') !! 0 = Some e' ∧ Entry.column_count e' = 3%Z.
Proof.
  intros ops ops'.
  destruct (column_count_is_fixed ops ops' 0
              (Entry.mk 3 [["a"]; ["b"]; ["c"]])) as (e' & He' & Hc & _).
  - reflexivity.
  - by exists e'.
Defined.

(** X2: [get_deep_copy] and [merge_entries] write to no entry that
    existed before the call, whatever their arguments and however they
    end; the reference they return is a new one. *)
Theorem copy_and_merge_touch_no_entry
    (h : heap) (self : ref) (entries : option (list ref)) (r : ref) :
  r < length h →
  (Entry.get_deep_copy self h).2 !! r = h !! r ∧
  (Entry.merge_entries self entries h).2 !! r = h !! r ∧
  (∀ c, (Entry.get_deep_copy self h).1 = Ok c → r < c) ∧
  (∀ c, (Entry.merge_entries self entries h).1 = Ok c → r < c).
Proof.
  intros Hr.
  assert (∀ r c v h', length h ≤ r → keeps h h' →
            keeps h (call r (Entry.append_value_to_column c v) h').2) as Happ.
  { intros. by apply keeps_call. }
  pose proof (hoare_get_deep_copy (keeps h) (λ c, length h ≤ c)
                (keeps_alloc h) Happ self h (keeps_refl h)) as Hcopy.
  pose proof (hoare_merge_entries (keeps h) (λ c, length h ≤ c)
                (keeps_alloc h) Happ self entries h (keeps_refl h)) as Hmerge.
  destruct (Entry.get_deep_copy self h) as [[c1|err1] h1];
    destruct (Entry.merge_entries self entries h) as [[c2|err2] h2];
    simpl; repeat match goal with H : _ ∧ _ |- _ => destruct H end;
    split_and!;
    try (match goal with H : keeps h _ |- _ => by apply H end);
    intros; simplify_eq; lia.
Qed.

Lemma copy_and_merge_touch_no_entry_witness :
  let h : heap := [Entry.init 0 (Some ["a"; "b"]); Entry.init 2 None] in
  (Entry.merge_entries 0 (Some [1; 0; 7]) h).2 !! 1 = h !! 1 ∧
  (Entry.get_deep_copy 4 h).2 !! 1 = h !! 1.
Proof.
  intros h.
  destruct (copy_and_merge_touch_no_entry h 4 (Some [1; 0; 7]) 1)
    as (Hc & _); [simpl; lia|].
  destruct (copy_and_merge_touch_no_entry h 0 (Some [1; 0; 7]) 1)
    as (_ & Hm & _); [simpl; lia|].
  by split.
Defined.

(** ** Entries: construction, display, and the reach of a mutation *)

Section entry_api_facts.
Implicit Types (e o : Entry.t) (d : list string) (v w sep : string) (c : Z).

Lemma join_seed_cells sep (values : list string) :
  join sep <$> seed_cells values = values.
Proof.
  unfold seed_cells. rewrite <-list_fmap_compose.
  rewrite <-(list_fmap_id values) at 2. apply list_fmap_ext.
  intros _ v _. simpl. by case_decide.
Qed.

Lemma display_init sep (row : list string) :
  Entry.get_value_str_from_columns sep (Entry.init 0 (Some row)) = Ok row.
Proof.
  rewrite get_value_str_from_columns_run by apply init_inv.
  rewrite init_from_row. cbn [Entry.cell_values]. by rewrite join_seed_cells.
Qed.

Lemma append_value_to_column_Ok c v e :
  Entry_wf e → (Entry.append_value_to_column c v e).1 = Ok tt.
Proof.
  intros Hwf. destruct (decide (0 ≤ c < Entry.column_count e)%Z).
  - by rewrite append_value_to_column_spec.
  - rewrite append_value_to_column_skip; [done|]. left. lia.
Qed.

Lemma set_value_at_column_Ok c v e :
  Entry_wf e → (Entry.set_value_at_column c v e).1 = Ok tt.
Proof.
  intros Hwf.
  destruct (decide ((0 ≤ c < Entry.column_count e)%Z ∧ v ≠ "")) as [[??]|Hn].
  - by rewrite set_value_at_column_spec.
  - rewrite set_value_at_column_skip; [done|].
    destruct (decide (v = "")); [by right|]. left.
    destruct (decide (0 ≤ c < Entry.column_count e)%Z); [by destruct Hn|lia].
Qed.

Lemma map_cell_lookup_eq k f e :
  Entry.cell_values (map_cell k f e) !! k = f <$> Entry.cell_values e !! k.
Proof. unfold map_cell. simpl. by apply list_lookup_alter_eq. Qed.
End entry_api_facts.

(** X3: a deep copy is a new object whose columns equal those of the
    original; nothing else in the store changes; and the two are
    independent: whatever is then done to one of them leaves the other as
    it was. *)
Theorem deep_copy_equal_and_independent
    (h : heap) (self : ref) (o : Entry.t) (m : M Entry.t unit) :
  h !! self = Some o → Entry_inv o →
  let copy := length h in
  Entry.get_deep_copy self h = (Ok copy, h ++ [o]) ∧
  copy ≠ self ∧
  (call copy m (h ++ [o])).2 !! self = Some o ∧
  (call self m (h ++ [o])).2 !! copy = Some o.
Proof.
  intros Hself [Hwf Hok] copy. pose proof (lookup_lt_Some _ _ _ Hself) as Hlt.
  assert ((h ++ [o]) !! copy = Some o) as Hcopy.
  { unfold copy. by rewrite lookup_app_r, Nat.sub_diag by done. }
  assert ((h ++ [o]) !! self = Some o) as Hself' by by apply lookup_app_l_Some.
  split_and!.
  - rewrite (get_deep_copy_run _ _ _ Hself Hwf). by rewrite copy_of_inv.
  - unfold copy. lia.
  - rewrite (call_run _ _ _ _ Hcopy). simpl.
    rewrite list_lookup_insert_ne by (unfold copy; lia). done.
  - rewrite (call_run _ _ _ _ Hself'). simpl.
    rewrite list_lookup_insert_ne by (unfold copy; lia). done.
Qed.

Lemma deep_copy_equal_and_independent_witness :
  let o := Entry.mk 2 [["a"; "b"]; []] in
  let h : heap := [Entry.init 3 None; o] in
  Entry.get_deep_copy 1 h = (Ok 2, h ++ [o]) ∧
  (call 2 (Entry.set_value_at_column 0 "z") (h ++ [o])).2 !! 1 = Some o.
Proof.
  intros o h.
  destruct (deep_copy_equal_and_independent h 1 o
              (Entry.set_value_at_column 0 "z")) as (Hc & _ & Hi & _).
  - reflexivity.
  - unfold Entry_inv, Entry_wf, cell_ok. compute_done.
  - by split.
Defined.

(** X4: an entry built from a non-empty list of values shows exactly these
    values, one per column, whatever the separator, and ignores the
    [length] argument; built from a length, or from an empty list of
    values, it shows that many empty columns, none for a negative
    length. *)
Theorem constructed_entry_display (n : Z) (values : list string) (sep : string) :
  (values ≠ [] →
   Entry.get_value_str_from_columns sep (Entry.init n (Some values))
   = Ok values ∧
   Entry.column_count (Entry.init n (Some values)) = len values) ∧
  Entry.get_value_str_from_columns sep (Entry.init n None)
  = Ok (replicate (Z.to_nat n) "") ∧
  Entry.init n (Some []) = Entry.init n None ∧
  Entry.column_count (Entry.init n None) = Z.max 0 n.
Proof.
  split_and!.
  - intros Hne. rewrite get_value_str_from_columns_run by apply init_inv.
    rewrite init_Some_values by done. simpl. by rewrite join_seed_cells.
  - rewrite get_value_str_from_columns_run by apply init_inv.
    rewrite init_length by auto. simpl. by rewrite fmap_replicate.
  - by rewrite !init_length by auto.
  - by rewrite init_length by auto.
Qed.

Lemma constructed_entry_display_witness :
  Entry.get_value_str_from_columns ", " (Entry.init 7 (Some [""; "B"]))
  = Ok [""; "B"].
Proof.
  destruct (constructed_entry_display 7 [""; "B"] ", ") as (H & _).
  apply H. discriminate.
Defined.

(** X5: on an entry whose column count is the number of its cells, the
    display methods never fail: [get_value_str_from_columns] returns one
    string per column, the values of the column joined by the separator,
    and [get_value_str_from_column] returns the string of its column for
    an index in range and the empty string for any other index. *)
Theorem display_methods_agree (e : Entry.t) (sep : string) (c : Z) :
  Entry_wf e →
  ∃ strings,
    Entry.get_value_str_from_columns sep e = Ok strings ∧
    strings = join sep <$> Entry.cell_values e ∧
    len strings = Entry.column_count e ∧
    Entry.get_value_str_from_column c sep e
    = Ok (if decide (0 ≤ c)%Z then default "" (strings !! Z.to_nat c) else "").
Proof.
  intros Hwf. eexists. split_and!; [by apply get_value_str_from_columns_run|done| |].
  - unfold len. by rewrite length_fmap, Hwf.
  - unfold Entry.get_value_str_from_column.
    destruct (Entry.out_of_bounds e c) eqn:Hb.
    + apply out_of_bounds_true in Hb. case_decide; [|done].
      rewrite (proj2 (lookup_ge_None _ _)); [done|].
      rewrite length_fmap. unfold Entry_wf, len in Hwf. lia.
    + apply out_of_bounds_false in Hb. rewrite decide_True by lia.
      destruct (lookup_lt_is_Some_2 (Entry.cell_values e) (Z.to_nat c))
        as [d Hd].
      { unfold Entry_wf, len in Hwf. lia. }
      rewrite (get_values_from_column_nonneg c e d) by (done || lia).
      by rewrite list_lookup_fmap, Hd.
Qed.

Lemma display_methods_agree_witness :
  let e := Entry.mk 2 [["a"; "b"]; ["c"]] in
  Entry.get_value_str_from_columns "; " e = Ok ["a; b"; "c"] ∧
  Entry.get_value_str_from_column 5 "; " e = Ok "".
Proof.
  intros e.
  destruct (display_methods_agree e "; " 5) as (strings & Hs & -> & _ & Hc);
    [reflexivity|].
  split; [exact Hs|exact Hc].
Defined.

(** X6: the two mutators never fail on such an entry and reach one column
    only: the column count and every other column stay as they were.  In
    the column it reaches, [append_value_to_column] keeps the values
    already there, in their order, and puts a new non-empty value last. *)
Theorem mutators_reach_one_column
    (e : Entry.t) (c : Z) (v : string) (k : nat) :
  Entry_wf e →
  let appended := Entry.append_value_to_column c v e in
  let set := Entry.set_value_at_column c v e in
  appended.1 = Ok tt ∧ set.1 = Ok tt ∧
  Entry.column_count appended.2 = Entry.column_count e ∧
  Entry.column_count set.2 = Entry.column_count e ∧
  (Z.of_nat k ≠ c →
   Entry.cell_values appended.2 !! k = Entry.cell_values e !! k ∧
   Entry.cell_values set.2 !! k = Entry.cell_values e !! k) ∧
  (Z.of_nat k = c →
   Entry.cell_values appended.2 !! k
   = (λ d, if decide (v = "" ∨ v ∈ d) then d else d ++ [v])
       <$> Entry.cell_values e !! k).
Proof.
  intros Hwf appended set. subst appended set.
  split_and!.
  - by apply append_value_to_column_Ok.
  - by apply set_value_at_column_Ok.
  - apply append_column_count.
  - apply set_column_count.
  - intros Hk. split.
    + destruct (decide (0 ≤ c < Entry.column_count e)%Z).
      * rewrite append_value_to_column_spec by done. simpl.
        apply list_lookup_alter_ne. lia.
      * rewrite append_value_to_column_skip; [done|]. left. lia.
    + destruct (decide ((0 ≤ c < Entry.column_count e)%Z ∧ v ≠ ""))
        as [[??]|Hn].
      * rewrite set_value_at_column_spec by done. simpl.
        apply list_lookup_alter_ne. lia.
      * rewrite set_value_at_column_skip; [done|].
        destruct (decide (v = "")); [by right|]. left.
        destruct (decide (0 ≤ c < Entry.column_count e)%Z);
          [by destruct Hn|lia].
  - intros <-.
    destruct (Entry.cell_values e !! k) as [d|] eqn:Hd; simpl.
    + pose proof (lookup_lt_Some _ _ _ Hd) as Hlt.
      rewrite append_value_to_column_spec;
        [|done|unfold Entry_wf, len in Hwf; lia].
      simpl. rewrite Nat2Z.id, list_lookup_alter_eq, Hd. simpl.
      by rewrite <-spec_append_value_add.
    + apply lookup_ge_None in Hd.
      rewrite append_value_to_column_skip; [by apply lookup_ge_None|].
      left. unfold Entry_wf, len in Hwf. lia.
Qed.

Lemma mutators_reach_one_column_witness :
  let e := Entry.mk 2 [["a"]; ["c"]] in
  Entry.cell_values (Entry.append_value_to_column 0 "b" e).2 !! 0
  = Some ["a"; "b"] ∧
  Entry.cell_values (Entry.set_value_at_column 0 "b" e).2 !! 1 = Some ["c"].
Proof.
  intros e.
  destruct (mutators_reach_one_column e 0 "b" 0) as (_ & _ & _ & _ & _ & Ha);
    [reflexivity|].
  destruct (mutators_reach_one_column e 0 "b" 1) as (_ & _ & _ & _ & Hs & _);
    [reflexivity|].
  split; [by apply Ha|]. by apply Hs.
Defined.

(** X7: replacing wins over what came before and appending adds after it:
    with two non-empty values and a column in range, setting [w] after
    setting or appending [v] leaves exactly [w]; appending [w] after
    setting [v] leaves [v] then [w], or [v] alone when they are equal. *)
Theorem set_and_append_compose (e : Entry.t) (c : Z) (v w : string) :
  Entry_wf e → (0 ≤ c < Entry.column_count e)%Z → v ≠ "" → w ≠ "" →
  let set_v := (Entry.set_value_at_column c v e).2 in
  let app_v := (Entry.append_value_to_column c v e).2 in
  Entry.set_value_at_column c w set_v = Entry.set_value_at_column c w e ∧
  Entry.set_value_at_column c w app_v = Entry.set_value_at_column c w e ∧
  Entry.get_values_from_column c (Entry.append_value_to_column c w set_v).2
  = Ok (if decide (w = v) then [v] else [v; w]).
Proof.
  intros Hwf Hc Hv Hw set_v app_v. subst set_v app_v.
  rewrite (set_value_at_column_spec c v), (append_value_to_column_spec c v)
    by done. cbn [snd].
  rewrite !set_value_at_column_spec, append_value_to_column_spec
    by (done || by apply map_cell_wf).
  rewrite !map_cell_map_cell. split_and!; [done..|]. cbn [snd].
  apply get_values_from_column_nonneg; [lia|].
  rewrite map_cell_lookup_eq.
  destruct (lookup_lt_is_Some_2 (Entry.cell_values e) (Z.to_nat c)) as [d ->].
  { unfold Entry_wf, len in Hwf. lia. }
  simpl. unfold add_value, dict_update. rewrite decide_False by done.
  destruct (decide (w = v)) as [->|Hne].
  - rewrite decide_True; [done|]. by left.
  - rewrite decide_False; [done|]. by intros ->%list_elem_of_singleton.
Qed.

Lemma set_and_append_compose_witness :
  let e := Entry.mk 2 [["a"; "b"]; ["c"]] in
  Entry.get_values_from_column 0
    (Entry.append_value_to_column 0 "y"
       (Entry.set_value_at_column 0 "x" e).2).2
  = Ok ["x"; "y"].
Proof.
  intros e.
  destruct (set_and_append_compose e 0 "x" "y") as (_ & _ & H);
    [reflexivity|by vm_compute|discriminate|discriminate|].
  exact H.
Defined.

(** ** Tables: rows are copied in, then shared *)

Section table_facts.
Implicit Types (t : Table.t) (h : heap) (os : list Entry.t).

Lemma stored_rows h (P : Entry.t → Prop) (rows : list ref) :
  Forall (λ r, ∃ e, h !! r = Some e ∧ P e) rows →
  ∃ os, Forall2 (λ r o, h !! r = Some o ∧ P o) rows os.
Proof.
  induction 1 as [|r rs (e & He) _ [os IH]].
  - by exists [].
  - exists (e :: os). by constructor.
Qed.

Lemma lookup_new_rows h os :
  Forall2 (λ r o, (h ++ os) !! r = Some o) (seq (length h) (length os)) os.
Proof.
  apply Forall2_same_length_lookup_2.
  { by rewrite length_seq. }
  intros i r o Hr Ho. apply lookup_seq in Hr as [-> _].
  by rewrite lookup_app_r, Nat.add_comm, Nat.add_sub by lia.
Qed.

Lemma keeps_app h os : keeps h (h ++ os).
Proof.
  split.
  - rewrite length_app. lia.
  - intros r Hr. by rewrite lookup_app_l.
Qed.

Lemma call_lookup_ne {A} h r r' (m : M Entry.t A) :
  r ≠ r' → (call r m h).2 !! r' = h !! r'.
Proof.
  intros Hne. unfold call. destruct (h !! r) as [o|]; [|done].
  destruct (m o) as [res o']. simpl. by apply list_lookup_insert_ne.
Qed.

Lemma Table_eta t : Table.mk (Table.header t) (Table.entries t) = t.
Proof. by destruct t. Qed.

Lemma list_insert_at_clamped {A} (l : list A) (i : Z) (x : A) :
  let k := Z.to_nat (Z.max 0 (Z.min (len l)
                                    (if (i <? 0)%Z then len l + i else i))) in
  k ≤ length l ∧ list_insert_at l i x = take k l ++ x :: drop k l.
Proof.
  intros k. subst k. unfold list_insert_at, len. split.
  - destruct (Z.ltb_spec i 0); lia.
  - repeat f_equal.
    all: destruct (Z.ltb_spec i 0);
      match goal with
      | |- context [(?a <? ?b)%Z] => destruct (Z.ltb_spec a b)
      end; lia.
Qed.
End table_facts.

(** X8: a table built from entries holds a deep copy of each of them, in
    their order: its rows are new objects, pairwise distinct even when
    one entry is given twice, equal in value to the entries given, and
    the entries given, like everything else in the store, stay as they
    were.  Built without entries, the table is empty. *)
Theorem table_rows_are_copies
    (h : heap) (header : Header.t) (entries : list ref) (os : list Entry.t) :
  Forall2 (λ r o, h !! r = Some o ∧ Entry_inv o) entries os →
  Table.init header None h = (Ok (Table.mk header []), h) ∧
  ∃ t h',
    Table.init header (Some entries) h = (Ok t, h') ∧
    Table.get_header t = header ∧
    Table.get_entry_count t = len entries ∧
    keeps h h' ∧
    Forall (λ r, length h ≤ r) (Table.get_entries t) ∧
    NoDup (Table.get_entries t) ∧
    Forall2 (λ r o, h' !! r = Some o) (Table.get_entries t) os.
Proof.
  intros Hrows. split; [done|].
  pose proof (Forall2_length _ _ _ Hrows) as Hlen.
  eexists _, _. split_and!.
  - by apply Table_init_run.
  - done.
  - unfold Table.get_entry_count, len. simpl. by rewrite length_seq.
  - apply keeps_app.
  - apply Forall_forall. intros r Hr. simpl in Hr.
    apply elem_of_seq in Hr. lia.
  - apply NoDup_seq.
  - unfold Table.get_entries. simpl. rewrite Hlen. apply lookup_new_rows.
Qed.

Lemma table_rows_are_copies_witness :
  let o := Entry.mk 1 [["a"]] in
  ∃ t h',
    Table.init (Header.mk ["Tag"]) (Some [0; 0]) [o] = (Ok t, h') ∧
    NoDup (Table.get_entries t) ∧
    Forall2 (λ r o, h' !! r = Some o) (Table.get_entries t) [o; o].
Proof.
  intros o.
  destruct (table_rows_are_copies [o] (Header.mk ["Tag"]) [0; 0] [o; o])
    as (_ & t & h' & Hrun & _ & _ & _ & _ & Hnd & Hval).
  - assert (Entry_inv o) by (unfold Entry_inv, Entry_wf, cell_ok; compute_done).
    constructor; [done|]. constructor; [done|]. constructor.
  - by exists t, h'.
Defined.

(** X9: the deep copy of a table has the header and, row by row, the
    values of the original, and shares no row with it: whatever is then
    done to a row of the copy, the original table reads as before. *)
Theorem table_deep_copy_is_independent
    (h : heap) (t : Table.t) (r : ref) (m : M Entry.t unit) :
  Forall (λ r, ∃ e, h !! r = Some e ∧ Entry_inv e) (Table.entries t) →
  ∃ t' h',
    Table.get_deep_copy t h = (Ok t', h') ∧
    table_value h' t' = table_value h t ∧
    keeps h h' ∧
    (r ∈ Table.entries t' →
     (r ∉ Table.entries t) ∧
     table_value (call r m h').2 t = table_value h t).
Proof.
  intros Hrows. destruct (stored_rows _ _ _ Hrows) as [os Hos].
  pose proof (Forall2_length _ _ _ Hos) as Hlen.
  assert (∀ r', r' ∈ Table.entries t → r' < length h) as Hold.
  { intros r' Hr'. apply (proj1 (Forall_forall _ _) Hrows) in Hr'
      as (e & He & _). by eapply lookup_lt_Some. }
  eexists _, _. split_and!.
  - unfold Table.get_deep_copy. by apply Table_init_run.
  - unfold table_value, Table.get_entries, Table.get_column_names. simpl.
    f_equal. apply list_eq. intros i. rewrite !list_lookup_fmap.
    destruct (Table.entries t !! i) as [r'|] eqn:Hr'; simpl.
    + destruct (Forall2_lookup_l _ _ _ _ _ Hos Hr') as (o & Ho & Hr'o & _).
      rewrite lookup_seq_lt by (by eapply lookup_lt_Some). simpl.
      rewrite lookup_app_r, Nat.add_comm, Nat.add_sub by lia. congruence.
    + rewrite lookup_seq_ge; [done|]. by apply lookup_ge_None.
  - apply keeps_app.
  - simpl. intros Hr%elem_of_seq. split.
    + intros Hin%Hold. lia.
    + unfold table_value. f_equal. apply list_fmap_ext.
      intros _ r' Hr'%list_elem_of_lookup_2. simpl.
      apply Hold in Hr'.
      rewrite call_lookup_ne by lia. by apply lookup_app_l.
Qed.

Lemma table_deep_copy_is_independent_witness :
  let h : heap := [Entry.mk 1 [["a"]]] in
  let t := Table.mk (Header.mk ["Tag"]) [0] in
  ∃ t' h',
    Table.get_deep_copy t h = (Ok t', h') ∧
    table_value h' t' = table_value h t.
Proof.
  intros h t.
  destruct (table_deep_copy_is_independent h t 1
              (Entry.set_value_at_column 0 "z"))
    as (t' & h' & Hrun & Hval & _).
  - constructor; [|constructor]. eexists. split; [reflexivity|].
    unfold Entry_inv, Entry_wf, cell_ok. compute_done.
  - by exists t', h'.
Defined.

(** X10: [append_entry] and [insert_entry] store the entry given, not a
    copy of it, and add one row.  After [append_entry] the entry is the
    last row.  After [insert_entry] with an index that fits the machine
    word of [list.insert], it is the row at the index given, taken from
    the end when negative and brought into the range from 0 to the old
    number of rows; taking that row out again gives the old rows in
    their order. *)
Theorem inserted_entry_is_found (t : Table.t) (index : Z) (entry : ref) :
  let n := Table.get_entry_count t in
  let appended := (Table.append_entry entry t).2 in
  let inserted := (Table.insert_entry index entry t).2 in
  let k := Z.max 0 (Z.min n (if (index <? 0)%Z then n + index else index)) in
  Table.get_entry_count appended = (n + 1)%Z ∧
  Table.get_entry n appended = Ok entry ∧
  Table.get_entry (-1) appended = Ok entry ∧
  (∀ i, (0 ≤ i < n)%Z → Table.get_entry i appended = Table.get_entry i t) ∧
  (fits_ssize_t index →
   Table.insert_entry index entry t = (Ok tt, inserted) ∧
   Table.get_entry_count inserted = (n + 1)%Z ∧
   Table.get_entry k inserted = Ok entry ∧
   delete (Z.to_nat k) (Table.get_entries inserted) = Table.get_entries t).
Proof.
  intros n appended inserted k.
  subst n appended inserted k.
  unfold Table.get_entry_count, Table.get_entry, Table.get_entries. simpl.
  destruct (list_insert_at_clamped (Table.entries t) index entry)
    as [Hk Hins].
  set (k := Z.to_nat _) in Hk, Hins. rewrite Hins.
  assert (length (take k (Table.entries t)) = k) as Htake
    by (rewrite length_take; lia).
  split_and!; [| | | |intros _; split_and!].
  - unfold len. rewrite length_app. simpl. lia.
  - destruct (list_getitem_nonneg (Table.entries t ++ [entry])
                (len (Table.entries t))) as (x & Hx & ->).
    { unfold len. rewrite length_app. simpl. lia. }
    unfold len in Hx. rewrite Nat2Z.id, lookup_app_r, Nat.sub_diag in Hx by done.
    simpl in Hx. congruence.
  - destruct (list_getitem_neg (Table.entries t ++ [entry]) (-1))
      as (x & Hx & ->).
    { unfold len. rewrite length_app. simpl. lia. }
    unfold len in Hx. rewrite length_app in Hx. simpl in Hx.
    replace (Z.to_nat (Z.of_nat (length (Table.entries t) + 1) + -1))
      with (length (Table.entries t)) in Hx by lia.
    rewrite lookup_app_r, Nat.sub_diag in Hx by done.
    simpl in Hx. congruence.
  - intros i Hi.
    destruct (list_getitem_nonneg (Table.entries t ++ [entry]) i)
      as (x & Hx & ->).
    { unfold len in *. rewrite length_app. simpl. lia. }
    destruct (list_getitem_nonneg (Table.entries t) i) as (y & Hy & ->);
      [done|].
    rewrite lookup_app_l in Hx by (unfold len in Hi; lia). congruence.
  - unfold Table.insert_entry. by rewrite Hins.
  - unfold len. rewrite length_app. simpl. rewrite Htake, length_drop. lia.
  - match goal with
    | |- list_getitem ?l ?i = _ =>
        destruct (list_getitem_nonneg l i) as (x & Hx & ->)
    end.
    { unfold len. rewrite length_app. simpl. rewrite Htake, length_drop.
      destruct (Z.ltb_spec index 0); unfold len; lia. }
    fold k in Hx.
    rewrite lookup_app_r, Htake, Nat.sub_diag in Hx by lia.
    simpl in Hx. congruence.
  - fold k. rewrite <-Htake at 1. rewrite delete_middle.
    apply take_drop.
Qed.

Lemma inserted_entry_is_found_witness :
  let t := Table.mk (Header.mk ["Tag"]) [4; 5] in
  Table.get_entry 1 (Table.insert_entry (-1) 7 t).2 = Ok 7 ∧
  Table.get_entry 0 (Table.append_entry 7 t).2 = Table.get_entry 0 t.
Proof.
  intros t.
  destruct (inserted_entry_is_found t (-1) 7) as (_ & _ & _ & Ha & Hfits).
  destruct (Hfits ltac:(by vm_compute)) as (_ & _ & Hi & _).
  split; [exact Hi|]. apply Ha. by vm_compute.
Defined.

(** X11: an insertion is undone by the removal at the same place, and a
    removal by the insertion of what it returned: for an index from 0 to
    the number of rows, [pop_entry] after [insert_entry] returns the
    entry and the table as it was, [insert_entry] after a successful
    [pop_entry] at an index that is not negative gives the table back,
    and so does [remove_entry] after [append_entry] of an entry that was
    not a row of the table. *)
Theorem insert_and_pop_are_inverse (t : Table.t) (index : Z) (entry : ref) :
  ((0 ≤ index ≤ Table.get_entry_count t)%Z →
   Table.pop_entry index (Table.insert_entry index entry t).2
   = (Ok entry, t)) ∧
  ((0 ≤ index)%Z →
   ∀ r t', Table.pop_entry index t = (Ok r, t') →
           Table.insert_entry index r t' = (Ok tt, t)) ∧
  (entry ∉ Table.entries t →
   Table.remove_entry entry (Table.append_entry entry t).2 = (Ok entry, t)).
Proof.
  unfold Table.get_entry_count, Table.pop_entry, Table.insert_entry,
    Table.remove_entry, Table.append_entry. simpl.
  split_and!.
  - intros Hi. rewrite list_insert_at_nonneg by done.
    assert (length (take (Z.to_nat index) (Table.entries t)) = Z.to_nat index)
      as Htake by (rewrite length_take; unfold len in Hi; lia).
    unfold list_pop. rewrite py_index_nonneg.
    2:{ unfold len in *. rewrite length_app. simpl.
        rewrite Htake, length_drop. lia. }
    rewrite lookup_app_r, Htake, Nat.sub_diag by lia. simpl.
    rewrite <-Htake at 1. rewrite delete_middle, take_drop.
    by rewrite Table_eta.
  - intros Hi r t'. unfold list_pop.
    destruct (py_index (Table.entries t) index) as [k|] eqn:Hk; [|done].
    destruct (Table.entries t !! k) as [x|] eqn:Hx; [|done].
    intros [= <- <-]. simpl.
    apply py_index_Some in Hk as [Hlt [[Hr ->]|[? _]]]; [|lia].
    rewrite list_insert_at_nonneg.
    2:{ unfold len in *. rewrite length_delete by (by eexists). lia. }
    rewrite delete_take_drop.
    assert (length (take (Z.to_nat index) (Table.entries t))
            = Z.to_nat index) as Htake by (rewrite length_take; lia).
    rewrite take_app_length', drop_app_length' by done.
    rewrite (take_drop_middle _ _ _ Hx). by rewrite Table_eta.
  - intros Hnot.
    assert (list_remove Entry.eq (Table.entries t ++ [entry]) entry
            = Ok (Table.entries t)) as ->; [|by rewrite Table_eta].
    induction (Table.entries t) as [|y l IH]; simpl.
    + unfold Entry.eq. by rewrite bool_decide_eq_true_2.
    + apply not_elem_of_cons in Hnot as [Hne Hnot].
      unfold Entry.eq at 1. rewrite bool_decide_eq_false_2 by congruence.
      by rewrite IH.
Qed.

Lemma insert_and_pop_are_inverse_witness :
  let t := Table.mk (Header.mk ["Tag"]) [4; 5] in
  Table.pop_entry 1 (Table.insert_entry 1 7 t).2 = (Ok 7, t) ∧
  Table.remove_entry 7 (Table.append_entry 7 t).2 = (Ok 7, t).
Proof.
  intros t.
  destruct (insert_and_pop_are_inverse t 1 7) as (Hp & _ & Hr).
  split.
  - apply Hp. by vm_compute.
  - apply Hr. compute_done.
Defined.

(** ** Merging: an ordered union, column by column *)

Section merge_union_facts.
Implicit Types (o e : Entry.t) (os : list Entry.t) (d vs : list string).

Lemma add_value_union d v :
  ∃ d', add_value d v = d ++ d' ∧
        ∀ w, w ∈ d ++ d' ↔ w ∈ d ∨ (w ≠ "" ∧ w = v).
Proof.
  unfold add_value, dict_update.
  destruct (decide (v = "")) as [->|Hv]; [|destruct (decide (v ∈ d))].
  - exists []. rewrite app_nil_r. split; [done|]. intros w.
    split; [by left|]. by intros [?|[? ?]].
  - exists []. rewrite app_nil_r. split; [done|]. intros w.
    split; [by left|]. by intros [?|[_ ->]].
  - exists [v]. split; [done|]. intros w.
    rewrite elem_of_app, list_elem_of_singleton. split.
    + intros [? | ->]; [by left|by right].
    + intros [?|[_ ->]]; [by left|by right].
Qed.

Lemma add_values_union d vs :
  ∃ d', add_values d vs = d ++ d' ∧
        ∀ w, w ∈ d ++ d' ↔ w ∈ d ∨ (w ≠ "" ∧ w ∈ vs).
Proof.
  unfold add_values. revert d.
  induction vs as [|v vs IH]; intros d; simpl.
  - exists []. rewrite app_nil_r. split; [done|]. intros w.
    split; [by left|]. by intros [?|[_ ?%elem_of_nil]].
  - destruct (add_value_union d v) as (d1 & -> & H1).
    destruct (IH (d ++ d1)) as (d2 & -> & H2).
    exists (d1 ++ d2). rewrite app_assoc. split; [done|]. intros w.
    rewrite H2, H1, elem_of_cons. split.
    + intros [[?|[? ->]]|[? ?]]; [by left|right..]; split; auto.
    + intros [?|[? [->|?]]]; [by left; left|by left; right|by right].
Qed.

Lemma add_values_known d vs : vs ⊆ d → add_values d vs = d.
Proof.
  unfold add_values. induction vs as [|v vs IH]; intros Hsub; simpl; [done|].
  assert (add_value d v = d) as ->.
  { unfold add_value, dict_update. case_decide; [done|].
    rewrite decide_True; [done|]. apply Hsub. by left. }
  apply IH. intros w Hw. apply Hsub. by right.
Qed.

Lemma merged_column_union (cond : Entry.t → Prop)
    `{!∀ o', Decision (cond o')} (k : nat) os d :
  ∃ d',
    foldl (λ column other,
             if decide (cond other)
             then foldl spec_append_value column
                        (default [] (Entry.cell_values other !! k))
             else column) d os
    = d ++ d' ∧
    ∀ w, w ∈ d ++ d' ↔
         w ∈ d ∨
         (w ≠ "" ∧ ∃ o' d2, o' ∈ os ∧ cond o' ∧
                            Entry.cell_values o' !! k = Some d2 ∧ w ∈ d2).
Proof.
  revert d. induction os as [|o' os IH]; intros d; simpl.
  - exists []. rewrite app_nil_r. split; [done|]. intros w.
    split; [by left|]. intros [?|(_ & ? & ? & []%elem_of_nil & _)]. done.
  - destruct (decide (cond o')) as [Hc|Hc].
    + rewrite spec_append_values_add.
      destruct (add_values_union d (default [] (Entry.cell_values o' !! k)))
        as (d1 & -> & H1).
      destruct (IH (d ++ d1)) as (d2 & -> & H2).
      exists (d1 ++ d2). rewrite app_assoc. split; [done|]. intros w.
      rewrite H2, H1. split.
      * intros [[?|[Hw Hin]]|(Hw & o2 & d3 & ? & ? & ? & ?)]; [by left| |].
        -- right. split; [done|].
           destruct (Entry.cell_values o' !! k) as [d3|] eqn:Hd3;
             [|by apply elem_of_nil in Hin].
           exists o', d3. split_and!; [by left|done..].
        -- right. split; [done|]. exists o2, d3. split_and!; [by right|done..].
      * intros [?|(Hw & o2 & d3 & [->|?]%elem_of_cons & ? & Hd3 & ?)].
        -- by left; left.
        -- left. right. split; [done|]. by rewrite Hd3.
        -- right. split; [done|]. by exists o2, d3.
    + destruct (IH d) as (d2 & -> & H2). exists d2. split; [done|].
      intros w. rewrite H2. split.
      * intros [?|(Hw & o2 & d3 & ? & ? & ? & ?)]; [by left|].
        right. split; [done|]. exists o2, d3. split_and!; [by right|done..].
      * intros [?|(Hw & o2 & d3 & [->|?]%elem_of_cons & ? & Hd3 & ?)];
          [by left|done|].
        right. split; [done|]. by exists o2, d3.
Qed.

Lemma absorb_range_inv a n o e : Entry_inv e → Entry_inv (absorb_range a n o e).
Proof.
  intros [Hwf Hok]. split; [by apply absorb_range_wf|].
  unfold absorb_range. simpl. apply Forall_lookup. intros i d.
  rewrite list_lookup_imap.
  destruct (Entry.cell_values e !! i) as [d0|] eqn:Hd0; [|done].
  simpl. intros [= <-].
  pose proof (proj1 (Forall_lookup _ _) Hok _ _ Hd0) as Hd.
  case_decide; [by apply add_values_ok|done].
Qed.

Lemma merge_of_inv o os : Entry_inv o → Entry_inv (merge_of o os).
Proof.
  intros Hinv. unfold merge_of. rewrite copy_of_inv by done.
  assert (∀ (n : Entry.t → nat) e,
            Entry_inv e →
            Entry_inv (foldl (λ e o', absorb_range 0 (n o') o' e) e os)) as H.
  { clear. intros n. induction os as [|o' os IH]; intros e He; simpl; [done|].
    apply IH. by apply absorb_range_inv. }
  by apply (H (λ o', Z.to_nat (Z.min (Entry.column_count o)
                                     (Entry.column_count o')))).
Qed.

Lemma absorb_range_known n o' e :
  (∀ (k : nat) d d2, Entry.cell_values e !! k = Some d →
                     Entry.cell_values o' !! k = Some d2 → d2 ⊆ d) →
  absorb_range 0 n o' e = e.
Proof.
  intros Hsub. unfold absorb_range. destruct e as [cc cells]. simpl in *.
  f_equal. apply list_eq. intros i. rewrite list_lookup_imap.
  destruct (cells !! i) as [d|] eqn:Hd; [|done]. simpl.
  case_decide; [|done]. f_equal.
  destruct (Entry.cell_values o' !! i) as [d2|] eqn:Hd2; simpl; [|done].
  apply add_values_known. by eapply Hsub.
Qed.
End merge_union_facts.

(** X12: each column of a merged entry is the ordered union of the
    columns merged: it begins with the values of [self], in their order,
    and a value is in it exactly when it is in the column of [self], or
    is a non-empty value of that column in one of the other entries that
    have this column.  No value is lost and none is invented. *)
Theorem merged_column_is_union
    (h : heap) (self : ref) (others : list ref)
    (o : Entry.t) (os : list Entry.t) (k : nat) (d : list string) :
  h !! self = Some o → Entry_inv o →
  Forall2 (λ r o', h !! r = Some o' ∧ Entry_wf o') others os →
  Entry.cell_values o !! k = Some d →
  ∃ merged d',
    Entry.merge_entries self (Some others) h
    = (Ok (length h), h ++ [merged]) ∧
    Entry.cell_values merged !! k = Some (d ++ d') ∧
    ∀ v, v ∈ d ++ d' ↔
         v ∈ d ∨
         (v ≠ "" ∧
          ∃ o' d2, o' ∈ os ∧ (Z.of_nat k < Entry.column_count o')%Z ∧
                   Entry.cell_values o' !! k = Some d2 ∧ v ∈ d2).
Proof.
  intros Hself Hinv Hothers Hd. pose proof Hinv as [Hwf _].
  assert (Z.of_nat k < Entry.column_count o)%Z as Hk.
  { apply lookup_lt_Some in Hd. unfold Entry_wf, len in Hwf. lia. }
  destruct (merged_column_union
              (λ o', (Z.of_nat k < Z.min (Entry.column_count o)
                                         (Entry.column_count o'))%Z) k os d)
    as (d' & Hfold & Hmem).
  exists (merge_of o os), d'. split_and!.
  - by apply merge_entries_run.
  - unfold merge_of. rewrite copy_of_inv by done.
    rewrite absorbed_cells_lookup, Hd. simpl. f_equal. exact Hfold.
  - intros v. rewrite Hmem. split.
    + intros [?|(? & o' & d2 & ? & ? & ? & ?)]; [by left|].
      right. split; [done|]. exists o', d2. split_and!; [done|lia|done..].
    + intros [?|(? & o' & d2 & ? & ? & ? & ?)]; [by left|].
      right. split; [done|]. exists o', d2. split_and!; [done|lia|done..].
Qed.

Lemma merged_column_is_union_witness :
  let a := Entry.mk 2 [["x"; "y"]; ["p"]] in
  let b := Entry.mk 1 [["z"; "x"]] in
  ∃ merged d',
    Entry.merge_entries 0 (Some [1]) [a; b] = (Ok 2, [a; b] ++ [merged]) ∧
    Entry.cell_values merged !! 0 = Some (["x"; "y"] ++ d').
Proof.
  intros a b.
  destruct (merged_column_is_union [a; b] 0 [1] a [b] 0 ["x"; "y"])
    as (merged & d' & Hrun & Hcol & _).
  - reflexivity.
  - unfold Entry_inv, Entry_wf, cell_ok. compute_done.
  - constructor; [|constructor]. by split.
  - reflexivity.
  - by exists merged, d'.
Defined.

(** X13: merging in two steps is merging at once: the merge of [self]
    with a first list of entries, merged in turn with a second list,
    equals the merge of [self] with the two lists one after the other. *)
Theorem merge_in_steps
    (h : heap) (self : ref) (first second : list ref)
    (o : Entry.t) (os1 os2 : list Entry.t) :
  h !! self = Some o → Entry_inv o →
  Forall2 (λ r o', h !! r = Some o' ∧ Entry_wf o') first os1 →
  Forall2 (λ r o', h !! r = Some o' ∧ Entry_wf o') second os2 →
  ∃ m1 m,
    Entry.merge_entries self (Some first) h = (Ok (length h), h ++ [m1]) ∧
    Entry.merge_entries (length h) (Some second) (h ++ [m1])
    = (Ok (S (length h)), h ++ [m1; m]) ∧
    Entry.merge_entries self (Some (first ++ second)) h
    = (Ok (length h), h ++ [m]).
Proof.
  intros Hself Hinv H1 H2. pose proof Hinv as [Hwf _].
  pose proof (merge_of_inv o os1 Hinv) as Hinv1.
  exists (merge_of o os1), (merge_of (merge_of o os1) os2). split_and!.
  - by apply merge_entries_run.
  - rewrite (merge_entries_run (h ++ [merge_of o os1]) (length h)
               (merge_of o os1) second os2).
    + rewrite length_app. simpl. rewrite Nat.add_1_r.
      by rewrite <-app_assoc.
    + by rewrite lookup_app_r, Nat.sub_diag by done.
    + by destruct Hinv1.
    + eapply Forall2_impl; [done|]. intros r o' [? ?].
      split; [by apply lookup_app_l_Some|done].
  - rewrite (merge_entries_run h self o (first ++ second) (os1 ++ os2))
      by (done || by apply Forall2_app).
    do 3 f_equal. unfold merge_of at 1 2.
    rewrite foldl_app. rewrite (copy_of_inv (merge_of o os1)) by done.
    fold (merge_of o os1).
    assert (Entry.column_count (merge_of o os1) = Entry.column_count o) as ->;
      [|done].
    unfold merge_of. rewrite absorbed_column_count.
    by rewrite copy_of_inv.
Qed.

Lemma merge_in_steps_witness :
  let a := Entry.mk 1 [["x"]] in
  let b := Entry.mk 1 [["y"]] in
  let c := Entry.mk 1 [["z"; "x"]] in
  ∃ m1 m,
    Entry.merge_entries 0 (Some [1]) [a; b; c] = (Ok 3, [a; b; c] ++ [m1]) ∧
    Entry.merge_entries 0 (Some ([1] ++ [2])) [a; b; c]
    = (Ok 3, [a; b; c] ++ [m]).
Proof.
  intros a b c.
  destruct (merge_in_steps [a; b; c] 0 [1] [2] a [b] [c])
    as (m1 & m & Hm1 & _ & Hm).
  - reflexivity.
  - unfold Entry_inv, Entry_wf, cell_ok. compute_done.
  - constructor; [|constructor]. by split.
  - constructor; [|constructor]. by split.
  - by exists m1, m.
Defined.

(** X14: merging entries that bring no new value gives a plain deep copy:
    when every value the other entries hold in a column of [self] is
    already in that column of [self], as for [self] itself and for its
    copies, [merge_entries] returns what [get_deep_copy] returns. *)
Theorem merge_of_known_values_is_copy
    (h : heap) (self : ref) (others : list ref)
    (o : Entry.t) (os : list Entry.t) :
  h !! self = Some o → Entry_inv o →
  Forall2 (λ r o', h !! r = Some o' ∧ Entry_wf o') others os →
  Forall (λ o', ∀ (k : nat) d d2,
            Entry.cell_values o !! k = Some d →
            Entry.cell_values o' !! k = Some d2 → d2 ⊆ d) os →
  Entry.merge_entries self (Some others) h = Entry.get_deep_copy self h ∧
  Entry.get_deep_copy self h = (Ok (length h), h ++ [o]).
Proof.
  intros Hself Hinv Hothers Hknown. pose proof Hinv as [Hwf _].
  rewrite (merge_entries_run _ _ _ _ _ Hself Hwf Hothers).
  rewrite (get_deep_copy_run _ _ _ Hself Hwf).
  rewrite copy_of_inv by done. split; [|done]. do 3 f_equal.
  unfold merge_of. rewrite copy_of_inv by done.
  clear Hothers. induction Hknown as [|o' os Ho' _ IH]; simpl; [done|].
  by rewrite absorb_range_known.
Qed.

Lemma merge_of_known_values_is_copy_witness :
  let a := Entry.mk 2 [["x"; "y"]; ["p"]] in
  let b := Entry.mk 1 [["y"]] in
  Entry.merge_entries 0 (Some [0; 1; 0]) [a; b]
  = Entry.get_deep_copy 0 [a; b].
Proof.
  intros a b.
  destruct (merge_of_known_values_is_copy [a; b] 0 [0; 1; 0] a [a; b; a])
    as [H _]; [reflexivity| | | |exact H].
  - unfold Entry_inv, Entry_wf, cell_ok. compute_done.
  - repeat (constructor; [by split|]). constructor.
  - assert (∀ k d d2, Entry.cell_values a !! k = Some d →
                      Entry.cell_values a !! k = Some d2 → d2 ⊆ d) as Ha.
    { intros k d d2 H1 H2. by simplify_eq. }
    repeat (constructor; [|]); [exact Ha| |exact Ha|constructor].
    intros [|[|k]] d d2 H1 H2; simplify_eq/=.
    intros v ->%list_elem_of_singleton. rewrite !elem_of_cons. auto.
Defined.

(** ** The csv writer and reader on fields with quotes and line feeds *)

Section written_text_facts.
Implicit Types (s t u f p : string) (c : ascii) (fs : list string)
  (rd : Csv.Reader).

Lemma join_append_data_escaped f :
  Csv.join_append_data f = (escaped f, has_special f).
Proof.
  induction f as [|c f IH]; [done|].
  cbn [Csv.join_append_data escaped has_special]. rewrite IH.
  destruct (Csv.special c) eqn:Hc.
  - by destruct (decide (c = Csv.quotechar)) as [->|?].
  - rewrite decide_False; [done|]. intros ->. by vm_compute in Hc.
Qed.

Lemma join_append_escaped f :
  Csv.join_append f
  = if has_special f
    then String Csv.quotechar (escaped f +:+ String Csv.quotechar EmptyString)
    else f.
Proof.
  unfold Csv.join_append. rewrite join_append_data_escaped.
  destruct (has_special f) eqn:Hs; [done|].
  clear -Hs. induction f as [|c f IH]; [done|].
  cbn [escaped has_special] in *.
  apply orb_false_iff in Hs as [Hc Hs].
  rewrite decide_False; [by rewrite IH|]. intros ->. by vm_compute in Hc.
Qed.

(** A doubled quote inside a quoted field. *)
Lemma in_quoted_quote p fs :
  (Z.of_nat (String.length p) < Csv.field_limit)%Z →
  Csv.process_chars (String Csv.quotechar (String Csv.quotechar EmptyString))
                    (Csv.mkReader Csv.IN_QUOTED_FIELD p fs)
  = Ok (Csv.mkReader Csv.IN_QUOTED_FIELD
                     (p +:+ String Csv.quotechar EmptyString) fs).
Proof.
  intros Hp. rewrite process_chars_cons, close_quote, outcome_bind_Ok.
  rewrite process_chars_cons.
  unfold Csv.parse_process_char. cbn [Csv.state].
  rewrite decide_True by done.
  unfold Csv.parse_add_char. cbn [Csv.field Csv.state Csv.fields].
  by rewrite decide_False by lia.
Qed.

Lemma no_special_chars f :
  has_special f = false →
  string_forall (λ c, plain_char c ∧ c ≠ Csv.delimiter) f.
Proof.
  induction f as [|c f IH]; simpl; [done|]. intros Hs.
  apply orb_false_iff in Hs as [Hc Hs]. split; [|by apply IH].
  unfold Csv.special in Hc. apply bool_decide_eq_false in Hc.
  unfold plain_char. split_and!; intros ->; apply Hc; auto.
Qed.

Lemma end_written_field_delimiter f fs :
  Csv.parse_process_char (Some Csv.delimiter)
                         (Csv.mkReader (written_field_state f) f fs)
  = Ok (Csv.mkReader Csv.START_FIELD "" (fs ++ [f])).
Proof. unfold written_field_state. by destruct (has_special f), f. Qed.

Lemma end_written_field_newline f fs :
  Csv.parse_process_char (Some Csv.LF)
                         (Csv.mkReader (written_field_state f) f fs)
  = Ok (Csv.mkReader Csv.EAT_CRNL "" (fs ++ [f])).
Proof. unfold written_field_state. by destruct (has_special f), f. Qed.

Lemma sapp_not_empty s t : t ≠ "" → s +:+ t ≠ "".
Proof. intros Ht. destruct s; [done|]. by rewrite sapp_cons. Qed.

Lemma quotechar_not_LF : Csv.quotechar ≠ Csv.LF.
Proof. done. Qed.

Lemma delimiter_not_LF : Csv.delimiter ≠ Csv.LF.
Proof. done. Qed.

Lemma two_quotes_no_LF :
  string_forall (λ c, c ≠ Csv.LF)
                (String Csv.quotechar (String Csv.quotechar EmptyString)).
Proof. by split_and!. Qed.

(** *** The reader, character by character over the lines of a text *)

Lemma splitlines_cons c s :
  c ≠ Csv.LF → s ≠ "" →
  ∃ l ls, splitlines s = l :: ls ∧ splitlines (String c s) = String c l :: ls.
Proof.
  intros Hc Hs. cbn [splitlines]. rewrite decide_False by done.
  destruct (splitlines s) as [|l ls] eqn:Hl.
  - by apply splitlines_nil in Hl.
  - by exists l, ls.
Qed.

(** A character that is not a line feed, before more text. *)
Lemma records_step_char c s rd rd1 :
  c ≠ Csv.LF → s ≠ "" →
  Csv.parse_process_char (Some c) rd = Ok rd1 →
  Csv.records_from rd (splitlines (String c s))
  = Csv.records_from rd1 (splitlines s).
Proof.
  intros Hc Hs Hstep. destruct (splitlines_cons c s Hc Hs) as (l & ls & -> & ->).
  cbn [Csv.records_from]. unfold Csv.process_line.
  by rewrite process_chars_cons, Hstep, outcome_bind_Ok.
Qed.

Lemma process_chars_cons_Ok c u rd rd1 :
  Csv.process_chars (String c u) rd = Ok rd1 →
  ∃ rd', Csv.parse_process_char (Some c) rd = Ok rd' ∧
         Csv.process_chars u rd' = Ok rd1.
Proof.
  rewrite process_chars_cons.
  destruct (Csv.parse_process_char (Some c) rd) as [rd'|err]; [|done].
  rewrite outcome_bind_Ok. by exists rd'.
Qed.

(** Characters without a line feed, before more text. *)
Lemma records_step_chars u s rd rd1 :
  string_forall (λ c, c ≠ Csv.LF) u → s ≠ "" →
  Csv.process_chars u rd = Ok rd1 →
  Csv.records_from rd (splitlines (u +:+ s))
  = Csv.records_from rd1 (splitlines s).
Proof.
  revert rd. induction u as [|c u IH]; intros rd Hu Hs Hrun.
  { rewrite sapp_nil_l. simpl in Hrun. by simplify_eq. }
  destruct Hu as [Hc Hu].
  apply process_chars_cons_Ok in Hrun as (rd' & Hstep & Hrun).
  rewrite sapp_cons.
  rewrite (records_step_char c _ rd rd') by (done || by apply sapp_not_empty).
  by apply IH.
Qed.

(** A line feed: the line ends, and with it the record unless the line
    feed is inside a quoted field. *)
Lemma records_step_LF s rd rd1 rd2 :
  Csv.parse_process_char (Some Csv.LF) rd = Ok rd1 →
  Csv.parse_process_char None rd1 = Ok rd2 →
  Csv.records_from rd (splitlines (String Csv.LF s))
  = if decide (Csv.state rd2 = Csv.START_RECORD)
    then let '(rows, ending) :=
           Csv.records_from Csv.parse_reset (splitlines s) in
         (Csv.fields rd2 :: rows, ending)
    else Csv.records_from rd2 (splitlines s).
Proof.
  intros H1 H2. cbn [splitlines]. rewrite decide_True by done.
  cbn [Csv.records_from]. unfold Csv.process_line.
  rewrite process_chars_cons, H1, outcome_bind_Ok.
  cbn [Csv.process_chars]. by rewrite outcome_bind_Ok, H2.
Qed.

(** At the start of a record, a character that is no line break opens
    the first field. *)
Lemma records_start c s :
  c ≠ Csv.CR → c ≠ Csv.LF →
  Csv.records_from Csv.parse_reset (splitlines (String c s))
  = Csv.records_from (Csv.mkReader Csv.START_FIELD "" [])
                     (splitlines (String c s)).
Proof.
  intros Hcr Hlf. cbn [splitlines]. rewrite decide_False by done.
  assert (∀ l ls,
            Csv.records_from Csv.parse_reset (String c l :: ls)
            = Csv.records_from (Csv.mkReader Csv.START_FIELD "" [])
                               (String c l :: ls)) as H.
  { intros l ls. cbn [Csv.records_from]. unfold Csv.process_line.
    by rewrite !process_chars_cons, start_record_char. }
  destruct (splitlines s); apply H.
Qed.

(** *** Written fields and records *)

(** The characters of an escaped field inside the quotes, line feeds
    included. *)
Lemma records_in_quoted f p fs s :
  (Z.of_nat (String.length (p +:+ f)) ≤ Csv.field_limit)%Z → s ≠ "" →
  Csv.records_from (Csv.mkReader Csv.IN_QUOTED_FIELD p fs)
                   (splitlines (escaped f +:+ s))
  = Csv.records_from (Csv.mkReader Csv.IN_QUOTED_FIELD (p +:+ f) fs)
                     (splitlines s).
Proof.
  revert p. induction f as [|c f IH]; intros p Hfit Hs.
  { by rewrite sapp_nil_r. }
  rewrite slength_app in Hfit. cbn [String.length] in Hfit.
  assert (Z.of_nat (String.length ((p +:+ String c "") +:+ f))
          ≤ Csv.field_limit)%Z as Hfit'.
  { rewrite !slength_app. cbn [String.length]. lia. }
  assert (p +:+ String c f = (p +:+ String c "") +:+ f) as ->
    by by rewrite sapp_assoc.
  cbn [escaped]. destruct (decide (c = Csv.quotechar)) as [->|Hq].
  - change (String Csv.quotechar (String Csv.quotechar (escaped f)) +:+ s)
      with (String Csv.quotechar (String Csv.quotechar "")
            +:+ (escaped f +:+ s)).
    assert (Z.of_nat (String.length p) < Csv.field_limit)%Z as Hp by lia.
    rewrite (records_step_chars _ _ _ _ two_quotes_no_LF
               (sapp_not_empty _ _ Hs) (in_quoted_quote p fs Hp)).
    by apply IH.
  - rewrite sapp_cons.
    assert (Csv.parse_process_char (Some c)
              (Csv.mkReader Csv.IN_QUOTED_FIELD p fs)
            = Ok (Csv.mkReader Csv.IN_QUOTED_FIELD (p +:+ String c "") fs))
      as Hstep by (apply in_quoted_char; [done|lia]).
    destruct (decide (c = Csv.LF)) as [->|Hlf].
    + rewrite (records_step_LF _ _ _ _ Hstep eq_refl).
      cbn [Csv.state]. rewrite decide_False by done. by apply IH.
    + rewrite (records_step_char _ _ _ _ Hlf (sapp_not_empty _ _ Hs) Hstep).
      by apply IH.
Qed.

(** A written field, from the start of the field to its end. *)
Lemma records_written_field f fs s :
  savable_field f → s ≠ "" →
  Csv.records_from (Csv.mkReader Csv.START_FIELD "" fs)
                   (splitlines (Csv.join_append f +:+ s))
  = Csv.records_from (Csv.mkReader (written_field_state f) f fs)
                     (splitlines s).
Proof.
  intros [_ Hfit] Hs. rewrite join_append_escaped.
  unfold written_field_state. destruct (has_special f) eqn:Hsp.
  - rewrite sapp_cons, sapp_assoc.
    assert (String Csv.quotechar "" +:+ s ≠ "") as Hs1 by done.
    rewrite (records_step_char _ _ _ _ quotechar_not_LF
               (sapp_not_empty _ _ Hs1) (open_quote fs)).
    rewrite records_in_quoted by done.
    rewrite sapp_nil_l, sapp_cons, sapp_nil_l.
    by rewrite (records_step_char _ _ _ _ quotechar_not_LF Hs
                  (close_quote f fs)).
  - pose proof (no_special_chars _ Hsp) as Hchars.
    destruct f as [|c f]; [done|].
    apply records_step_chars; [|done|].
    + eapply string_forall_impl; [|done]. by intros c' [(_ & _ & ?) _].
    + destruct Hchars as [[Hc Hd] Hf].
      rewrite process_chars_cons, start_field_char, outcome_bind_Ok by done.
      by rewrite in_field_run.
Qed.

(** The fields of a written record and its line feed, from the start of
    a field. *)
Lemma records_written_fields f rest fs t :
  Forall savable_field (f :: rest) →
  Csv.records_from (Csv.mkReader Csv.START_FIELD "" fs)
    (splitlines
       (join (String Csv.delimiter EmptyString) (Csv.join_append <$> f :: rest)
        +:+ String Csv.LF t))
  = let '(rows, ending) := Csv.records_from Csv.parse_reset (splitlines t) in
    ((fs ++ f :: rest) :: rows, ending).
Proof.
  revert f fs. induction rest as [|g rest IH]; intros f fs Hok.
  - apply Forall_cons in Hok as [Hf _]. csimpl.
    rewrite records_written_field by done.
    rewrite (records_step_LF _ _ _ _ (end_written_field_newline f fs) eq_refl).
    cbn [Csv.state Csv.set_state]. by rewrite decide_True.
  - apply Forall_cons in Hok as [Hf Hok].
    rewrite fmap_cons, fmap_cons, join_cons_cons, <-fmap_cons.
    rewrite !sapp_assoc, records_written_field by done.
    rewrite sapp_cons, sapp_nil_l.
    assert (String Csv.LF t ≠ "") as Ht by done.
    rewrite (records_step_char _ _ _ _ delimiter_not_LF
               (sapp_not_empty _ _ Ht)
               (end_written_field_delimiter f fs)).
    rewrite IH by done. by rewrite <-app_assoc.
Qed.

Lemma written_field_head f c s :
  Csv.join_append f = String c s → c ≠ Csv.CR ∧ c ≠ Csv.LF.
Proof.
  rewrite join_append_escaped. destruct (has_special f) eqn:Hsp.
  - intros [= <- _]. by vm_compute.
  - intros ->. apply no_special_chars in Hsp as [[(_ & ? & ?) _] _]. done.
Qed.

Lemma written_field_empty f :
  String.length (Csv.join_append f) = 0 → f = "".
Proof.
  rewrite join_append_escaped.
  destruct (has_special f); [done|]. by destruct f.
Qed.

(** A written record and its line feed, from the start of a record. *)
Lemma records_written_record fields t :
  Forall savable_field fields →
  Csv.records_from Csv.parse_reset
                   (splitlines (record_text fields +:+ String Csv.LF t))
  = let '(rows, ending) := Csv.records_from Csv.parse_reset (splitlines t) in
    (fields :: rows, ending).
Proof.
  intros Hok. destruct fields as [|f rest].
  { change (record_text []) with "". rewrite sapp_nil_l.
    rewrite (records_step_LF _ Csv.parse_reset _ _ eq_refl eq_refl).
    cbn [Csv.state Csv.set_state]. by rewrite decide_True. }
  unfold record_text.
  remember (join (String Csv.delimiter "") (Csv.join_append <$> f :: rest))
    as rec eqn:Hrec.
  case_decide as Hz.
  - destruct Hz as [_ Hlen].
    assert (f = "" ∧ rest = []) as [-> ->].
    { destruct rest as [|g rest].
      - split; [|done]. subst rec. by apply written_field_empty.
      - subst rec. rewrite fmap_cons, fmap_cons, join_cons_cons in Hlen.
        rewrite !slength_app in Hlen. simpl in Hlen. lia. }
    rewrite (records_step_chars _ _ Csv.parse_reset
               (Csv.mkReader Csv.QUOTE_IN_QUOTED_FIELD "" []));
      [|apply two_quotes_no_LF|done|done].
    rewrite (records_step_LF _ (Csv.mkReader Csv.QUOTE_IN_QUOTED_FIELD "" [])
               _ _ eq_refl eq_refl).
    cbn [Csv.state Csv.set_state]. by rewrite decide_True.
  - destruct rec as [|c s] eqn:Hc.
    { exfalso. apply Hz. simpl. split; [lia|done]. }
    assert (c ≠ Csv.CR ∧ c ≠ Csv.LF) as [Hcr Hlf].
    { destruct (Csv.join_append f) as [|c' s'] eqn:Hf.
      - destruct rest as [|g rest].
        + csimpl in Hrec. by rewrite Hf in Hrec.
        + rewrite fmap_cons, fmap_cons, join_cons_cons, Hf in Hrec.
          injection Hrec as -> _. by vm_compute.
      - apply written_field_head in Hf as Hhead.
        destruct rest as [|g rest].
        + csimpl in Hrec. rewrite Hf in Hrec. by injection Hrec as -> _.
        + rewrite fmap_cons, fmap_cons, join_cons_cons, Hf in Hrec.
          by injection Hrec as -> _. }
    rewrite sapp_cons, records_start by done.
    rewrite <-sapp_cons, Hrec. by apply (records_written_fields f rest []).
Qed.

Lemma escaped_no_CR f :
  string_forall (λ c, c ≠ Csv.CR) f →
  string_forall (λ c, c ≠ Csv.CR) (escaped f).
Proof.
  induction f as [|c f IH]; simpl; [done|]. intros [Hc Hf].
  case_decide; simpl; auto.
Qed.

Lemma record_text_no_CR fields :
  Forall savable_field fields →
  string_forall (λ c, c ≠ Csv.CR) (record_text fields).
Proof.
  intros Hok. unfold record_text. case_decide; [done|].
  apply join_forall; [done|].
  apply Forall_fmap. eapply Forall_impl; [done|].
  intros f [Hf _]. simpl. rewrite join_append_escaped.
  destruct (has_special f); [|done].
  split; [done|]. apply string_forall_app. split; [by apply escaped_no_CR|].
  by split.
Qed.

(** A file of written records, opened for reading. *)
Lemma translate_newlines_written (rows : list (list string)) :
  Forall (Forall savable_field) rows →
  translate_newlines (written rows) = delivered rows.
Proof.
  induction 1 as [|fields rows Hf Hrows IH]; [done|].
  cbn [written delivered foldr]. fold (written rows). fold (delivered rows).
  rewrite writerow_record_text, sapp_assoc.
  rewrite translate_newlines_record by by apply record_text_no_CR.
  by rewrite IH.
Qed.

(** Writing then reading records of fields without carriage return gives
    them back. *)
Lemma reader_written_savable (rows : list (list string)) :
  Forall (Forall savable_field) rows →
  Csv.reader (file_lines (written rows)) = (rows, None).
Proof.
  intros Hrows. unfold Csv.reader, file_lines.
  rewrite translate_newlines_written by done.
  induction Hrows as [|fields rows Hf Hrows IH]; [done|].
  cbn [delivered foldr]. fold (delivered rows).
  rewrite records_written_record by done. by rewrite IH.
Qed.

Lemma display_savable e :
  savable_entry e → single_valued e → Forall savable_field (display e).
Proof.
  unfold savable_entry, single_valued, display.
  induction 1 as [|d cells Hd _ IH]; intros Hs; [by constructor|].
  apply Forall_cons in Hs as [Hlen Hs]. csimpl. constructor; [|by apply IH].
  destruct d as [|v [|w d]]; [|by apply Forall_cons in Hd as [? _]
                              |simpl in Hlen; lia].
  split; [done|]. by vm_compute.
Qed.
End written_text_facts.

(** ** Reading and writing files: outcomes and stability *)

Section codec_facts.
Implicit Types (h : heap) (t : Table.t) (os : list Entry.t).

Lemma display_of_init (row : list string) :
  display (Entry.init 0 (Some row)) = row.
Proof.
  rewrite init_from_row. unfold display. cbn [Entry.cell_values].
  apply join_seed_cells.
Qed.

Lemma init_single_valued (row : list string) :
  single_valued (Entry.init 0 (Some row)).
Proof.
  rewrite init_from_row. unfold single_valued, seed_cells.
  cbn [Entry.cell_values]. apply Forall_fmap, Forall_true. intros v.
  simpl. case_decide; simpl; lia.
Qed.

Lemma lookup_new_rows_with (P : Entry.t → Prop) h os :
  Forall P os →
  Forall2 (λ r o, (h ++ os) !! r = Some o ∧ P o)
          (seq (length h) (length os)) os.
Proof.
  intros HP. apply Forall2_same_length_lookup_2.
  { by rewrite length_seq. }
  intros i r o Hr Ho. apply lookup_seq in Hr as [-> _]. split.
  - by rewrite lookup_app_r, Nat.add_comm, Nat.add_sub by lia.
  - by eapply (proj1 (Forall_lookup _ _) HP).
Qed.

Lemma stored_values h1 h2 (rows1 rows2 : list ref) os :
  Forall2 (λ r o, h1 !! r = Some o ∧ Entry_wf o) rows1 os →
  (h2 !!.) <$> rows2 = (h1 !!.) <$> rows1 →
  Forall2 (λ r o, h2 !! r = Some o ∧ Entry_wf o) rows2 os.
Proof.
  intros Hrows. revert rows2.
  induction Hrows as [|r o rows1 os [Hr Hwf] _ IH]; intros rows2 Heq.
  - destruct rows2; [constructor|done].
  - destruct rows2 as [|r2 rows2]; [done|]. csimpl in Heq.
    injection Heq as Hr2 Hrest. constructor; [|by apply IH].
    split; [congruence|done].
Qed.
End codec_facts.

(** X15: however [CSV_to_table] ends on the text of a file, the entries
    stored before the call are as they were.  On the empty text it ends
    with [StopIteration], and this is the only text on which it does.
    When it returns a table, the reader has read a header and all the
    records after it. *)
Theorem CSV_to_table_outcomes (text : string) (h : heap) :
  keeps h (CSV_to_table text h).2 ∧
  (text = "" → CSV_to_table text h = (Raise StopIteration, h)) ∧
  ((CSV_to_table text h).1 = Raise StopIteration → text = "") ∧
  (∀ t, (CSV_to_table text h).1 = Ok t →
        ∃ header_list rows,
          Csv.reader (file_lines text) = (header_list :: rows, None) ∧
          Table.get_column_names t = header_list ∧
          Table.get_entry_count t = len rows).
Proof.
  destruct (Csv.reader (file_lines text)) as [[|header_list rows] [e'|]]
    eqn:Hrd.
  - assert (CSV_to_table text h = (Raise e', h)) as Hrun
      by (unfold CSV_to_table; by rewrite Hrd).
    rewrite Hrun. split_and!; [apply keeps_refl| |intros [= ->]|done].
    + intros ->. by vm_compute in Hrd.
    + by apply records_from_ending in Hrd.
  - assert (CSV_to_table text h = (Raise StopIteration, h)) as Hrun
      by (unfold CSV_to_table; by rewrite Hrd).
    rewrite Hrun. split_and!; [apply keeps_refl|done|intros _|done].
    apply file_lines_nil. by eapply records_from_nil.
  - assert (CSV_to_table text h
            = (Raise e', h ++ ((λ row, Entry.init 0 (Some row)) <$> rows)))
      as Hrun.
    { unfold CSV_to_table. rewrite Hrd.
      erewrite bind_Ok; last apply new_entries_run. done. }
    rewrite Hrun. split_and!; [apply keeps_app| |intros [= ->]|done].
    + intros ->. by vm_compute in Hrd.
    + by apply records_from_ending in Hrd.
  - rewrite (CSV_to_table_run text h _ _ Hrd).
    split_and!; [apply keeps_app| |done|].
    + intros ->. by vm_compute in Hrd.
    + intros t [= <-]. exists header_list, rows. split_and!; [done..|].
      unfold Table.get_entry_count, len. simpl. by rewrite length_seq.
Qed.

Lemma CSV_to_table_outcomes_witness :
  let text := "a,b" +:+ Csv.lineterminator +:+ "1" +:+ Csv.lineterminator in
  ∃ header_list rows,
    Csv.reader (file_lines text) = (header_list :: rows, None) ∧
    len rows = 1%Z.
Proof.
  intros text.
  destruct (CSV_to_table_outcomes text []) as (_ & _ & _ & Hok).
  destruct (Hok (Table.mk (Header.mk ["a"; "b"]) [1]))
    as (header_list & rows & Hrd & _ & Hn); [by vm_compute|].
  exists header_list, rows. split; [exact Hrd|]. rewrite <-Hn. reflexivity.
Defined.

(** X16: the table read from a file shows the file as the reader read
    it: whatever the number of fields of a record, fewer or more than the
    header has, the row it becomes is a new entry that holds at most one
    value per column and whose display strings, with any separator, are
    the fields of the record. *)
Theorem parsed_rows_show_the_records
    (text : string) (h : heap) (header_list : list string)
    (rows : list (list string)) (i : nat) (row : list string) (sep : string) :
  Csv.reader (file_lines text) = (header_list :: rows, None) →
  rows !! i = Some row →
  ∃ t h' r e,
    CSV_to_table text h = (Ok t, h') ∧
    Table.get_entry (Z.of_nat i) t = Ok r ∧
    length h ≤ r ∧ h' !! r = Some e ∧
    single_valued e ∧
    Entry.get_value_str_from_columns sep e = Ok row.
Proof.
  intros Hrd Hrow. pose proof (lookup_lt_Some _ _ _ Hrow) as Hi.
  set (es := (λ row, Entry.init 0 (Some row)) <$> rows).
  exists (Table.mk (Header.mk header_list)
            (seq (length h + length rows) (length rows))),
    (h ++ es ++ es), (length h + length rows + i),
    (Entry.init 0 (Some row)).
  split_and!.
  - by apply CSV_to_table_run.
  - unfold Table.get_entry. simpl.
    match goal with
    | |- list_getitem ?l ?k = _ =>
        destruct (list_getitem_nonneg l k) as (x & Hx & ->)
    end.
    { unfold len. rewrite length_seq. lia. }
    rewrite Nat2Z.id, lookup_seq_lt in Hx by done. congruence.
  - lia.
  - rewrite app_assoc, lookup_app_r
      by (rewrite length_app; unfold es; rewrite length_fmap; lia).
    rewrite length_app. unfold es. rewrite length_fmap.
    replace (length h + length rows + i - (length h + length rows)) with i
      by lia.
    by rewrite list_lookup_fmap, Hrow.
  - apply init_single_valued.
  - apply display_init.
Qed.

Lemma parsed_rows_show_the_records_witness :
  let text := "a,b" +:+ Csv.lineterminator
              +:+ "1,2,3" +:+ Csv.lineterminator in
  ∃ t h' r e,
    CSV_to_table text [] = (Ok t, h') ∧
    Table.get_entry 0 t = Ok r ∧ h' !! r = Some e ∧
    Entry.get_value_str_from_columns "; " e = Ok ["1"; "2"; "3"].
Proof.
  intros text.
  destruct (parsed_rows_show_the_records text [] ["a"; "b"]
              [["1"; "2"; "3"]] 0 ["1"; "2"; "3"] "; ")
    as (t & h' & r & e & Hrun & Hget & _ & He & _ & Hshow).
  - by vm_compute.
  - reflexivity.
  - by exists t, h', r, e.
Defined.

(** X17: a file written by [table_to_CSV] is stable: when the column
    names and the display strings of the rows contain no carriage return
    and are within the reader's field size limit, the file can be read
    back, and writing the table read gives the same text again; this
    holds also for cells with several values and for values with quote
    characters, delimiters and line feeds. *)
Theorem written_file_is_stable (h : heap) (t : Table.t) :
  Forall savable_field (Table.get_column_names t) →
  Forall (λ r, ∃ e, h !! r = Some e ∧
                    (Entry_wf e ∧ Forall savable_field (display e)))
         (Table.entries t) →
  ∃ text t' h',
    table_to_CSV t h = (Ok text, h) ∧
    CSV_to_table text h = (Ok t', h') ∧
    table_to_CSV t' h' = (Ok text, h').
Proof.
  intros Hnames Hrows. destruct (stored_rows _ _ _ Hrows) as [os Hos].
  set (rows := display <$> os).
  set (es := (λ row, Entry.init 0 (Some row)) <$> rows).
  assert (Csv.reader (file_lines (written (Table.get_column_names t :: rows)))
          = (Table.get_column_names t :: rows, None)) as Hread.
  { apply reader_written_savable. constructor; [done|].
    unfold rows. apply Forall_fmap.
    clear -Hos. induction Hos as [|r o rs os (_ & _ & Hp) _ IH];
      by constructor. }
  assert (display <$> es = rows) as Hes.
  { unfold es. rewrite <-list_fmap_compose.
    rewrite <-(list_fmap_id rows) at 2. apply list_fmap_ext.
    intros _ row _. apply display_of_init. }
  eexists _, _, _. split_and!.
  - apply table_to_CSV_run with (os := os).
    eapply Forall2_impl; [done|]. by intros r o (? & ? & _).
  - by apply CSV_to_table_run.
  - fold es. rewrite (table_to_CSV_run _ _ es).
    + by rewrite Hes.
    + cbn [Table.entries]. rewrite app_assoc.
      replace (length h + length rows) with (length (h ++ es))
        by (rewrite length_app; unfold es; by rewrite length_fmap).
      replace (length rows) with (length es)
        by (unfold es; by rewrite length_fmap).
      apply lookup_new_rows_with. unfold es. apply Forall_fmap, Forall_true.
      intros row. apply init_inv.
Qed.

Lemma written_file_is_stable_witness :
  let o := Entry.mk 2 [["a"; String Csv.quotechar "b"]; []] in
  let h : heap := [o] in
  let t := Table.mk (Header.mk ["Tag"; "Note"]) [0] in
  ∃ text t' h',
    table_to_CSV t h = (Ok text, h) ∧
    CSV_to_table text h = (Ok t', h') ∧
    table_to_CSV t' h' = (Ok text, h').
Proof.
  intros o h t.
  destruct (written_file_is_stable h t) as (text & t' & h' & Hw & Hr & Hw').
  - repeat constructor; by vm_compute.
  - constructor; [|constructor].
    exists o.
    split_and!; [reflexivity|reflexivity|].
    repeat constructor; by vm_compute.
  - by exists text, t', h'.
Defined.

(** X18: what [table_to_CSV] writes depends on the column names and on
    the values of the rows only, not on which objects the rows are: the
    call never fails on a table of stored entries, leaves the store as it
    is, and writes the same text for two tables of equal value, such as a
    table and its deep copy. *)
Theorem written_text_depends_on_values
    (h1 h2 : heap) (t1 t2 : Table.t) :
  Forall (λ r, ∃ e, h1 !! r = Some e ∧ Entry_wf e) (Table.entries t1) →
  table_value h2 t2 = table_value h1 t1 →
  ∃ text,
    table_to_CSV t1 h1 = (Ok text, h1) ∧
    table_to_CSV t2 h2 = (Ok text, h2).
Proof.
  intros Hrows Hval. destruct (stored_rows _ _ _ Hrows) as [os Hos].
  unfold table_value in Hval. injection Hval as Hnames Hlook.
  exists (written (Table.get_column_names t1 :: (display <$> os))). split.
  - by apply table_to_CSV_run.
  - rewrite <-Hnames. apply table_to_CSV_run.
    by eapply stored_values.
Qed.

Lemma written_text_depends_on_values_witness :
  let e := Entry.mk 1 [["a"; "b"]] in
  let t1 := Table.mk (Header.mk ["Tag"]) [0] in
  let t2 := Table.mk (Header.mk ["Tag"]) [1] in
  ∃ text,
    table_to_CSV t1 [e] = (Ok text, [e]) ∧
    table_to_CSV t2 [e; e] = (Ok text, [e; e]).
Proof.
  intros e t1 t2.
  destruct (written_text_depends_on_values [e] [e; e] t1 t2)
    as (text & H1 & H2).
  - constructor; [|constructor]. exists e. by split.
  - reflexivity.
  - by exists text.
Defined.

(** X19: values with quote characters, delimiters and line feeds
    survive a save and a load: for a table of entries under the class
    invariant whose cells hold at most one value each, when the column
    names and the values contain no carriage return and are within the
    reader's field size limit, [table_to_CSV] succeeds and
    [CSV_to_table] on the text written returns a table of new entries
    with the same column names and, row by row, the same values. *)
Theorem values_survive_save_and_load (h : heap) (t : Table.t) :
  Forall savable_field (Table.get_column_names t) →
  Forall (λ r, ∃ e, h !! r = Some e ∧
                    (Entry_inv e ∧ single_valued e ∧ savable_entry e))
         (Table.entries t) →
  ∃ text t' h',
    table_to_CSV t h = (Ok text, h) ∧
    CSV_to_table text h = (Ok t', h') ∧
    table_value h' t' = table_value h t ∧
    keeps h h'.
Proof.
  intros Hnames Hrows. destruct (stored_rows _ _ _ Hrows) as [os Hos].
  assert ((λ row, Entry.init 0 (Some row)) <$> (display <$> os) = os) as Hinit.
  { rewrite <-list_fmap_compose.
    transitivity (id <$> os); [|apply list_fmap_id].
    apply Forall_fmap_ext.
    clear -Hos. induction Hos as [|r o rs os (_ & Hinv & Hs & _) _ IH];
      constructor; [|done].
    simpl. by apply init_display. }
  assert (Csv.reader (file_lines
            (written (Table.get_column_names t :: (display <$> os))))
          = (Table.get_column_names t :: (display <$> os), None)) as Hread.
  { apply reader_written_savable. constructor; [done|].
    apply Forall_fmap.
    clear -Hos. induction Hos as [|r o rs os (_ & _ & Hs & Hp) _ IH];
      constructor; [|done].
    simpl. by apply display_savable. }
  eexists _, _, _. split_and!.
  - apply table_to_CSV_run with (os := os).
    eapply Forall2_impl; [done|]. by intros r o (? & [? _] & _).
  - by apply CSV_to_table_run.
  - unfold table_value, Table.get_entries, Table.get_column_names,
      Header.get_column_names.
    cbn [Table.header Table.entries Header.column_names].
    f_equal. rewrite Hinit, length_fmap, lookup_fresh_rows.
    apply list_eq. intros i. rewrite !list_lookup_fmap.
    destruct (Table.entries t !! i) as [r|] eqn:Hr; simpl.
    + destruct (Forall2_lookup_l _ _ _ _ _ Hos Hr) as (o & -> & Ho & _).
      simpl. congruence.
    + apply Forall2_length in Hos.
      rewrite (proj2 (lookup_ge_None os i)); [done|].
      rewrite <-Hos. by apply lookup_ge_None.
  - apply keeps_app.
Qed.

Lemma values_survive_save_and_load_witness :
  let e := Entry.init 0 (Some [String Csv.quotechar "Al" +:+
                               String Csv.quotechar ", A.";
                               "two" +:+ String Csv.LF "lines"; ""]) in
  let t := Table.mk (Header.mk ["Name"; "Note"; "Tag"]) [0] in
  ∃ text t' h',
    table_to_CSV t [e] = (Ok text, [e]) ∧
    CSV_to_table text [e] = (Ok t', h') ∧
    table_value h' t' = table_value [e] t.
Proof.
  intros e t.
  destruct (values_survive_save_and_load [e] t)
    as (text & t' & h' & Hw & Hr & Heq & _).
  - repeat constructor; by vm_compute.
  - constructor; [|constructor]. exists e. split_and!.
    + reflexivity.
    + unfold Entry_inv, Entry_wf, cell_ok. compute_done.
    + repeat constructor.
    + repeat constructor; by vm_compute.
  - by exists text, t', h'.
Defined.

(** ** The view: a cell edit and what is shown of it *)

Section view_facts.
Implicit Types (h : heap) (t : Table.t) (e : Entry.t).

Lemma list_setitem_nonneg {A} (l : list A) (i : Z) (x : A) :
  (0 ≤ i < len l)%Z → list_setitem l i x = Ok (<[Z.to_nat i := x]> l).
Proof. intros Hi. unfold list_setitem. by rewrite py_index_nonneg. Qed.

Lemma display_length e :
  Entry_wf e → len (display e) = Entry.column_count e.
Proof. intros Hwf. unfold display, len. by rewrite length_fmap, Hwf. Qed.

Lemma display_map_cell k v e :
  display (map_cell k (λ _, [v]) e) = <[k := v]> (display e).
Proof.
  unfold display, map_cell. cbn [Entry.cell_values].
  apply list_eq. intros i. rewrite list_lookup_fmap, list_lookup_alter.
  destruct (decide (k = i)) as [<-|Hne].
  - destruct (Entry.cell_values e !! k) as [d|] eqn:Hd; simpl.
    + rewrite list_lookup_insert_eq; [done|].
      rewrite length_fmap. by eapply lookup_lt_Some.
    + rewrite list_insert_ge; [by rewrite list_lookup_fmap, Hd|].
      rewrite length_fmap. by apply lookup_ge_None.
  - by rewrite list_lookup_insert_ne, list_lookup_fmap.
Qed.

Lemma set_cell_value_run h t row col text r e :
  Table.get_entry row t = Ok r → h !! r = Some e → Entry_wf e →
  GuiTable.set_cell_value t row col text h
  = (list_setitem (display (Entry.set_value_at_column col text e).2) col text,
     <[r := (Entry.set_value_at_column col text e).2]> h).
Proof.
  intros Hrow Hr Hwf. unfold GuiTable.set_cell_value.
  erewrite bind_Ok; last by (unfold reads; rewrite Hrow).
  pose proof (set_value_at_column_Ok col text e Hwf) as Hok.
  erewrite bind_Ok; last first.
  { rewrite (call_run _ _ _ _ Hr). by rewrite Hok. }
  set (e' := (Entry.set_value_at_column col text e).2).
  assert (Entry_wf e') as Hwf'.
  { unfold e', Entry_wf. rewrite set_column_count.
    destruct (decide ((0 ≤ col < Entry.column_count e)%Z ∧ text ≠ ""))
      as [[??]|Hn].
    - rewrite set_value_at_column_spec by done. unfold map_cell, len.
      simpl. by rewrite length_alter.
    - rewrite set_value_at_column_skip; [done|].
      destruct (decide (text = "")); [by right|]. left.
      destruct (decide (0 ≤ col < Entry.column_count e)%Z);
        [by destruct Hn|lia]. }
  erewrite bind_Ok; last first.
  { rewrite (call_reads _ r e').
    - by rewrite get_value_str_from_columns_run.
    - apply list_lookup_insert_eq. by eapply lookup_lt_Some. }
  done.
Qed.
End view_facts.

(** X20: an edit of a cell is shown as the model holds it and reads
    back: for a row of the table, a column of its entry and a text that
    is not empty, [__set_cell_value] replaces the values of the cell by
    the text, hands the tree view the display strings of the updated
    entry, and [__get_cell_value] then returns this row and the text;
    no other entry changes. *)
Theorem edited_cell_reads_back
    (h : heap) (t : Table.t) (row col : Z) (text : string)
    (r : ref) (e : Entry.t) :
  Table.get_entry row t = Ok r → h !! r = Some e → Entry_wf e →
  (0 ≤ col < Entry.column_count e)%Z → text ≠ "" →
  ∃ shown h' e',
    GuiTable.set_cell_value t row col text h = (Ok shown, h') ∧
    h' = <[r := e']> h ∧
    Entry.get_values_from_column col e' = Ok [text] ∧
    Entry.get_value_str_from_columns ", " e' = Ok shown ∧
    GuiTable.get_cell_value t row col h' = (Ok (shown, col, text), h').
Proof.
  intros Hrow Hr Hwf Hcol Htext.
  pose proof (lookup_lt_Some _ _ _ Hr) as Hlt.
  set (e' := map_cell (Z.to_nat col) (λ _, [text]) e).
  assert (Entry_wf e') as Hwf' by by apply map_cell_wf.
  assert (<[r := e']> h !! r = Some e') as Hr'
    by by apply list_lookup_insert_eq.
  assert (Entry.cell_values e' !! Z.to_nat col = Some [text]) as Hcell.
  { unfold e'. rewrite map_cell_lookup_eq.
    destruct (lookup_lt_is_Some_2 (Entry.cell_values e) (Z.to_nat col))
      as [d ->]; [|done].
    unfold Entry_wf, len in Hwf. lia. }
  exists (display e'), (<[r := e']> h), e'. split_and!.
  - rewrite (set_cell_value_run h t row col text r e) by done.
    rewrite set_value_at_column_spec by done. cbn [snd]. fold e'.
    rewrite list_setitem_nonneg by (by rewrite display_length).
    do 2 f_equal. unfold e'. rewrite display_map_cell.
    by rewrite list_insert_insert_eq.
  - done.
  - apply get_values_from_column_nonneg; [lia|done].
  - by apply get_value_str_from_columns_run.
  - unfold GuiTable.get_cell_value.
    erewrite bind_Ok; last by (unfold reads; rewrite Hrow).
    erewrite bind_Ok; last first.
    { rewrite (call_reads _ _ _ _ Hr').
      by rewrite get_value_str_from_columns_run. }
    erewrite bind_Ok; last first.
    { rewrite (call_reads _ _ _ _ Hr').
      unfold Entry.get_value_str_from_column.
      rewrite (proj2 (out_of_bounds_false e' col)) by done.
      rewrite (get_values_from_column_nonneg col e' [text]) by (lia || done).
      done. }
    done.
Qed.

Lemma edited_cell_reads_back_witness :
  let h : heap := [Entry.mk 2 [["a"; "b"]; ["c"]]] in
  let t := Table.mk (Header.mk ["Tag"; "Note"]) [0] in
  ∃ shown h',
    GuiTable.set_cell_value t 0 0 "z" h = (Ok shown, h') ∧
    GuiTable.get_cell_value t 0 0 h' = (Ok (shown, 0%Z, "z"), h').
Proof.
  intros h t.
  destruct (edited_cell_reads_back h t 0 0 "z" 0 (Entry.mk 2 [["a"; "b"]; ["c"]]))
    as (shown & h' & e' & Hset & -> & _ & Hshown & Hget);
    [reflexivity|reflexivity|reflexivity|by vm_compute|discriminate|].
  eexists _, _. split; [exact Hset|exact Hget].
Defined.

(** X21: an edit that the model ignores is shown all the same, or fails:
    when the text is empty, or the column is not one of the entry,
    [__set_cell_value] leaves the store as it was and hands the tree view
    the old display strings of the row with the text put at the column,
    counted from the end when negative; it ends with [IndexError] when
    the column is out of range in both directions. *)
Theorem ignored_edit_is_shown
    (h : heap) (t : Table.t) (row col : Z) (text : string)
    (r : ref) (e : Entry.t) :
  Table.get_entry row t = Ok r → h !! r = Some e → Entry_wf e →
  (text = "" ∨ col < 0 ∨ Entry.column_count e ≤ col)%Z →
  let n := Entry.column_count e in
  GuiTable.set_cell_value t row col text h
  = (list_setitem (display e) col text, h) ∧
  ((0 ≤ col < n)%Z →
   list_setitem (display e) col text
   = Ok (<[Z.to_nat col := text]> (display e))) ∧
  ((- n ≤ col < 0)%Z →
   list_setitem (display e) col text
   = Ok (<[Z.to_nat (n + col) := text]> (display e))) ∧
  ((col < - n ∨ n ≤ col)%Z →
   list_setitem (display e) col text = Raise IndexError).
Proof.
  intros Hrow Hr Hwf Hign n. subst n.
  pose proof (display_length e Hwf) as Hlen.
  split_and!.
  - rewrite (set_cell_value_run h t row col text r e) by done.
    rewrite set_value_at_column_skip.
    + cbn [snd]. by rewrite list_insert_id.
    + destruct Hign as [?|[?|?]]; [by right|left; lia|left; lia].
  - intros Hc. apply list_setitem_nonneg. by rewrite Hlen.
  - intros Hc. unfold list_setitem. rewrite py_index_neg, Hlen by lia. done.
  - intros Hc. unfold list_setitem.
    rewrite (proj2 (py_index_None _ _)); [done|]. by rewrite Hlen.
Qed.

Lemma ignored_edit_is_shown_witness :
  let e := Entry.mk 2 [["a"; "b"]; ["c"]] in
  let t := Table.mk (Header.mk ["Tag"; "Note"]) [0] in
  GuiTable.set_cell_value t 0 0 "" [e] = (Ok [""; "c"], [e]) ∧
  GuiTable.set_cell_value t 0 2 "z" [e] = (Raise IndexError, [e]).
Proof.
  intros e t. split.
  - destruct (ignored_edit_is_shown [e] t 0 0 "" 0 e) as (H & _);
      [reflexivity|reflexivity|reflexivity|by left|exact H].
  - destruct (ignored_edit_is_shown [e] t 0 2 "z" 0 e) as (H & _);
      [reflexivity|reflexivity|reflexivity|right; right; by vm_compute|exact H].
Defined.

(** X22: the accumulating loops of the window build the names of the
    shortcuts as joins: the accelerator name is [Ctrl] and the names
    given, joined by [+]; the key sequence is [Control] and the keys
    given, joined by [-], between angle brackets. *)
Theorem accelerators_are_joins (names : list string) :
  Window.get_accel_name names = join "+" ("Ctrl" :: names) ∧
  Window.get_accel_seq names = "<" +:+ join "-" ("Control" :: names) +:+ ">".
Proof.
  assert (∀ sep acc, foldl (λ a x : string, a +:+ sep +:+ x) acc names
                     = join sep (acc :: names)) as Hfold.
  { intros sep. induction names as [|x xs IH]; intros acc; [done|].
    cbn [foldl]. rewrite IH. unfold join. cbn [String.concat].
    destruct xs; by rewrite ?sapp_assoc. }
  unfold Window.get_accel_name, Window.get_accel_seq.
  by rewrite !Hfold.
Qed.
